(** * gensim.models.phrases: collocation detection

    A shallow embedding of [gensim/models/phrases.py]: the two word
    counters ([DictWordCounter], a [defaultdict(int)], and
    [CMSketchCounter], a count-min sketch over an [int32] table), the
    vocabulary learner ([Phrases.learn_vocab], [Phrases.add_vocab],
    [prune_vocab]) and the sentence rewriter ([Phrases.__getitem__]).

    Conventions.
    - Tokens after [utils.any2utf8] are byte strings ([string]); Python
      integers are [Z]; cells of the [int32] table are [Z] with the
      wrap-around of a store written out ([int32]).
    - Python floats are IEEE 754 binary64 numbers, Rocq's primitive
      [float]: [-], [*], [/] and the comparisons are the processor's,
      with their rounding, infinities and NaN, and are specified by
      [SpecFloat].  The numbers a caller passes ([min_count],
      [threshold], [delta], [epsilon]) are kept as floats: the module
      only compares them with [0] and [1] and uses them in float
      arithmetic, where Python first converts an integer operand, such
      as the default [min_count=5], to the double of the same value.
    - What the module calls but does not define is a parameter of the
      development: [utils.any2utf8], [utils.to_unicode], the builtin
      [hash], numpy's [log] and the allocations of a sketch.  The draws
      of [random.randrange] are an explicit argument of whatever builds
      a sketch. *)

From Stdlib Require Import ZArith String Ascii List Bool Lia Floats.
From Stdlib Require Uint63.
From stdpp Require Import base option list strings gmap fin_maps.

Local Open Scope Z_scope.
#[local] Set Warnings "-clear-no-such-hyp".
#[local] Set Warnings "-inexact-float".

(** ** Python numbers *)

(** Exceptions raised by the module and by what it calls. *)
Inductive exn : Type :=
| ValueError (msg : string)
| OverflowError (msg : string)
| MemoryError (msg : string).

(** [float(n)] for a Python integer [n], and the conversion of an
    integer operand of a float operation: the double nearest to [n],
    ties to even.  Where this is an infinity ([n] of magnitude
    [2^1024 - 2^970] or more) Python raises [OverflowError] instead; the
    integers converted here are counts and lengths, far below: a count
    is at most the number of tokens read. *)
Definition float_of_int (n : Z) : float :=
  SF2Prim (binary_normalize prec emax n 0 false).

(** [x > y] on floats. *)
Definition fgtb (x y : float) : bool := (y <? x)%float.

(** [int(np.ceil(x))]: [np.ceil] rounds a double up to a double of
    integral value, exactly; [int] converts that value, exactly, and
    raises on an infinity and on NaN. *)
Definition int_ceil (x : float) : exn + Z :=
  match Prim2SF x with
  | S754_nan => inl (ValueError "cannot convert float NaN to integer")
  | S754_infinity _ =>
      inl (OverflowError "cannot convert float infinity to integer")
  | S754_zero _ => inr 0
  | S754_finite s m e =>
      let n := if s then Z.neg m else Z.pos m in
      inr (if 0 <=? e then n * 2 ^ e else - (- n / 2 ^ (- e)))
  end.

(** ** Signs of doubles *)

(** [signed s x]: the double [x], as [SpecFloat] represents it, is not
    NaN and has the sign bit [s]. *)
Definition signed (s : bool) (x : spec_float) : Prop :=
  match x with
  | S754_nan => False
  | S754_zero s' | S754_infinity s' | S754_finite s' _ _ => s' = s
  end.

(** The sign classes used to bound a score: NaN, a zero or negative;
    NaN, a zero or positive; positive; positive or NaN. *)
Definition not_pos (x : spec_float) : bool :=
  match x with
  | S754_nan | S754_zero _ => true
  | S754_infinity s | S754_finite s _ _ => s
  end.

Definition not_neg (x : spec_float) : bool :=
  match x with
  | S754_nan | S754_zero _ => true
  | S754_infinity s | S754_finite s _ _ => negb s
  end.

Definition pos (x : spec_float) : bool :=
  match x with
  | S754_infinity false | S754_finite false _ _ => true
  | _ => false
  end.

Definition pos_or_nan (x : spec_float) : bool :=
  match x with
  | S754_nan | S754_infinity false | S754_finite false _ _ => true
  | _ => false
  end.

(** ** What the module takes from its environment *)

(** The functions the module calls and does not define.  [text] is the
    type of the tokens of a sentence (unicode strings); [any2utf8] and
    [to_unicode] are [gensim.utils]' conversions to and from byte
    strings; [hash] is the builtin of that name on byte strings;
    [np_log] is [np.log] on a double; [allocate d w] is the exception
    raised, if any, while the [d] hash functions ([range(d)]) and the
    table [np.zeros((d, w), dtype='int32')] of a sketch are made.

    The last two fields say that [CMSketchCounter()], which every
    approximate counter is, can be built: [np.log(1 / 10**-2)], the
    logarithm of [100.0], rounds up to [5], and a table of [5] rows of
    [40000000] cells can be allocated. *)
Class Runtime : Type := {
  text : Type;
  any2utf8 : text -> string;
  to_unicode : string -> text;
  hash : string -> Z;
  np_log : float -> float;
  allocate : Z -> Z -> option exn;
  np_log_100 : int_ceil (np_log 100) = inr 5;
  allocate_default : allocate 5 40000000 = None
}.

(** [enumerate(l)]. *)
Definition enumerate {A} (l : list A) : list (nat * A) :=
  zip (seq 0 (length l)) l.

(** [delimiter.join((a, b))]. *)
Definition join (delimiter a b : string) : string :=
  a +:+ delimiter +:+ b.

(** [delimiter.join(bigram)]. *)
Definition joined (delimiter : string) (bigram : string * string) : string :=
  join delimiter bigram.1 bigram.2.

(** [c in w] for a byte [c] and a byte string [w]. *)
Fixpoint occurs (c : ascii) (w : string) : bool :=
  match w with
  | EmptyString => false
  | String x w => if Ascii.eqb x c then true else occurs c w
  end.

(** [zip(s, s[1:])]: the adjacent pairs of a sentence. *)
Definition bigrams {A} (s : list A) : list (A * A) := zip s (tail s).

(** ** Exact counter: [class DictWordCounter(defaultdict)] *)

Module Dict.

(** A [defaultdict(int)]: a finite map from keys to Python integers. *)
Abbreviation DictWordCounter := (gmap string Z).

(** [DictWordCounter()]. *)
Definition empty : DictWordCounter := ∅.

(** [self[key]] on a [defaultdict(int)]: a missing key is first stored
    with [int() = 0]; the value and the dictionary afterwards. *)
Definition getitem (self : DictWordCounter) (key : string)
  : Z * DictWordCounter :=
  match self !! key with
  | Some c => (c, self)
  | None => (0, <[key := 0]> self)
  end.

(** [self[key] += increment]. *)
Definition update_counts (self : DictWordCounter) (key : string)
  (increment : Z) : DictWordCounter :=
  let '(c, self) := getitem self key in
  <[key := c + increment]> self.

(** [key in self]. *)
Definition contains (self : DictWordCounter) (key : string) : bool :=
  bool_decide (is_Some (self !! key)).

(** [len(self)]. *)
Definition len (self : DictWordCounter) : Z := Z.of_nat (size self).

(** [list(vocab)]: a copy of the keys, in the dictionary's order. *)
Definition keys (self : DictWordCounter) : list string :=
  (map_to_list self).*1.

(** The reading the specification gives to [get(k)]: the stored count, [0]
    for a key that is absent. *)
Definition count (self : DictWordCounter) (key : string) : Z :=
  default 0 (self !! key).

End Dict.

(** ** [prune_vocab] *)

(** One round of the loop of [prune_vocab]:
    [if vocab[w] <= min_reduce: del vocab[w]]. *)
Definition prune_step (min_reduce : Z) (vocab : gmap string Z) (w : string)
  : gmap string Z :=
  let '(c, vocab) := Dict.getitem vocab w in
  if c <=? min_reduce then delete w vocab else vocab.

(** [prune_vocab(vocab, min_reduce)]: the loop runs over a copy of the
    keys and deletes from the dictionary itself. *)
Definition prune_vocab (vocab : gmap string Z) (min_reduce : Z)
  : gmap string Z :=
  foldl (prune_step min_reduce) vocab (Dict.keys vocab).

(** ** Approximate counter: [class CMSketchCounter] *)

Module CMS.

Definition _PRIME : Z := 66405897020462343733.

(** [sys.maxint] of a 64-bit interpreter. *)
Definition sys_maxint : Z := 2 ^ 63 - 1.

(** The value an [int32] cell holds after a store of [z]. *)
Definition int32 (z : Z) : Z := (z + 2 ^ 31) mod 2 ^ 32 - 2 ^ 31.

(** The state of a sketch.  A hash function
    [lambda x: (a * x + b) % _PRIME % self.w] is kept as its pair
    [(a, b)].  The table [count], [np.zeros((d, w), dtype='int32')], is
    kept sparsely: a cell that was never stored holds [0]. *)
Record CMSketchCounter : Type := mk {
  conservative : bool;
  w : Z;
  d : Z;
  hash_functions : list (Z * Z);
  count : gmap (nat * Z) Z
}.

(** [hash_function(x)] for the function of coefficients [(a, b)]. *)
Definition apply_hash (self : CMSketchCounter) (ab : Z * Z) (x : Z) : Z :=
  ((ab.1 * x + ab.2) mod _PRIME) mod w self.

(** [self.count[row, column]]. *)
Definition cell (self : CMSketchCounter) (row : nat) (column : Z) : Z :=
  default 0 (count self !! (row, column)).

(** [self.count[row, column] = value]. *)
Definition set_cell (self : CMSketchCounter) (row : nat) (column value : Z)
  : CMSketchCounter :=
  mk (conservative self) (w self) (d self) (hash_functions self)
     (<[(row, column) := int32 value]> (count self)).

(** [random.randrange(0, n)], from the [i]-th word [rnd i] of the
    generator's output. *)
Definition randrange (rnd : nat -> Z) (i : nat) (n : Z) : Z := rnd i mod n.

(** [__generate_hash_function], for the [i]-th function of a sketch. *)
Definition generate_hash_function (rnd : nat -> Z) (i : nat) : Z * Z :=
  (randrange rnd (2 * i) (_PRIME - 1),
   randrange rnd (2 * i + 1) (_PRIME - 1)).

(** [__len__]. *)
Definition len (self : CMSketchCounter) : Z := 0.

(** [__delitem__]. *)
Definition delitem (self : CMSketchCounter) (item : string)
  : CMSketchCounter := self.

(** [self.count += other.count], cell by cell on [int32]. *)
Definition iadd_count (self other : CMSketchCounter) : CMSketchCounter :=
  mk (conservative self) (w self) (d self) (hash_functions self)
     (union_with (fun x y => Some (int32 (x + y))) (count self) (count other)).

Section WithRuntime.
Context {RT : Runtime}.

(** The defaults of [__init__]: [delta=10**-2, epsilon=5E-8]. *)
Definition default_delta : float := 0.01.
Definition default_epsilon : float := 5e-8.

(** Lines 92, 98 and 99, for the dimensions [w] and [d] of lines 94 and
    95: the policy is set to [True], whatever the argument
    [conservative] was; [d] hash functions are drawn; the table is
    zero. *)
Definition build (rnd : nat -> Z) (w d : Z) : CMSketchCounter :=
  mk true w d (map (generate_hash_function rnd) (seq 0 (Z.to_nat d))) ∅.

(** [__init__]: the two checks, then [self.w = int(np.ceil(2 / epsilon))]
    and [self.d = int(np.ceil(np.log(1 / delta)))], either of which
    raises when the quotient is not finite, then the hash functions and
    the table. *)
Definition init (rnd : nat -> Z) (delta epsilon : float) (conservative : bool)
  : exn + CMSketchCounter :=
  if (delta <=? 0)%float || (1 <=? delta)%float then
    inl (ValueError "delta must be between 0 and 1, exclusive")
  else if (epsilon <=? 0)%float || (1 <=? epsilon)%float then
    inl (ValueError "epsilon must be between 0 and 1, exclusive")
  else
    match int_ceil (2 / epsilon) with
    | inl e => inl e
    | inr w =>
        match int_ceil (np_log (1 / delta)) with
        | inl e => inl e
        | inr d =>
            match allocate d w with
            | Some e => inl e
            | None => inr (build rnd w d)
            end
        end
    end.

(** [CMSketchCounter()], the call with the default arguments.  It does
    not raise: the arguments pass the two checks, [2 / 5E-8] is
    [40000000.0], and the runtime gives the depth [5] and the table
    ([np_log_100], [allocate_default]); so the second branch is never
    taken (lemma [default_built]). *)
Definition default (rnd : nat -> Z) : CMSketchCounter :=
  match init rnd default_delta default_epsilon true with
  | inr self => self
  | inl _ => build rnd 0 0
  end.

(** [column = hash_function(abs(hash(key)))]. *)
Definition column (self : CMSketchCounter) (ab : Z * Z) (key : string) : Z :=
  apply_hash self ab (Z.abs (hash key)).

(** [__getitem__]: the minimum of the cells the key addresses, one per
    row, starting from [sys.maxint]. *)
Definition getitem (self : CMSketchCounter) (key : string) : Z :=
  foldl (fun value '(row, hash_function) =>
           Z.min (cell self row (column self hash_function key)) value)
        sys_maxint (enumerate (hash_functions self)).

(** One round of the loop of [update_counts]. *)
Definition update_row (key : string) (c chat : Z) (self : CMSketchCounter)
  (rh : nat * (Z * Z)) : CMSketchCounter :=
  let '(row, hash_function) := rh in
  let column := column self hash_function key in
  if conservative self then
    set_cell self row column (Z.max (cell self row column) (c + chat))
  else
    set_cell self row column (cell self row column + c).

(** [update_counts]: the estimate [chat] is read with the literal
    ["key"], as the source has it ([chat = self["key"]]). *)
Definition update_counts (self : CMSketchCounter) (key : string) (c : Z)
  : CMSketchCounter :=
  let chat := getitem self "key" in
  foldl (update_row key c chat) self (enumerate (hash_functions self)).

(** [__setitem__]. *)
Definition setitem (self : CMSketchCounter) (key : string) (value : Z)
  : CMSketchCounter :=
  foldl (fun self '(row, hash_function) =>
           set_cell self row (column self hash_function key) value)
        self (enumerate (hash_functions self)).

(** The conservative update in the specification's words: read the
    current estimate [chat = get(k)] of the key being updated, then for
    each row [r] set [table[r][col(r,k)] = max(table[r][col(r,k)], c + chat)]. *)
Definition update_counts_spec (self : CMSketchCounter) (k : string) (c : Z)
  : CMSketchCounter :=
  let chat := getitem self k in
  foldl (fun self '(r, hash_function) =>
           let col := column self hash_function k in
           set_cell self r col (Z.max (cell self r col) (c + chat)))
        self (enumerate (hash_functions self)).

End WithRuntime.

End CMS.

(** ** The two counters behind one interface *)

(** The class of [self.vocab], fixed by [exact_count]
    ([_get_counter_instance]). *)
Definition counter_type (exact_count : bool) : Type :=
  if exact_count then gmap string Z else CMS.CMSketchCounter.

Section Counter.
Context {RT : Runtime}.

(** [Phrases._get_counter_instance(exact_count, max_vocab_size)]; [rnd]
    is what [random] returns while a sketch is built. *)
Definition _get_counter_instance (rnd : nat -> Z) (exact_count : bool)
  : counter_type exact_count :=
  match exact_count with
  | true => Dict.empty
  | false => CMS.default rnd
  end.

(** [vocab.update_counts(key, increment)]. *)
Definition update_counts {e : bool}
  : counter_type e -> string -> Z -> counter_type e :=
  match e with
  | true => Dict.update_counts
  | false => CMS.update_counts
  end.

(** [len(vocab)]. *)
Definition len {e : bool} : counter_type e -> Z :=
  match e with
  | true => Dict.len
  | false => CMS.len
  end.

(** [vocab[key]]: the value and the counter afterwards. *)
Definition getitem {e : bool}
  : counter_type e -> string -> Z * counter_type e :=
  match e with
  | true => Dict.getitem
  | false => fun self key => (CMS.getitem self key, self)
  end.

(** [(not exact_count) or test(vocab)], for a test that reads the
    dictionary. *)
Definition approx_or {e : bool} (vocab : counter_type e)
  (test : gmap string Z -> bool) : bool :=
  match e return counter_type e -> bool with
  | true => fun vocab => test vocab
  | false => fun _ => true
  end vocab.

(** [if exact_count: prune_vocab(vocab, min_reduce)]. *)
Definition prune_if_exact {e : bool} (vocab : counter_type e) (min_reduce : Z)
  : counter_type e :=
  match e return counter_type e -> counter_type e with
  | true => fun vocab => prune_vocab vocab min_reduce
  | false => fun vocab => vocab
  end vocab.

(** The reading the specification gives to [get(k)]: the exact value
    ([0] for an absent key), or the minimum over the rows of the sketch. *)
Definition count {e : bool} : counter_type e -> string -> Z :=
  match e with
  | true => Dict.count
  | false => CMS.getitem
  end.

End Counter.

(** ** [class Phrases] *)

Record Phrases : Type := mkPhrases {
  min_count : float;
  threshold : float;
  max_vocab_size : Z;
  exact_count : bool;
  vocab : counter_type exact_count;
  min_reduce : Z;
  delimiter : string
}.

Section Phrases.
Context {RT : Runtime}.

(** The body of the loop over [zip(sentence, sentence[1:])] in
    [learn_vocab]: one update for the first word of the pair, one for the
    joined word. *)
Definition count_bigram {e : bool} (delimiter : string)
  (vocab : counter_type e) (bigram : string * string) : counter_type e :=
  update_counts (update_counts vocab bigram.1 1) (joined delimiter bigram) 1.

(** The body of the loop of [learn_vocab] over one sentence, already
    converted: the updates for each adjacent pair, then the one for the
    last word. *)
Definition count_sentence {e : bool} (delimiter : string)
  (vocab : counter_type e) (sentence : list string) : counter_type e :=
  let vocab := foldl (count_bigram delimiter) vocab (bigrams sentence) in
  match last sentence with
  | Some word => update_counts vocab word 1
  | None => vocab
  end.

(** One round of the outer loop of [learn_vocab], on the pair
    [(min_reduce, vocab)].  The counters [sentence_no] and [total_words]
    only feed the log and are left out. *)
Definition learn_sentence {e : bool} (max_vocab_size : Z) (delimiter : string)
  (st : Z * counter_type e) (sentence : list text) : Z * counter_type e :=
  let '(min_reduce, vocab) := st in
  let sentence := map any2utf8 sentence in
  let vocab := count_sentence delimiter vocab sentence in
  if max_vocab_size <? len vocab then
    (min_reduce + 1, prune_if_exact vocab min_reduce)
  else (min_reduce, vocab).

(** [Phrases.learn_vocab(sentences, max_vocab_size, delimiter, exact_count)]. *)
Definition learn_vocab (rnd : nat -> Z) (sentences : list (list text))
  (max_vocab_size : Z) (delimiter : string) (exact_count : bool)
  : Z * counter_type exact_count :=
  foldl (learn_sentence max_vocab_size delimiter)
        (1, _get_counter_instance rnd exact_count) sentences.

(** The merge of [add_vocab] in exact mode:
    [for word, count in iteritems(vocab): self.vocab.update_counts(word, count)]. *)
Definition merge_counts (self_vocab vocab : gmap string Z) : gmap string Z :=
  foldl (fun v '(word, count) => Dict.update_counts v word count)
        self_vocab (map_to_list vocab).

(** [Phrases.add_vocab(sentences)]. *)
Definition add_vocab (rnd : nat -> Z) (self : Phrases)
  (sentences : list (list text)) : Phrases :=
  let '(mkPhrases mc th mvs e self_vocab self_min_reduce dl) := self in
  let '(min_reduce, vocab) := learn_vocab rnd sentences mvs dl e in
  match e return counter_type e -> counter_type e -> Phrases with
  | true => fun self_vocab vocab =>
      let self_min_reduce := Z.max self_min_reduce min_reduce in
      let self_vocab := merge_counts self_vocab vocab in
      if mvs <? Dict.len self_vocab then
        mkPhrases mc th mvs true (prune_vocab self_vocab self_min_reduce)
                  (self_min_reduce + 1) dl
      else mkPhrases mc th mvs true self_vocab self_min_reduce dl
  | false => fun self_vocab vocab =>
      mkPhrases mc th mvs false (CMS.iadd_count self_vocab vocab)
                self_min_reduce dl
  end self_vocab vocab.

(** [Phrases.__init__]; [rnd] serves the model's own counter and [rnd']
    the one [add_vocab] learns into. *)
Definition init (rnd rnd' : nat -> Z) (sentences : option (list (list text)))
  (min_count threshold : float) (max_vocab_size : Z) (delimiter : string)
  (exact_count : bool) : exn + Phrases :=
  if (min_count <=? 0)%float then
    inl (ValueError "min_count should be at least 1")
  else if (threshold <=? 0)%float then
    inl (ValueError "threshold should be positive")
  else
    let self := mkPhrases min_count threshold max_vocab_size exact_count
                  (_get_counter_instance rnd exact_count) 1 delimiter in
    match sentences with
    | Some sentences => inr (add_vocab rnd' self sentences)
    | None => inr self
    end.

(** *** [Phrases.__getitem__] on one sentence *)

Section Transform.
Variables (min_count threshold : float) (delimiter : string).
Context {e : bool}.

(** Lines 323-328: the three reads, each converted by [float], and the
    score: [0] unless [pa > 0 and pb > 0], and then the product of line
    328, evaluated from left to right in doubles; [len(self.vocab)] is
    converted as an integer operand of [*] is. *)
Definition score (vocab : counter_type e) (a b bigram_word : string)
  : float * counter_type e :=
  let '(ca, vocab) := getitem vocab a in
  let pa := float_of_int ca in
  let '(cb, vocab) := getitem vocab b in
  let pb := float_of_int cb in
  let '(cab, vocab) := getitem vocab bigram_word in
  let pab := float_of_int cab in
  if fgtb pa 0 && fgtb pb 0 then
    (((pab - min_count) / pa / pb * threshold
      * float_of_int (len vocab))%float, vocab)
  else (0%float, vocab).

(** Lines 320-336: whether the pair is joined, and the counter after the
    reads. *)
Definition merges (vocab : counter_type e) (last_bigram : bool)
  (a b : string) : bool * counter_type e :=
  if approx_or vocab (fun d => Dict.contains d a && Dict.contains d b) then
    let bigram_word := join delimiter a b in
    if approx_or vocab (fun d => Dict.contains d bigram_word)
       && negb last_bigram then
      let '(score, vocab) := score vocab a b bigram_word in
      (fgtb score threshold, vocab)
    else (false, vocab)
  else (false, vocab).

(** One round of the loop over [zip(s, s[1:])], on the state
    [(vocab, new_s, last_bigram)]. *)
Definition transform_step (st : counter_type e * list string * bool)
  (bigram : string * string) : counter_type e * list string * bool :=
  let '(vocab, new_s, last_bigram) := st in
  let '(a, b) := bigram in
  let '(merged, vocab) := merges vocab last_bigram a b in
  if merged then (vocab, new_s ++ [join delimiter a b], true)
  else (vocab, if last_bigram then new_s else new_s ++ [a], false).

(** The loop. *)
Definition transform_loop (vocab : counter_type e) (s : list string)
  : counter_type e * list string * bool :=
  foldl transform_step (vocab, [], false) (bigrams s).

(** Lines 342-345: the last word. *)
Definition transform_last (vocab : counter_type e) (new_s : list string)
  (last_bigram : bool) (s : list string) : list string :=
  match last s with
  | Some last_token =>
      if approx_or vocab
           (fun d => Dict.contains d last_token && negb last_bigram)
      then new_s ++ [last_token] else new_s
  | None => new_s
  end.

(** Lines 317-347, with the counter as the reads leave it. *)
Definition transform (vocab : counter_type e) (sentence : list text)
  : counter_type e * list text :=
  let s := map any2utf8 sentence in
  let '(vocab, new_s, last_bigram) := transform_loop vocab s in
  (vocab, map to_unicode (transform_last vocab new_s last_bigram s)).

End Transform.

(** [self[sentence]] for a single sentence (a list of strings, or the
    empty list): the model afterwards and the tokens returned.  The other
    branch of the method, [self._apply] on a corpus, belongs to
    [gensim.interfaces] and is not part of this development. *)
Definition getitem_sentence (self : Phrases) (sentence : list text)
  : Phrases * list text :=
  let '(mkPhrases mc th mvs e v mr dl) := self in
  let '(v, out) := transform mc th dl v sentence in
  (mkPhrases mc th mvs e v mr dl, out).

(** The pairs the code scores when their left word is free (the tests of
    lines 320 and 322): all of them on a sketch, those whose two words
    and whose joined word are keys of the dictionary in exact mode. *)
Definition scored {e} (dl : string) (v : counter_type e) (a b : string)
  : bool :=
  approx_or v (fun d => Dict.contains d a && Dict.contains d b)
  && approx_or v (fun d => Dict.contains d (join dl a b)).

(** The score in the specification's words: with [pa = count(a)],
    [pb = count(b)], [pab = count(join(a,b))] and [N = size(counter)], as
    floats, [0] if [pa <= 0] or [pb <= 0], and otherwise
    [(pab - min_count) / pa / pb * threshold * N]. *)
Definition score_spec (self : Phrases) (a b : string) : float :=
  let pa := float_of_int (count (vocab self) a) in
  let pb := float_of_int (count (vocab self) b) in
  let pab := float_of_int (count (vocab self) (join (delimiter self) a b)) in
  let N := float_of_int (len (vocab self)) in
  if (pa <=? 0)%float || (pb <=? 0)%float then 0%float
  else ((pab - min_count self) / pa / pb * threshold self * N)%float.

End Phrases.

(** ** Histories and reference counts *)

Section Histories.
Context {RT : Runtime}.

(** The models a program can hold: built by [Phrases(...)], then used
    through [add_vocab] and [self[sentence]]. *)
Inductive reachable : Phrases -> Prop :=
| reachable_init rnd rnd' sentences mc th mvs dl e self :
    init rnd rnd' sentences mc th mvs dl e = inr self -> reachable self
| reachable_add_vocab rnd self sentences :
    reachable self -> reachable (add_vocab rnd self sentences)
| reachable_getitem self sentence :
    reachable self -> reachable (getitem_sentence self sentence).1.

(** What stays fixed in a model. *)
Definition config (self : Phrases)
  : float * float * Z * string * bool :=
  (min_count self, threshold self, max_vocab_size self, delimiter self,
   exact_count self).

(** A sequence of [update_counts] calls on a sketch. *)
Definition run_updates (self : CMS.CMSketchCounter) (calls : list (string * Z))
  : CMS.CMSketchCounter :=
  foldl (fun self '(key, c) => CMS.update_counts self key c) self calls.

(** The same sequence under the specified update. *)
Definition run_updates_spec (self : CMS.CMSketchCounter)
  (calls : list (string * Z)) : CMS.CMSketchCounter :=
  foldl (fun self '(key, c) => CMS.update_counts_spec self key c) self calls.

End Histories.

(** The total amount a sequence of calls adds to key [k]. *)
Definition true_count (calls : list (string * Z)) (k : string) : Z :=
  foldr (fun '(key, c) acc => if decide (key = k) then c + acc else acc)
        0 calls.

(** The total amount a sequence of calls adds, over all keys. *)
Definition total_count (calls : list (string * Z)) : Z :=
  foldr (fun '(key, c) acc => c + acc) 0 calls.

(** How often [x] occurs in [l]. *)
Definition occ {A} `{EqDecision A} (x : A) (l : list A) : Z :=
  foldr (fun y acc => if decide (y = x) then 1 + acc else acc) 0 l.

(** The tokens of a stream of converted sentences, and its adjacent
    pairs. *)
Definition stream_tokens (ss : list (list string)) : list string :=
  concat ss.
Definition stream_bigrams (ss : list (list string))
  : list (string * string) :=
  concat (map bigrams ss).

(** The keys a stream gives rise to: its tokens and its joined pairs. *)
Definition stream_keys (delimiter : string) (ss : list (list string))
  : gset string :=
  list_to_set (stream_tokens ss ++ map (joined delimiter) (stream_bigrams ss)).

(** ** A concrete environment *)

(** CPython 2.7's hash of a byte string on a 64-bit build without hash
    randomization, a logarithm on doubles, and a machine with memory for
    every table it can address; used to run the model on concrete
    inputs. *)
Module Py27.

Definition ord (c : ascii) : Z := Z.of_N (N_of_ascii c).

Fixpoint string_hash_loop (x : Z) (s : string) : Z :=
  match s with
  | EmptyString => x
  | String c s => string_hash_loop (Z.lxor ((1000003 * x) mod 2 ^ 64) (ord c)) s
  end.

Definition string_hash (s : string) : Z :=
  match s with
  | EmptyString => 0
  | String c _ =>
      let x := string_hash_loop (Z.shiftl (ord c) 7) s in
      let x := Z.lxor x (Z.of_nat (String.length s)) in
      let x := (x + 2 ^ 63) mod 2 ^ 64 - 2 ^ 63 in
      if x =? -1 then -2 else x
  end.

(** [sum of z^(2i+1) / (2i+1)], the series of [atanh z], [n] terms from
    the term [p / k] on. *)
Fixpoint atanh_series (n : nat) (z2 p k acc : float) : float :=
  match n with
  | O => acc
  | S n => atanh_series n z2 (p * z2)%float (k + 2)%float (acc + p / k)%float
  end.

(** The natural logarithm of a double, to within a few units in the last
    place: for [x = m * 2^e] with [m] between [sqrt 0.5] and [sqrt 2],
    [e * ln 2 + 2 * atanh ((m - 1) / (m + 1))]; NaN below [0] and on
    NaN, [-inf] at [0], [inf] at [inf], as C's [log]. *)
Definition log (x : float) : float :=
  if is_nan x || (x <? 0)%float then nan
  else if (x =? 0)%float then neg_infinity
  else if (x =? infinity)%float then infinity
  else
    let '(m, e) := Z.frexp x in
    let '(m, e) := if (m <? 0.7071067811865476)%float
                   then ((m * 2)%float, e - 1) else (m, e) in
    let z := ((m - 1) / (m + 1))%float in
    (float_of_int e * 0.6931471805599453
     + 2 * atanh_series 40 (z * z) z 1 0)%float.

(** [np.zeros((d, w), dtype='int32')] raises on a negative dimension and
    on a table of [2^63] bytes or more. *)
Definition zeros (d w : Z) : option exn :=
  if (d <? 0) || (w <? 0) then
    Some (ValueError "negative dimensions are not allowed")
  else if 2 ^ 63 <=? 4 * d * w then Some (ValueError "array is too big")
  else None.

Definition runtime : Runtime := {|
  text := string;
  any2utf8 := fun w => w;
  to_unicode := fun w => w;
  hash := string_hash;
  np_log := log;
  allocate := zeros;
  np_log_100 := eq_refl;
  allocate_default := eq_refl
|}.

(** A generator whose first word is [1] and whose other words are [0]:
    the first hash function drawn is [x % _PRIME % w]. *)
Definition rnd_one (i : nat) : Z := match i with O => 1 | S _ => 0 end.

(** What [CMSketchCounter(delta=0.5, epsilon=0.5)] returns under
    [rnd_one]: one row of four cells. *)
Definition small_sketch : CMS.CMSketchCounter :=
  CMS.build rnd_one 4 1.

(** [Phrases(exact_count=False)], built without sentences. *)
Definition approx_model : Phrases :=
  mkPhrases 5 10 40000000 false
    (_get_counter_instance (RT := runtime) rnd_one false) 1 "_".

(** Three copies of one sentence. *)
Definition corpus : list (list string) :=
  [ ["new"; "york"; "is"; "big"];
    ["new"; "york"; "is"; "big"];
    ["new"; "york"; "is"; "big"] ]%string.

(** [Phrases(corpus, min_count=mc, exact_count=True)]. *)
Definition exact_model (mc : float) : Phrases :=
  add_vocab (RT := runtime) rnd_one
    (mkPhrases mc 10 40000000 true Dict.empty 1 "_") corpus.

(** The words [x], [xx], [xxx], ... *)
Fixpoint filler (n : nat) : string :=
  match n with
  | O => "x"
  | S n => String "x" (filler n)
  end.

(** A model with the default [min_count=5] and [threshold=10.0] whose
    dictionary has 70 keys: [a] counted 10 times, [b] 7 times, [a_b] 6
    times, and 67 other words counted once. *)
Definition rounding_model : Phrases :=
  mkPhrases 5 10 40000000 true
    (list_to_map ([("a", 10); ("b", 7); ("a_b", 6)]
                  ++ map (fun n => (filler n, 1)) (seq 0 67)) : gmap string Z)
    1 "_".

End Py27.

(** ** Notions used to state further properties *)

(** A token of the output of [self[sentence]]: a word of the sentence on
    its own, or two adjacent words joined. *)
Inductive segment : Type :=
| Single (a : string)
| Joined (a b : string).

(** The token as it is emitted, and the words of the sentence it stands
    for. *)
Definition render (delimiter : string) (seg : segment) : string :=
  match seg with
  | Single a => a
  | Joined a b => join delimiter a b
  end.

Definition words (seg : segment) : list string :=
  match seg with
  | Single a => [a]
  | Joined a b => [a; b]
  end.

(** Every cell of the table holds an [int32]. *)
Definition cells_int32 (self : CMS.CMSketchCounter) : Prop :=
  forall r col, - 2 ^ 31 <= CMS.cell self r col < 2 ^ 31.

(** What a counter of either class keeps true: a dictionary stores only
    counts of at least [1]; a sketch updates conservatively and has
    [int32] cells. *)
Definition counter_ok {e : bool} : counter_type e -> Prop :=
  match e with
  | true => fun d : gmap string Z => forall k c, d !! k = Some c -> 1 <= c
  | false => fun sk => CMS.conservative sk = true /\ cells_int32 sk
  end.

(** [n] calls [update_counts(key, c)] in a row. *)
Definition repeat_update {RT : Runtime} (self : CMS.CMSketchCounter)
  (key : string) (c : Z) (n : nat) : CMS.CMSketchCounter :=
  Nat.iter n (fun self => CMS.update_counts self key c) self.

(** A sequence of [update_counts] calls on a dictionary. *)
Definition dict_updates (self : gmap string Z) (calls : list (string * Z))
  : gmap string Z :=
  foldl (fun self '(key, c) => Dict.update_counts self key c) self calls.

(** * Properties *)

(** ** Properties of the exact counter and of pruning *)

Lemma dict_update_counts_lookup (v : gmap string Z) key inc k :
  Dict.count (Dict.update_counts v key inc) k =
  if decide (key = k) then Dict.count v k + inc else Dict.count v k.
Proof.
  unfold Dict.update_counts, Dict.getitem, Dict.count.
  destruct (v !! key) as [c|] eqn:E; simpl;
    (case_decide as Hk; [subst k; rewrite lookup_insert_eq, ?E; simpl; lia|]).
  - by rewrite lookup_insert_ne.
  - by rewrite !lookup_insert_ne.
Qed.

Lemma prune_step_lookup m (v : gmap string Z) w k :
  is_Some (v !! w) ->
  prune_step m v w !! k =
  if decide (w = k) then
    (match v !! k with Some c => if c <=? m then None else Some c | None => None end)
  else v !! k.
Proof.
  intros [c Hc]. unfold prune_step, Dict.getitem. rewrite Hc.
  case_decide as Hk.
  - subst k. rewrite Hc. destruct (c <=? m); [apply lookup_delete_eq | done].
  - destruct (c <=? m); [by apply lookup_delete_ne | done].
Qed.

(** Folding [prune_step] over distinct keys that are all present filters
    exactly these keys. *)
Lemma prune_fold_lookup m (ks : list string) : forall (v : gmap string Z) k,
  NoDup ks ->
  (forall w, w ∈ ks -> is_Some (v !! w)) ->
  foldl (prune_step m) v ks !! k =
  if decide (k ∈ ks) then
    (match v !! k with Some c => if c <=? m then None else Some c | None => None end)
  else v !! k.
Proof.
  induction ks as [|w ks IH]; intros v k Hnd Hin; simpl.
  - destruct (decide (k ∈ [])) as [H|H]; [by apply elem_of_nil in H | done].
  - apply NoDup_cons in Hnd as [Hw Hnd].
    assert (Hsome : is_Some (v !! w)) by (apply Hin; set_solver).
    rewrite IH; [|done|].
    + rewrite (prune_step_lookup m v w k Hsome).
      destruct (decide (w = k)) as [->|Hne].
      * rewrite decide_False by done.
        rewrite decide_True by set_solver. done.
      * destruct (decide (k ∈ ks)) as [Hk|Hk].
        -- rewrite decide_True by set_solver. done.
        -- rewrite decide_False; [done|].
           intros [?|?]%elem_of_cons; congruence.
    + intros w' Hw'. rewrite (prune_step_lookup m v w w' Hsome).
      rewrite decide_False by (intros ->; done).
      apply Hin. set_solver.
Qed.

Lemma prune_vocab_lookup (vocab : gmap string Z) m k :
  prune_vocab vocab m !! k =
  match vocab !! k with
  | Some c => if c <=? m then None else Some c
  | None => None
  end.
Proof.
  unfold prune_vocab, Dict.keys.
  rewrite prune_fold_lookup.
  - case_decide as Hk; [done|].
    destruct (vocab !! k) as [c|] eqn:E; [|done].
    exfalso. apply Hk. apply list_elem_of_fmap. exists (k, c). split; [done|].
    by apply elem_of_map_to_list.
  - apply NoDup_fst_map_to_list.
  - intros w [[w' c] [-> Hwc]]%list_elem_of_fmap.
    apply elem_of_map_to_list in Hwc. simpl. by exists c.
Qed.

(** C6. [prune_vocab vocab m] removes exactly the keys whose count is at
    most [m]: no key that remains has a count [<= m], every key whose
    count was [> m] remains, and a key that remains keeps the count it
    had. *)
Theorem prune_vocab_exact (vocab : gmap string Z) (m : Z) :
  (forall k c, prune_vocab vocab m !! k = Some c -> ~ c <= m) /\
  (forall k c, vocab !! k = Some c -> m < c ->
               prune_vocab vocab m !! k = Some c) /\
  (forall k c, prune_vocab vocab m !! k = Some c -> vocab !! k = Some c) /\
  (forall k c, vocab !! k = Some c -> c <= m ->
               prune_vocab vocab m !! k = None).
Proof.
  repeat split; intros k c; rewrite prune_vocab_lookup.
  - destruct (vocab !! k) as [c'|]; [|done].
    destruct (Z.leb_spec c' m); [done|]. intros [= ->]. lia.
  - intros -> Hc. destruct (Z.leb_spec c m); [lia | done].
  - destruct (vocab !! k) as [c'|]; [|done].
    destruct (c' <=? m); [done | by intros [= ->]].
  - intros -> Hc. destruct (Z.leb_spec c m); [done | lia].
Qed.

(** ** Floating-point arithmetic used by the score and by the width *)

(** *** The sign of the result of an operation *)

Lemma shr_1_nonneg mrs : 0 <= shr_m mrs -> 0 <= shr_m (shr_1 mrs).
Proof.
  destruct mrs as [m r s]. simpl. destruct m as [|p|p]; [done| |lia].
  intros _. destruct p; simpl; lia.
Qed.

Lemma iter_pos_shr_1_nonneg p : forall mrs,
  0 <= shr_m mrs -> 0 <= shr_m (SpecFloat.iter_pos shr_1 p mrs).
Proof.
  induction p as [p IH|p IH|]; intros mrs H; simpl.
  - apply IH, IH. by apply shr_1_nonneg.
  - by apply IH, IH.
  - by apply shr_1_nonneg.
Qed.

Lemma shr_nonneg mrs e n : 0 <= shr_m mrs -> 0 <= shr_m (shr mrs e n).1.
Proof.
  intros H. unfold shr. destruct n; simpl; [done| |done].
  by apply iter_pos_shr_1_nonneg.
Qed.

Lemma shr_record_of_loc_m m l : shr_m (shr_record_of_loc m l) = m.
Proof. by destruct l as [|[]]. Qed.

Lemma shr_fexp_nonneg m e l :
  0 <= m -> 0 <= shr_m (shr_fexp prec emax m e l).1.
Proof.
  intros H. unfold shr_fexp. apply shr_nonneg. by rewrite shr_record_of_loc_m.
Qed.

Lemma round_nearest_even_nonneg m l : 0 <= m -> 0 <= round_nearest_even m l.
Proof.
  intros H. unfold round_nearest_even. destruct l as [|[]]; try done.
  - destruct (Z.even m); lia.
  - lia.
Qed.

Lemma binary_round_aux_signed s m e l :
  0 <= m -> signed s (binary_round_aux prec emax s m e l).
Proof.
  intros H. unfold binary_round_aux.
  pose proof (shr_fexp_nonneg m e l H) as H1.
  destruct (shr_fexp prec emax m e l) as [mrs' e'].
  simpl in H1.
  pose proof (shr_fexp_nonneg _ e' loc_Exact
                (round_nearest_even_nonneg _ (loc_of_shr_record mrs') H1)) as H2.
  destruct (shr_fexp prec emax _ e' loc_Exact) as [mrs'' e''].
  simpl in H2. destruct (shr_m mrs'') as [|p|p]; [done| |lia].
  by destruct (e'' <=? emax - prec).
Qed.

Lemma binary_round_signed s m e : signed s (binary_round prec emax s m e).
Proof.
  unfold binary_round. destruct (shl_align _ _ _) as [mz ez].
  by apply binary_round_aux_signed.
Qed.

Lemma binary_normalize_signed m e :
  signed (m <? 0) (binary_normalize prec emax m e false).
Proof.
  unfold binary_normalize. destruct m; [done| |]; apply binary_round_signed.
Qed.

Lemma SFldexp_signed s x e : signed s x -> signed s (SFldexp prec emax x e).
Proof.
  destruct x as [| | |s' m' e']; simpl; try done.
  intros ->. apply binary_round_signed.
Qed.

Lemma SFopp_signed s x : signed s x -> signed (negb s) (SFopp x).
Proof. destruct x; simpl; try done; by intros ->. Qed.

Lemma of_uint63_signed n : signed false (Prim2SF (of_uint63 n)).
Proof.
  rewrite of_uint63_spec.
  pose proof (binary_normalize_signed (Uint63.to_Z n) 0) as H.
  pose proof (Uint63.to_Z_bounded n) as [Hn _].
  destruct (Z.ltb_spec (Uint63.to_Z n) 0); [lia | done].
Qed.

Lemma float_of_int_signed n : signed (n <? 0) (Prim2SF (float_of_int n)).
Proof.
  unfold float_of_int.
  pose proof (binary_normalize_signed n 0) as H.
  destruct (binary_normalize prec emax n 0 false) as [s|s| |s m e]; simpl in *.
  - subst. by destruct (n <? 0).
  - subst. by destruct (n <? 0).
  - done.
  - assert (Hf : signed false (Prim2SF (Z.ldexp (of_uint63 (Uint63.of_Z (Z.pos m))) e))).
    { rewrite Z_ldexp_spec. apply SFldexp_signed, of_uint63_signed. }
    subst s. destruct (n <? 0); [|done].
    rewrite FloatAxioms.opp_spec. by apply (SFopp_signed false).
Qed.

Lemma signed_not_pos x : signed true x -> not_pos x = true.
Proof. destruct x; simpl; try done. Qed.

Lemma signed_not_neg x : signed false x -> not_neg x = true.
Proof. destruct x; simpl; try done; by intros ->. Qed.

Lemma pos_or_nan_not_neg x : pos_or_nan x = true -> not_neg x = true.
Proof. by destruct x as [[]|[]| |[] ? ?]. Qed.

Lemma SFltb_zero_pos x : SFltb (S754_zero false) x = true -> pos x = true.
Proof. by destruct x as [[]|[]| |[] ? ?]. Qed.

Lemma SFleb_zero_pos_or_nan x :
  SFleb x (S754_zero false) = false -> pos_or_nan x = true.
Proof. by destruct x as [[]|[]| |[] ? ?]. Qed.

Lemma SFsub_zero_not_pos x :
  pos_or_nan x = true -> not_pos (SF64sub (S754_zero false) x) = true.
Proof. by destruct x as [[]|[]| |[] ? ?]. Qed.

Lemma div_eucl_nonneg a b : 0 <= a -> 0 < b -> 0 <= (Z.div_eucl a b).1.
Proof.
  intros Ha Hb. change (Z.div_eucl a b).1 with (a / b). by apply Z.div_pos.
Qed.

Lemma SFdiv_core_nonneg m1 e1 m2 e2 :
  0 <= (SFdiv_core_binary prec emax (Z.pos m1) e1 (Z.pos m2) e2).1.1.
Proof.
  unfold SFdiv_core_binary.
  set (s := e1 - e2 - _).
  set (m' := match s with Z.pos _ => _ | 0 => _ | Z.neg _ => _ end).
  assert (Hm' : 0 <= m').
  { unfold m'. destruct s; [lia | | lia]. by apply Z.shiftl_nonneg. }
  pose proof (div_eucl_nonneg m' (Z.pos m2) Hm' ltac:(lia)) as Hq.
  by destruct (Z.div_eucl m' (Z.pos m2)) as [q r].
Qed.

Lemma SFdiv_finite_signed sx mx ex sy my ey :
  signed (xorb sx sy)
    (SF64div (S754_finite sx mx ex) (S754_finite sy my ey)).
Proof.
  unfold SF64div, SFdiv.
  pose proof (SFdiv_core_nonneg mx ex my ey) as H.
  destruct (SFdiv_core_binary prec emax (Z.pos mx) ex (Z.pos my) ey)
    as [[mz ez] lz].
  by apply binary_round_aux_signed.
Qed.

Lemma SFmul_finite_signed sx mx ex sy my ey :
  signed (xorb sx sy)
    (SF64mul (S754_finite sx mx ex) (S754_finite sy my ey)).
Proof. unfold SF64mul, SFmul. by apply binary_round_aux_signed. Qed.

Lemma signed_true_not_pos s x : signed s x -> s = true -> not_pos x = true.
Proof. intros H ->. by apply signed_not_pos. Qed.

Lemma SFdiv_not_pos x y :
  not_pos x = true -> pos y = true -> not_pos (SF64div x y) = true.
Proof.
  intros Hx Hy.
  destruct y as [sy|[]| |[] my ey]; try done;
    destruct x as [sx|sx| |sx mx ex]; simpl in *; try done;
    subst sx; try done.
  apply signed_not_pos.
  apply (SFdiv_finite_signed true mx ex false my ey).
Qed.

Lemma SFmul_not_pos x y :
  not_pos x = true -> not_neg y = true -> not_pos (SF64mul x y) = true.
Proof.
  intros Hx Hy.
  destruct y as [sy|sy| |sy my ey], x as [sx|sx| |sx mx ex]; simpl in *;
    try done; try (apply negb_true_iff in Hy; subst; done).
  apply negb_true_iff in Hy. subst. apply signed_not_pos.
  apply (SFmul_finite_signed true mx ex false my ey).
Qed.

Lemma SFltb_not_pos th x :
  pos_or_nan th = true -> not_pos x = true -> SFltb th x = false.
Proof.
  destruct th as [[]|[]| |[] ? ?], x as [sx|sx| |sx mx ex]; simpl; try done;
    by intros _ ->.
Qed.

Lemma SFmul_zero x s :
  match SF64mul x (S754_zero s) with
  | S754_zero _ | S754_nan => True
  | _ => False
  end.
Proof. by destruct x. Qed.

(** Comparisons. *)
Lemma SFcompare_antisym x y c :
  SFcompare x y = Some c -> SFcompare y x = Some (CompOpp c).
Proof.
  destruct x as [[]|[]| |[] mx ex], y as [[]|[]| |[] my ey]; simpl;
    try (intros [= <-]; reflexivity); try done;
    intros [= <-]; f_equal; rewrite (Z.compare_antisym ex ey);
    destruct (ex ?= ey)%Z; simpl; try done;
    by rewrite (Pos.compare_cont_antisym mx my Eq).
Qed.

Lemma SFleb_SFltb x y : SFleb x y = true -> SFltb y x = false.
Proof.
  unfold SFleb, SFltb. destruct (SFcompare x y) as [c|] eqn:E; [|done].
  rewrite (SFcompare_antisym x y c E). by destruct c.
Qed.

(** *** The quotient [2 / y] *)
Lemma digits2_pos_bounds p :
  2 ^ (Z.pos (digits2_pos p) - 1) <= Z.pos p < 2 ^ Z.pos (digits2_pos p).
Proof.
  induction p as [p IH|p IH|]; simpl digits2_pos.
  - rewrite Pos2Z.inj_succ.
    replace (Z.succ (Z.pos (digits2_pos p)) - 1) with (Z.succ (Z.pos (digits2_pos p) - 1)) by lia.
    rewrite !Z.pow_succ_r by lia. lia.
  - rewrite Pos2Z.inj_succ.
    replace (Z.succ (Z.pos (digits2_pos p)) - 1) with (Z.succ (Z.pos (digits2_pos p) - 1)) by lia.
    rewrite !Z.pow_succ_r by lia. lia.
  - simpl. lia.
Qed.

Lemma digits2_pos_unique p n :
  2 ^ (n - 1) <= Z.pos p < 2 ^ n -> Z.pos (digits2_pos p) = n.
Proof.
  intros [Hlo Hhi]. pose proof (digits2_pos_bounds p) as [Dlo Dhi].
  set (d := Z.pos (digits2_pos p)) in *.
  assert (0 < n).
  { destruct (Z.ltb_spec 0 n); [done|].
    assert (2 ^ n <= 1); [|lia].
    destruct (decide (n = 0)) as [->|]; [done|].
    rewrite Z.pow_neg_r by lia. lia. }
  destruct (Z.lt_trichotomy d n) as [Hlt|[->|Hgt]]; [|done|].
  - assert (2 ^ d <= 2 ^ (n - 1)) by (apply Z.pow_le_mono_r; lia). lia.
  - assert (2 ^ n <= 2 ^ (d - 1)) by (apply Z.pow_le_mono_r; lia). lia.
Qed.

Lemma loc_of_shr_record_of_loc m l :
  loc_of_shr_record (shr_record_of_loc m l) = l.
Proof. by destruct l as [|[]]. Qed.

Lemma fexp_normal k : -1021 <= k -> fexp prec emax k = k - 53.
Proof. intros H. unfold fexp, SpecFloat.emin, prec, emax. lia. Qed.

Lemma round_nearest_even_bounds m l :
  m <= round_nearest_even m l <= m + 1.
Proof.
  unfold round_nearest_even. destruct l as [|[]]; try lia.
  destruct (Z.even m); lia.
Qed.

(** Rounding a quotient that already has 53 or 54 digits. *)
Lemma binary_round_aux_53 sx q e l :
  2 ^ 52 <= q <= 2 ^ 53 -> -51 <= e ->
  match binary_round_aux prec emax sx q e l with
  | S754_infinity s => s = sx
  | S754_finite s M E =>
      s = sx /\
      ((E = e /\ Z.pos M = round_nearest_even q l /\ Z.pos M < 2 ^ 53) \/
       (E = e + 1 /\ Z.pos M = 2 ^ 52))
  | _ => False
  end.
Proof.
  intros [Hlo Hhi] He. destruct q as [|p|p]; [lia| |lia].
  destruct (Z.eq_dec (Z.pos p) 9007199254740992) as [E53|Hne].
  - (* 54 digits: one shift *)
    injection E53 as ->. unfold binary_round_aux, shr_fexp.
    change (Zdigits2 9007199254740992) with 54.
    rewrite (fexp_normal (54 + e)) by lia.
    replace (54 + e - 53 - e) with 1 by lia.
    assert (Hs : forall l0, exists s0,
              shr (shr_record_of_loc 9007199254740992 l0) e 1
              = ({| shr_m := 4503599627370496; shr_r := false; shr_s := s0 |},
                 e + 1)).
    { intros l0. destruct l0 as [|[]]; eexists; reflexivity. }
    destruct (Hs l) as [s0 ->]. cbn [shr_m].
    assert (Hr : round_nearest_even 4503599627370496
                   (loc_of_shr_record
                      {| shr_m := 4503599627370496; shr_r := false; shr_s := s0 |})
                 = 4503599627370496) by (by destruct s0).
    rewrite Hr. change (Zdigits2 4503599627370496) with 53.
    rewrite (fexp_normal (53 + (e + 1))) by lia.
    replace (53 + (e + 1) - 53 - (e + 1)) with 0 by lia.
    simpl. destruct (e + 1 <=? emax - prec); [|done].
    split; [done|]. right. done.
  - (* 53 digits: no shift *)
    assert (Hd : Zdigits2 (Z.pos p) = 53).
    { simpl. apply digits2_pos_unique. lia. }
    unfold binary_round_aux, shr_fexp. rewrite Hd.
    rewrite (fexp_normal (53 + e)) by lia.
    replace (53 + e - 53 - e) with 0 by lia.
    simpl shr. cbv beta iota. rewrite loc_of_shr_record_of_loc, shr_record_of_loc_m.
    pose proof (round_nearest_even_bounds (Z.pos p) l) as [Rlo Rhi].
    set (q1 := round_nearest_even (Z.pos p) l) in *.
    destruct (Z.eq_dec q1 9007199254740992) as [E1|Hne1].
    + rewrite E1.
      change (Zdigits2 9007199254740992) with 54.
      rewrite (fexp_normal (54 + e)) by lia.
      replace (54 + e - 53 - e) with 1 by lia.
      simpl. destruct (e + 1 <=? emax - prec); [|done].
      split; [done|]. right. done.
    + destruct q1 as [|p1|p1] eqn:Eq1; [lia| |lia].
      assert (Hd1 : Zdigits2 (Z.pos p1) = 53).
      { simpl. apply digits2_pos_unique. lia. }
      rewrite Hd1. rewrite (fexp_normal (53 + e)) by lia.
      replace (53 + e - 53 - e) with 0 by lia.
      simpl. destruct (e <=? emax - prec); [|done].
      split; [done|]. left. split; [done|]. split; [done|]. lia.
Qed.

Lemma new_location_above nb k :
  0 < k -> nb < 2 * k -> new_location nb k = loc_Inexact Gt.
Proof.
  intros Hk Hlt. unfold new_location, new_location_even, new_location_odd.
  destruct (Z.even nb); destruct (Z.eqb_spec k 0); try lia.
  - by rewrite (proj2 (Z.compare_gt_iff (2 * k) nb)) by lia.
  - by rewrite (proj2 (Z.compare_gt_iff (2 * k + 1) nb)) by lia.
Qed.

(** [2 / y] for a double [0 < y < 1]: the quotient is above [2]. *)
Lemma SFdiv_two_lower my ey :
  bounded prec emax my ey = true -> ey <= -53 ->
  match SF64div (S754_finite false 4503599627370496 (-51))
                (S754_finite false my ey) with
  | S754_infinity s => s = false
  | S754_finite s M E =>
      s = false /\ -51 <= E /\ 2 ^ 52 <= Z.pos M /\
      (E = -51 -> 2 ^ 52 < Z.pos M)
  | _ => False
  end.
Proof.
  intros Hb Hey. unfold bounded, canonical_mantissa in Hb.
  apply andb_true_iff in Hb as [Hc _]. apply Z.eqb_eq in Hc.
  pose proof (digits2_pos_bounds my) as [Dlo Dhi].
  set (d2 := Z.pos (digits2_pos my)) in *.
  assert (Hd2 : 1 <= d2 <= 53).
  { unfold fexp, SpecFloat.emin, prec, emax in Hc. unfold d2. lia. }
  assert (Hsum : d2 + ey <= 0) by lia.
  unfold SF64div, SFdiv, SFdiv_core_binary.
  change (Zdigits2 4503599627370496) with 53.
  change (Zdigits2 (Z.pos my)) with d2.
  rewrite (fexp_normal (53 + -51 - (d2 + ey))) by lia.
  replace (Z.min (53 + -51 - (d2 + ey) - 53) (-51 - ey))
    with (-51 - d2 - ey) by lia.
  replace (-51 - ey - (-51 - d2 - ey)) with d2 by lia.
  unfold d2 at 1. fold d2.
  rewrite Z.shiftl_mul_pow2 by lia.
  pose proof (Z_div_mod (4503599627370496 * 2 ^ d2) (Z.pos my) ltac:(lia))
    as Hdiv.
  destruct (Z.div_eucl (4503599627370496 * 2 ^ d2) (Z.pos my)) as [q r].
  destruct Hdiv as [Hqr Hr].
  assert (Hpow : 2 ^ d2 = 2 * 2 ^ (d2 - 1)).
  { replace d2 with (Z.succ (d2 - 1)) at 1 by lia.
    rewrite Z.pow_succ_r by lia. done. }
  assert (Hq : 2 ^ 52 <= q <= 2 ^ 53) by nia.
  pose proof (binary_round_aux_53 (xorb false false) q (-51 - d2 - ey)
                (new_location (Z.pos my) r) Hq ltac:(lia)) as Hround.
  destruct (binary_round_aux prec emax (xorb false false) q (-51 - d2 - ey)
              (new_location (Z.pos my) r)) as [s|s| |s M E]; try done.
  destruct Hround as [-> Hcases]. split; [done|].
  pose proof (round_nearest_even_bounds q (new_location (Z.pos my) r))
    as [Rlo Rhi].
  destruct Hcases as [(-> & HM & _) | (-> & HM)].
  - split; [lia|]. split; [lia|]. intros HE.
    destruct (Z.eq_dec q (2 ^ 52)) as [Eq|]; [|lia].
    assert (Ed : d2 = 53) by lia.
    clearbody d2. subst d2 q.
    change (2 ^ 53) with 9007199254740992 in *.
    change (2 ^ 52) with 4503599627370496 in *.
    rewrite HM, new_location_above; [simpl; lia | lia | lia].
  - split; [lia|]. split; [lia|]. lia.
Qed.

(** *** On primitive floats *)

Lemma Prim2SF_zero : Prim2SF 0 = S754_zero false.
Proof. reflexivity. Qed.

Lemma float_of_int_0 : float_of_int 0 = 0%float.
Proof. reflexivity. Qed.

Lemma is_nan_spec x : is_nan x = true <-> Prim2SF x = S754_nan.
Proof.
  unfold is_nan. rewrite FloatAxioms.eqb_spec. unfold SFeqb.
  destruct (Prim2SF x) as [[]|[]| |[] m e]; simpl;
    rewrite ?Z.compare_refl, ?Pos.compare_cont_refl; simpl; split; done.
Qed.

(** A double that is NaN, a zero or negative is not above a threshold
    that passed the test of [__init__]. *)
Lemma fgtb_not_pos th x :
  (th <=? 0)%float = false -> not_pos (Prim2SF x) = true -> fgtb x th = false.
Proof.
  unfold fgtb. rewrite FloatAxioms.ltb_spec, FloatAxioms.leb_spec, Prim2SF_zero. intros H1 H2.
  apply SFltb_not_pos; [by apply SFleb_zero_pos_or_nan | done].
Qed.

Lemma fgtb_zero th : (th <=? 0)%float = false -> fgtb 0 th = false.
Proof. intros H. by apply fgtb_not_pos. Qed.

(** [x <= y] excludes [x > y]. *)
Lemma leb_fgtb x y : (x <=? y)%float = true -> fgtb x y = false.
Proof. unfold fgtb. rewrite FloatAxioms.ltb_spec, FloatAxioms.leb_spec. apply SFleb_SFltb. Qed.

(** A product with [0.0] is a zero or NaN. *)
Lemma mul_zero_class x :
  ((x * 0 =? 0)%float = true /\ is_nan (x * 0) = false) \/
  is_nan (x * 0) = true.
Proof.
  destruct (is_nan (x * 0)) eqn:En; [by right | left; split; [|done]].
  rewrite FloatAxioms.eqb_spec, FloatAxioms.mul_spec, Prim2SF_zero.
  assert (Hn : Prim2SF (x * 0) <> S754_nan).
  { intros E. apply is_nan_spec in E. congruence. }
  rewrite FloatAxioms.mul_spec, Prim2SF_zero in Hn.
  by destruct (Prim2SF x) as [[]|[]| |[] m e].
Qed.

Lemma mul_zero_not_pos x : not_pos (Prim2SF (x * 0)) = true.
Proof.
  rewrite FloatAxioms.mul_spec, Prim2SF_zero. by destruct (Prim2SF x) as [[]|[]| |[] m e].
Qed.

(** The float of an integer is not NaN, so that [pa <= 0] is the
    negation of [pa > 0]; and it is [<= 0] when the integer is. *)
Lemma float_of_int_leb n :
  (float_of_int n <=? 0)%float = negb (fgtb (float_of_int n) 0).
Proof.
  unfold fgtb. rewrite FloatAxioms.ltb_spec, FloatAxioms.leb_spec, Prim2SF_zero.
  pose proof (float_of_int_signed n) as H.
  by destruct (Prim2SF (float_of_int n)) as [[]|[]| |[] m e].
Qed.

Lemma float_of_int_nonpos n :
  n <= 0 -> (float_of_int n <=? 0)%float = true.
Proof.
  intros Hn. rewrite FloatAxioms.leb_spec, Prim2SF_zero.
  pose proof (float_of_int_signed n) as H.
  destruct (Z.ltb_spec n 0).
  - by destruct (Prim2SF (float_of_int n)) as [[]|[]| |[] m e].
  - assert (n = 0) as -> by lia. reflexivity.
Qed.

Lemma float_of_int_not_neg n :
  0 <= n -> not_neg (Prim2SF (float_of_int n)) = true.
Proof.
  intros Hn. apply signed_not_neg.
  pose proof (float_of_int_signed n) as H.
  by destruct (Z.ltb_spec n 0); [lia|].
Qed.

(** The product of line 328 when the joined word has count [0]: it is
    NaN, a zero or negative, hence not above the threshold. *)
Lemma score_without_pair_not_above (mc th pa pb : float) (n : Z) :
  (mc <=? 0)%float = false -> (th <=? 0)%float = false ->
  fgtb pa 0 = true -> fgtb pb 0 = true -> 0 <= n ->
  fgtb ((0 - mc) / pa / pb * th * float_of_int n) th = false.
Proof.
  unfold fgtb at 1 2. rewrite !FloatAxioms.ltb_spec, !FloatAxioms.leb_spec, !Prim2SF_zero.
  intros Hmc Hth Hpa Hpb Hn. apply fgtb_not_pos.
  { by rewrite FloatAxioms.leb_spec, Prim2SF_zero. }
  rewrite !FloatAxioms.mul_spec, !FloatAxioms.div_spec, FloatAxioms.sub_spec, Prim2SF_zero.
  apply SFmul_not_pos; [|by apply float_of_int_not_neg].
  apply SFmul_not_pos;
    [|by apply pos_or_nan_not_neg, SFleb_zero_pos_or_nan].
  apply SFdiv_not_pos; [|by apply SFltb_zero_pos].
  apply SFdiv_not_pos; [|by apply SFltb_zero_pos].
  by apply SFsub_zero_not_pos, SFleb_zero_pos_or_nan.
Qed.

(** *** The width of a sketch *)

Lemma int_ceil_nan x : Prim2SF x = S754_nan -> exists e, int_ceil x = inl e.
Proof. intros E. unfold int_ceil. rewrite E. by eexists. Qed.

(** [int(np.ceil(2 / epsilon))] is at least [3] for every [epsilon] that
    passes the check of [__init__] and for which the conversion does
    not raise. *)
Lemma width_at_least_3 (epsilon : float) (w : Z) :
  (epsilon <=? 0)%float = false -> (1 <=? epsilon)%float = false ->
  int_ceil (2 / epsilon) = inr w -> 3 <= w.
Proof.
  rewrite !FloatAxioms.leb_spec, Prim2SF_zero. unfold int_ceil. rewrite FloatAxioms.div_spec.
  change (Prim2SF 1) with (S754_finite false 4503599627370496 (-52)).
  change (Prim2SF 2) with (S754_finite false 4503599627370496 (-51)).
  pose proof (Prim2SF_valid epsilon) as Hv. intros H0 H1 Hw.
  destruct (Prim2SF epsilon) as [[]|[]| |[] my ey];
    try (simpl in *; done).
  clear H0.
  assert (Hey : ey <= -53).
  { unfold SFleb, SFcompare in H1.
    destruct (Z.compare_spec (-52) ey) as [E|E|E]; [|done|lia].
    subst ey. exfalso.
    unfold valid_binary, bounded, canonical_mantissa in Hv.
    apply andb_true_iff in Hv as [Hc _]. apply Z.eqb_eq in Hc.
    pose proof (digits2_pos_bounds my) as [Dlo _].
    assert (Ed : Z.pos (digits2_pos my) = 53).
    { unfold fexp, SpecFloat.emin, prec, emax in Hc. lia. }
    rewrite Ed in Dlo.
    destruct (PosDef.Pos.compare_cont Eq 4503599627370496 my) eqn:Ec;
      [done | done |].
    pose proof (Pos.compare_cont_spec 4503599627370496 my Eq) as Es.
    rewrite Ec in Es. symmetry in Es. unfold Pos.switch_Eq in Es.
    destruct (4503599627370496 ?= my)%positive eqn:Ep; try done.
    all: apply Pos.compare_gt_iff in Ep.
    all: change (2 ^ (53 - 1)) with 4503599627370496 in Dlo; lia. }
  pose proof (SFdiv_two_lower my ey Hv Hey) as Hq.
  destruct (SF64div (S754_finite false 4503599627370496 (-51))
              (S754_finite false my ey)) as [s|s| |s M E]; try done.
  destruct Hq as (-> & HE & HM & HM'). injection Hw as <-.
  change (2 ^ 52) with 4503599627370496 in *.
  destruct (Z.leb_spec 0 E).
  - assert (1 <= 2 ^ E) by (apply (Z.pow_le_mono_r 2 0 E); lia). nia.
  - assert (Hp : 2 * 2 ^ (- E) < Z.pos M).
    { destruct (Z.eq_dec E (-51)) as [->|].
      - specialize (HM' eq_refl). change (2 ^ (- -51)) with 2251799813685248. lia.
      - assert (2 ^ (- E) <= 2 ^ 50) by (apply Z.pow_le_mono_r; lia).
        change (2 ^ 50) with 1125899906842624 in *. lia. }
    assert (0 < 2 ^ (- E)) by (apply Z.pow_pos_nonneg; lia).
    assert (- Z.pos M / 2 ^ (- E) < -2); [|lia].
    apply Z.div_lt_upper_bound; lia.
Qed.

(** *** The default sketch *)

Section DefaultSketch.
Context {RT : Runtime}.

Lemma default_width : int_ceil (2 / CMS.default_epsilon) = inr 40000000.
Proof. vm_compute. reflexivity. Qed.

(** [CMSketchCounter()] returns a sketch of [5] rows of [40000000]
    cells. *)
Lemma default_built rnd :
  CMS.init rnd CMS.default_delta CMS.default_epsilon true
  = inr (CMS.build rnd 40000000 5).
Proof.
  unfold CMS.init.
  change ((CMS.default_delta <=? 0)%float || (1 <=? CMS.default_delta)%float)
    with false.
  change ((CMS.default_epsilon <=? 0)%float
          || (1 <=? CMS.default_epsilon)%float) with false.
  cbv iota. rewrite default_width.
  change (1 / CMS.default_delta)%float with 100%float.
  by rewrite np_log_100, allocate_default.
Qed.

Lemma default_eq rnd : CMS.default rnd = CMS.build rnd 40000000 5.
Proof. unfold CMS.default. by rewrite default_built. Qed.

End DefaultSketch.

(** ** The rewriting of a sentence *)

Lemma foldl_cons {A B} (f : A -> B -> A) (a : A) (x : B) (l : list B) :
  foldl f a (x :: l) = foldl f (f a x) l.
Proof. reflexivity. Qed.

Lemma bigrams_cons {A} (a b : A) (l : list A) :
  bigrams (a :: b :: l) = (a, b) :: bigrams (b :: l).
Proof. reflexivity. Qed.

Lemma bigrams_snoc {A} (pre : list A) (a t : A) :
  bigrams (pre ++ [a; t]) = bigrams (pre ++ [a]) ++ [(a, t)].
Proof.
  induction pre as [|x pre IH]; [done|].
  destruct pre as [|y pre]; [done|].
  change ((x :: y :: pre) ++ [a; t]) with (x :: y :: (pre ++ [a; t])).
  change ((x :: y :: pre) ++ [a]) with (x :: y :: (pre ++ [a])).
  rewrite !bigrams_cons. simpl. f_equal. exact IH.
Qed.

Lemma elem_of_bigrams_l {A} (a b : A) (l : list A) :
  (a, b) ∈ bigrams l -> a ∈ l /\ b ∈ l.
Proof.
  induction l as [|x l IH]; [by intros ?%elem_of_nil|].
  destruct l as [|y l]; [by intros ?%elem_of_nil|].
  rewrite bigrams_cons. intros [E|Hin]%elem_of_cons.
  - injection E as -> ->. split; [left|right; left].
  - destruct (IH Hin). split; [|by right].
    right. done.
Qed.

Lemma dict_getitem_present (v : gmap string Z) (k : string) :
  Dict.contains v k = true -> Dict.getitem v k = (Dict.count v k, v).
Proof.
  unfold Dict.contains, Dict.getitem, Dict.count.
  intros [c Hc]%bool_decide_eq_true. by rewrite Hc.
Qed.

Lemma dict_count_absent (v : gmap string Z) (k : string) :
  Dict.contains v k = false -> Dict.count v k = 0.
Proof.
  unfold Dict.contains, Dict.count. intros Hk%bool_decide_eq_false.
  destruct (v !! k) eqn:E; [|done]. exfalso. apply Hk. by eexists.
Qed.

Section TransformProperties.
Context {RT : Runtime}.

(** On a scored pair the reads leave the counter as it is and the score
    is the specified one. *)
Lemma score_scored mc th mvs e (v : counter_type e) mr dl a b :
  scored dl v a b = true ->
  score mc th v a b (join dl a b) =
  (score_spec (mkPhrases mc th mvs e v mr dl) a b, v).
Proof.
  unfold scored, score, score_spec. simpl.
  destruct e; simpl.
  - intros [[Ha Hb]%andb_true_iff Hab]%andb_true_iff.
    rewrite (dict_getitem_present _ _ Ha), (dict_getitem_present _ _ Hb),
      (dict_getitem_present _ _ Hab).
    rewrite !float_of_int_leb. by do 2 destruct (fgtb _ 0).
  - intros _. rewrite !float_of_int_leb. by do 2 destruct (fgtb _ 0).
Qed.

(** The reads never change the counter. *)
Lemma merges_vocab mc th dl e (v : counter_type e) lb a b :
  (merges mc th dl v lb a b).2 = v.
Proof.
  unfold merges.
  destruct (approx_or v (λ d, Dict.contains d a && Dict.contains d b)) eqn:E1;
    [|done].
  destruct (approx_or v (λ d, Dict.contains d (join dl a b))) eqn:E2; [|done].
  destruct lb; [done|]. simpl.
  rewrite (score_scored mc th 0 e v 0 dl a b); [done|].
  unfold scored. by rewrite E1, E2.
Qed.

(** A pair whose left word was consumed by the previous merge is not
    joined. *)
Lemma merges_after_merge mc th dl e (v : counter_type e) a b :
  (merges mc th dl v true a b).1 = false.
Proof.
  unfold merges. destruct (approx_or _ _); [|done].
  by rewrite andb_false_r.
Qed.

(** A pair that is scored and whose left word is free is joined exactly
    when its score is above the threshold; a pair that is not scored is
    not joined. *)
Lemma merges_scored mc th mvs e (v : counter_type e) mr dl a b :
  scored dl v a b = true ->
  (merges mc th dl v false a b).1 =
  fgtb (score_spec (mkPhrases mc th mvs e v mr dl) a b) th.
Proof.
  intros Hs. unfold merges. pose proof Hs as Hs'. unfold scored in Hs'.
  apply andb_true_iff in Hs' as [-> ->]. simpl.
  by rewrite (score_scored mc th mvs e v mr dl a b Hs).
Qed.

Lemma merges_unscored mc th e (v : counter_type e) dl lb a b :
  scored dl v a b = false -> (merges mc th dl v lb a b).1 = false.
Proof.
  unfold scored, merges. intros Hs.
  destruct (approx_or v (λ d, Dict.contains d a && Dict.contains d b));
    [|done].
  simpl in Hs. by rewrite Hs.
Qed.

(** A pair that is not scored has a specified score that is not above
    the threshold: one of its words has count [0], or the joined word
    has and the product of line 328 is NaN, a zero or negative. *)
Lemma score_spec_unscored mc th mvs e (v : counter_type e) mr dl a b :
  (mc <=? 0)%float = false -> (th <=? 0)%float = false ->
  scored dl v a b = false ->
  fgtb (score_spec (mkPhrases mc th mvs e v mr dl) a b) th = false.
Proof.
  intros Hmc Hth. unfold scored, score_spec. simpl.
  destruct e; simpl; [|done].
  rewrite !float_of_int_leb.
  destruct (fgtb (float_of_int (Dict.count v a)) 0) eqn:Ea; simpl;
    [|intros _; by apply fgtb_zero].
  destruct (fgtb (float_of_int (Dict.count v b)) 0) eqn:Eb; simpl;
    [|intros _; by apply fgtb_zero].
  destruct (Dict.contains v a) eqn:Ca.
  2:{ rewrite (dict_count_absent _ _ Ca) in Ea. vm_compute in Ea. done. }
  destruct (Dict.contains v b) eqn:Cb.
  2:{ rewrite (dict_count_absent _ _ Cb) in Eb. vm_compute in Eb. done. }
  simpl. intros Cab. rewrite (dict_count_absent _ _ Cab), float_of_int_0.
  apply score_without_pair_not_above; [done | done | done | done |].
  unfold Dict.len. lia.
Qed.

(** At a pair whose left word is still free, the code joins the pair
    exactly when the specified score exceeds the threshold. *)
Lemma merges_score_spec mc th mvs e (v : counter_type e) mr dl a b :
  (mc <=? 0)%float = false -> (th <=? 0)%float = false ->
  (merges mc th dl v false a b).1 =
  fgtb (score_spec (mkPhrases mc th mvs e v mr dl) a b) th.
Proof.
  intros Hmc Hth.
  destruct (scored dl v a b) eqn:Hs.
  - by apply merges_scored.
  - rewrite (score_spec_unscored mc th mvs e v mr dl a b Hmc Hth Hs).
    by apply merges_unscored.
Qed.

End TransformProperties.

Section LoopProperties.
Context {RT : Runtime}.
Variables (mc th : float) (dl : string).
Context {e : bool}.

Lemma transform_step_vocab (st : counter_type e * list string * bool) bg :
  (transform_step mc th dl st bg).1.1 = st.1.1.
Proof.
  destruct st as [[v ns] lb], bg as [a b]. unfold transform_step.
  pose proof (merges_vocab mc th dl e v lb a b) as Hv.
  destruct (merges mc th dl v lb a b) as [m v']. simpl in Hv. subst v'.
  by destruct m.
Qed.

Lemma transform_fold_vocab l : forall st : counter_type e * list string * bool,
  (foldl (transform_step mc th dl) st l).1.1 = st.1.1.
Proof.
  induction l as [|bg l IH]; intros st; [done|].
  simpl. rewrite IH. apply transform_step_vocab.
Qed.

(** The loop only reads the counter. *)
Lemma transform_loop_vocab (v : counter_type e) s :
  (transform_loop mc th dl v s).1.1 = v.
Proof. unfold transform_loop. by rewrite transform_fold_vocab. Qed.

Lemma transform_step_no_merge (v : counter_type e) acc a b :
  (merges mc th dl v false a b).1 = false ->
  transform_step mc th dl (v, acc, false) (a, b) = (v, acc ++ [a], false).
Proof.
  intros Hm. unfold transform_step.
  pose proof (merges_vocab mc th dl e v false a b) as Hv.
  destruct (merges mc th dl v false a b) as [m v']. simpl in Hv, Hm.
  by subst m v'.
Qed.

(** When no pair of the sentence would be joined, the loop emits every
    word but the last and ends with [last_bigram = False]. *)
Lemma transform_fold_no_merge (v : counter_type e) s : forall acc,
  (forall a b, (a, b) ∈ bigrams s -> (merges mc th dl v false a b).1 = false) ->
  foldl (transform_step mc th dl) (v, acc, false) (bigrams s) =
  (v, acc ++ removelast s, false).
Proof.
  induction s as [|x s IH]; intros acc Hno; [by rewrite app_nil_r|].
  destruct s as [|y s]; [by rewrite app_nil_r|].
  rewrite bigrams_cons, foldl_cons.
  rewrite transform_step_no_merge
    by (apply Hno; rewrite bigrams_cons; left).
  rewrite IH.
  - change (removelast (x :: y :: s)) with (x :: removelast (y :: s)).
    by rewrite <- app_assoc.
  - intros a b Hab. apply Hno. rewrite bigrams_cons. by right.
Qed.

(** The last round of the loop decides [last_bigram]. *)
Lemma transform_loop_snoc (v : counter_type e) s a t :
  transform_loop mc th dl v (s ++ [a; t]) =
  transform_step mc th dl (transform_loop mc th dl v (s ++ [a])) (a, t).
Proof.
  unfold transform_loop. by rewrite bigrams_snoc, foldl_snoc.
Qed.

Lemma transform_last_snoc (v : counter_type e) new_s lb s t :
  transform_last v new_s lb (s ++ [t]) =
  if approx_or v (fun d => Dict.contains d t && negb lb)
  then new_s ++ [t] else new_s.
Proof. unfold transform_last. by rewrite last_snoc. Qed.

End LoopProperties.

Lemma removelast_last_Some {A} (s : list A) (t : A) :
  last s = Some t -> removelast s ++ [t] = s.
Proof.
  intros [s' ->]%last_Some. by rewrite removelast_last.
Qed.

Lemma snoc_or_nil {A} (s : list A) : s = [] \/ exists s0 a, s = s0 ++ [a].
Proof.
  destruct s as [|x s] using rev_ind; [by left|right]. by exists s, x.
Qed.

Section ApproximateMode.
Context {RT : Runtime}.

(** On a sketch [len] is [0]: a score is [0], or a product with [0.0],
    which is a zero or NaN. *)
Lemma approx_score mc th (v : counter_type false) a b w :
  let s := (score mc th v a b w).1 in
  ((s =? 0)%float = true \/ is_nan s = true) /\
  not_pos (Prim2SF s) = true.
Proof.
  unfold score. simpl.
  change (float_of_int (CMS.len v)) with 0%float.
  destruct (fgtb _ 0 && fgtb _ 0); simpl.
  - split; [|apply mul_zero_not_pos].
    destruct (mul_zero_class
                ((float_of_int (CMS.getitem v w) - mc)
                 / float_of_int (CMS.getitem v a)
                 / float_of_int (CMS.getitem v b) * th)) as [[E _]|E];
      [by left | by right].
  - split; [by left | done].
Qed.

(** So no score exceeds a threshold that passed the test of
    [__init__]. *)
Lemma approx_never_merges mc th dl (v : counter_type false) lb a b :
  (th <=? 0)%float = false -> (merges mc th dl v lb a b).1 = false.
Proof.
  intros Hth. unfold merges. simpl. destruct lb; [done|]. simpl.
  pose proof (approx_score mc th v a b (join dl a b)) as [_ Hs].
  destruct (score mc th v a b (join dl a b)) as [s v']. simpl in *.
  by apply fgtb_not_pos.
Qed.

Lemma approx_transform_loop mc th dl (v : counter_type false) s :
  (th <=? 0)%float = false ->
  transform_loop mc th dl v s = (v, removelast s, false).
Proof.
  intros Hth. unfold transform_loop.
  rewrite transform_fold_no_merge; [done|].
  intros a b _. by apply approx_never_merges.
Qed.

End ApproximateMode.

(** ** Claims on [Phrases.__getitem__] *)

Section TransformClaims.
Context {RT : Runtime}.

Lemma getitem_sentence_out (self : Phrases) sentence :
  (getitem_sentence self sentence).2 =
  (transform (min_count self) (threshold self) (delimiter self)
     (vocab self) sentence).2.
Proof.
  destruct self as [mc th mvs e v mr dl]. unfold getitem_sentence. simpl.
  by destruct (transform mc th dl v sentence).
Qed.

Lemma transform_out mc th dl e (v : counter_type e) sentence :
  (transform mc th dl v sentence).2 =
  let s := map any2utf8 sentence in
  let st := transform_loop mc th dl v s in
  map to_unicode (transform_last v st.1.2 st.2 s).
Proof.
  unfold transform. simpl.
  pose proof (transform_loop_vocab mc th dl v (map any2utf8 sentence)) as Hv.
  destruct (transform_loop mc th dl v (map any2utf8 sentence)) as [[v' ns] lb].
  simpl in *. by subst v'.
Qed.

(** A sentence no pair of which would be joined comes back whole, except
    that exact mode drops a last word that is not a key. *)
Lemma transform_no_merge mc th dl e (v : counter_type e) sentence :
  (forall a b, (a, b) ∈ bigrams (map any2utf8 sentence) ->
               (merges mc th dl v false a b).1 = false) ->
  (transform mc th dl v sentence).2 =
  map to_unicode
    (let s := map any2utf8 sentence in
     match last s with
     | Some t => if approx_or v (fun d => Dict.contains d t)
                 then s else removelast s
     | None => s
     end).
Proof.
  intros Hno. rewrite transform_out. simpl. unfold transform_loop.
  rewrite (transform_fold_no_merge mc th dl v _ [] Hno). simpl.
  unfold transform_last.
  destruct (last (map any2utf8 sentence)) as [t|] eqn:El.
  - assert (E : approx_or v (λ d, Dict.contains d t && negb false)
                = approx_or v (λ d, Dict.contains d t)).
    { destruct e; simpl; [apply andb_true_r | done]. }
    rewrite E. clear E.
    destruct (approx_or v (λ d, Dict.contains d t)); [|done].
    by rewrite removelast_last_Some.
  - apply last_None in El. by rewrite El.
Qed.

(** C1, as the code has it.  In approximate mode, with a threshold that
    passed the test of [__init__]: [len] of the counter is [0]; every
    score the code computes is [0] or, when the product of line 328 is
    infinite or NaN before its last factor [len(self.vocab) = 0], NaN;
    in either case it is not above the threshold; no pair is joined,
    whatever [last_bigram] is; and [self[sentence]] is the sentence,
    each token converted by [any2utf8] and back by [to_unicode]. *)
Theorem approx_transform_unchanged (self : Phrases) (sentence : list text) :
  exact_count self = false ->
  (threshold self <=? 0)%float = false ->
  len (vocab self) = 0 /\
  (forall a b w,
      let s := (score (min_count self) (threshold self) (vocab self) a b w).1 in
      ((s =? 0)%float = true \/ is_nan s = true) /\
      fgtb s (threshold self) = false) /\
  (forall lb a b,
      (merges (min_count self) (threshold self) (delimiter self)
         (vocab self) lb a b).1 = false) /\
  (getitem_sentence self sentence).2 = map to_unicode (map any2utf8 sentence).
Proof.
  rewrite getitem_sentence_out.
  destruct self as [mc th mvs e v mr dl]. simpl. intros -> Hth.
  split; [done|]. split; [|split].
  - intros a b w. destruct (approx_score mc th v a b w) as [Hs Hn].
    split; [exact Hs|]. by apply fgtb_not_pos.
  - intros lb a b. by apply approx_never_merges.
  - rewrite transform_no_merge.
    + simpl. destruct (last (map any2utf8 sentence)); done.
    + intros a b _. by apply approx_never_merges.
Qed.

(** C5, as the code has it.  For a model whose [min_count] and
    [threshold] passed the tests of [__init__], any state of its counter
    and any pair [(a, b)], writing [pa], [pb], [pab] for the counts of
    [a], [b] and the joined word and [N] for [len] of the counter, all
    as floats: the specified score is [0] when [pa <= 0] or [pb <= 0],
    in particular when the count of [a] or of [b] is [0] or less, and
    [(pab - min_count) / pa / pb * threshold * N], in doubles, from left
    to right, otherwise; it is the score the code computes whenever the
    code scores the pair; the pair is joined exactly when its left word
    was not consumed by the previous merge and this score is greater
    than [threshold]; and this is what a round of the loop does: it
    appends the joined word and sets [last_bigram], or else appends [a],
    unless [a] was consumed, and clears [last_bigram]. *)
Theorem merge_decision_by_score (self : Phrases) (a b : string) :
  (min_count self <=? 0)%float = false ->
  (threshold self <=? 0)%float = false ->
  let mc := min_count self in
  let th := threshold self in
  let dl := delimiter self in
  let pa := float_of_int (count (vocab self) a) in
  let pb := float_of_int (count (vocab self) b) in
  let pab := float_of_int (count (vocab self) (join dl a b)) in
  let N := float_of_int (len (vocab self)) in
  ((pa <=? 0)%float = true \/ (pb <=? 0)%float = true ->
   score_spec self a b = 0%float) /\
  ((pa <=? 0)%float = false -> (pb <=? 0)%float = false ->
   score_spec self a b = ((pab - mc) / pa / pb * th * N)%float) /\
  (count (vocab self) a <= 0 \/ count (vocab self) b <= 0 ->
   score_spec self a b = 0%float) /\
  (scored dl (vocab self) a b = true ->
   (score mc th (vocab self) a b (join dl a b)).1 = score_spec self a b) /\
  (forall lb,
      (merges mc th dl (vocab self) lb a b).1
      = negb lb && fgtb (score_spec self a b) th) /\
  (forall new_s lb,
      transform_step mc th dl (vocab self, new_s, lb) (a, b) =
      if negb lb && fgtb (score_spec self a b) th
      then (vocab self, new_s ++ [join dl a b], true)
      else (vocab self, if lb then new_s else new_s ++ [a], false)).
Proof.
  intros Hmc Hth mc th dl pa pb pab N.
  assert (Hzero : (pa <=? 0)%float = true \/ (pb <=? 0)%float = true ->
                  score_spec self a b = 0%float).
  { unfold score_spec. fold pa pb.
    intros [-> | ->]; [done | by rewrite orb_true_r]. }
  assert (Hm : forall lb,
             (merges mc th dl (vocab self) lb a b).1
             = negb lb && fgtb (score_spec self a b) th).
  { intros [|]; [apply merges_after_merge|].
    unfold mc, th, dl. destruct self as [mc' th' mvs e v mr dl']. simpl in *.
    by apply merges_score_spec. }
  split; [exact Hzero|]. split; [|split; [|split; [|split; [exact Hm|]]]].
  - intros Ha Hb. unfold score_spec. fold dl pa pb pab N mc th.
    by rewrite Ha, Hb.
  - intros [Hle|Hle]; apply Hzero; [left | right];
      by apply float_of_int_nonpos.
  - intros Hs. unfold mc, th, dl.
    destruct self as [mc' th' mvs e v mr dl']. simpl in *.
    by rewrite (score_scored mc' th' mvs e v mr dl' a b Hs).
  - intros new_s lb. unfold transform_step.
    pose proof (Hm lb) as Hlb.
    pose proof (merges_vocab mc th dl _ (vocab self) lb a b) as Hv.
    destruct (merges mc th dl (vocab self) lb a b) as [m v']. simpl in *.
    subst v' m. by destruct (negb lb && _).
Qed.

(** C7, as the code has it.  For a sentence none of whose adjacent pairs
    is given a score above the threshold (every score the code computes
    is [<= threshold]), [self[sentence]] is the sentence (converted by
    [any2utf8] and back) in approximate mode, and in exact mode when the
    last word is a key of the counter; in exact mode with a last word
    that is not a key, it is the sentence without its last word. *)
Theorem transform_without_qualifying_pair (self : Phrases)
  (sentence : list text) :
  (forall a b, (a, b) ∈ bigrams (map any2utf8 sentence) ->
               scored (delimiter self) (vocab self) a b = true ->
               (score_spec self a b <=? threshold self)%float = true) ->
  (getitem_sentence self sentence).2 =
  map to_unicode
    (let s := map any2utf8 sentence in
     match last s with
     | Some t => if approx_or (vocab self) (fun d => Dict.contains d t)
                 then s else removelast s
     | None => s
     end).
Proof.
  intros Hno. rewrite getitem_sentence_out.
  destruct self as [mc th mvs e v mr dl]. simpl in *.
  apply transform_no_merge. intros a b Hab.
  destruct (scored dl v a b) eqn:Hs.
  - rewrite (merges_scored mc th mvs e v mr dl a b Hs).
    apply leb_fgtb. by apply Hno.
  - by apply merges_unscored.
Qed.

End TransformClaims.

Section LastToken.
Context {RT : Runtime}.

Lemma map_snoc_neq {A B} (f : A -> B) (l : list A) (x : A) :
  map f l <> map f (l ++ [x]).
Proof.
  intros E. apply (f_equal length) in E.
  rewrite !length_map, length_app in E. simpl in E. lia.
Qed.

(** What the loop leaves in [last_bigram]: whether its round on the last
    adjacent pair joined that pair. *)
Lemma last_bigram_is_last_merge mc th dl e (v : counter_type e) s0 a t :
  let st0 := transform_loop mc th dl v (s0 ++ [a]) in
  let st := transform_loop mc th dl v (s0 ++ [a; t]) in
  let m := (merges mc th dl st0.1.1 st0.2 a t).1 in
  st.2 = m /\
  (m = true -> st.1.2 = st0.1.2 ++ [join dl a t]).
Proof.
  simpl. rewrite transform_loop_snoc.
  destruct (transform_loop mc th dl v (s0 ++ [a])) as [[v0 ns0] lb0].
  unfold transform_step. simpl.
  destruct (merges mc th dl v0 lb0 a t) as [m v']. simpl.
  destruct m; simpl; [done|]. split; [done|discriminate].
Qed.

(** C4. For a non-empty sentence, converted to [s ++ [t]], and a model
    whose threshold passed the test of [__init__], in either mode: [last_bigram] after the
    loop tells whether the last adjacent pair was joined; the output is
    [new_s] with or without [t] appended; [t] is appended only if the
    last pair was not joined and, in exact mode, [t] is a key of the
    counter; and when the last pair [(a, t)] was joined, the output is
    [new_s], which ends with the joined word, so [t] does not appear
    again on its own. *)
Theorem last_token_emitted_only_if_free (self : Phrases)
  (sentence : list text) (s : list string) (t : string) :
  (threshold self <=? 0)%float = false ->
  map any2utf8 sentence = s ++ [t] ->
  let mc := min_count self in
  let th := threshold self in
  let dl := delimiter self in
  let st := transform_loop mc th dl (vocab self) (s ++ [t]) in
  let new_s := st.1.2 in
  let last_bigram := st.2 in
  let out := (getitem_sentence self sentence).2 in
  (last_bigram = true <->
   exists s0 a, s = s0 ++ [a] /\
     let st0 := transform_loop mc th dl (vocab self) s in
     (merges mc th dl st0.1.1 st0.2 a t).1 = true) /\
  (out = map to_unicode (new_s ++ [t]) \/ out = map to_unicode new_s) /\
  (out = map to_unicode (new_s ++ [t]) ->
   last_bigram = false /\
   approx_or (vocab self) (fun d => Dict.contains d t) = true) /\
  (last_bigram = true ->
   out = map to_unicode new_s /\
   exists a ns, last s = Some a /\ new_s = ns ++ [join dl a t]).
Proof.
  intros Hth Hs mc th dl st new_s last_bigram out.
  (* the output, from the state the loop leaves *)
  assert (Hout : out = map to_unicode
            (if approx_or (vocab self)
                  (fun d => Dict.contains d t && negb last_bigram)
             then new_s ++ [t] else new_s)).
  { unfold out. rewrite getitem_sentence_out, transform_out. simpl.
    rewrite Hs. by rewrite transform_last_snoc. }
  (* the test of line 344 *)
  assert (Htest : approx_or (vocab self)
                    (fun d => Dict.contains d t && negb last_bigram) =
                  negb last_bigram
                  && approx_or (vocab self) (fun d => Dict.contains d t)).
  { unfold last_bigram, st, mc, th, dl. clear Hout.
    destruct self as [mc' th' mvs e v mr dl']. simpl in *.
    destruct e; simpl; [apply andb_comm|].
    by rewrite approx_transform_loop. }
  rewrite Htest in Hout. clear Htest.
  (* the last round *)
  assert (Hlast : last_bigram = true ->
            exists s0 a, s = s0 ++ [a] /\
              (let st0 := transform_loop mc th dl (vocab self) s in
               (merges mc th dl st0.1.1 st0.2 a t).1 = true) /\
              new_s = (transform_loop mc th dl (vocab self) s).1.2
                      ++ [join dl a t]).
  { intros Hlb. destruct (snoc_or_nil s) as [->|(s0 & a & ->)].
    - discriminate Hlb.
    - exists s0, a. split; [done|]. simpl.
      pose proof (last_bigram_is_last_merge mc th dl _ (vocab self) s0 a t)
        as [E1 E2].
      unfold last_bigram, new_s, st in *.
      rewrite <- app_assoc in Hlb |- *. simpl in Hlb |- *.
      rewrite E1 in Hlb. split; [done|]. by apply E2. }
  split; [|split; [|split]].
  - split.
    + intros Hlb. destruct (Hlast Hlb) as (s0 & a & ? & ? & _). by exists s0, a.
    + intros (s0 & a & -> & Hm). simpl in Hm.
      pose proof (last_bigram_is_last_merge mc th dl _ (vocab self) s0 a t)
        as [E1 _].
      unfold last_bigram, st. rewrite <- app_assoc. simpl.
      by rewrite E1.
  - rewrite Hout. destruct (negb last_bigram && _); [by left | by right].
  - rewrite Hout.
    destruct last_bigram; simpl.
    + intros E. by apply map_snoc_neq in E.
    + destruct (approx_or _ _); [done|].
      intros E. by apply map_snoc_neq in E.
  - intros Hlb. split; [by rewrite Hout, Hlb|].
    destruct (Hlast Hlb) as (s0 & a & -> & _ & Hns).
    exists a. eexists. split; [apply last_snoc | exact Hns].
Qed.

End LastToken.

(** ** Learning: [min_reduce] and the configuration *)

Section Learning.
Context {RT : Runtime}.

Lemma learn_vocab_snoc rnd pre (x : list text) mvs dl e :
  learn_vocab rnd (pre ++ [x]) mvs dl e =
  learn_sentence mvs dl (learn_vocab rnd pre mvs dl e) x.
Proof. unfold learn_vocab. by rewrite foldl_snoc. Qed.

Lemma learn_sentence_min_reduce e mvs dl (st : Z * counter_type e) x :
  (learn_sentence mvs dl st x).1 = st.1 \/
  (learn_sentence mvs dl st x).1 = st.1 + 1.
Proof.
  destruct st as [mr v]. unfold learn_sentence.
  destruct (mvs <? _); [by right | by left].
Qed.

Lemma learn_fold_min_reduce e mvs dl sentences :
  forall st : Z * counter_type e,
  st.1 <= (foldl (learn_sentence mvs dl) st sentences).1
       <= st.1 + Z.of_nat (length sentences).
Proof.
  induction sentences as [|x l IH]; intros st; [simpl; lia|].
  rewrite foldl_cons. specialize (IH (learn_sentence mvs dl st x)).
  destruct (learn_sentence_min_reduce e mvs dl st x) as [E|E];
    rewrite E in IH; simpl length; lia.
Qed.

Lemma learn_vocab_min_reduce rnd sentences mvs dl e :
  1 <= (learn_vocab rnd sentences mvs dl e).1
    <= 1 + Z.of_nat (length sentences).
Proof. unfold learn_vocab. apply (learn_fold_min_reduce e mvs dl sentences (1, _)). Qed.

(** [learn_vocab] on a sketch leaves [min_reduce] at [1] unless
    [max_vocab_size] is negative. *)
Lemma learn_vocab_approx_min_reduce rnd sentences mvs dl :
  0 <= mvs -> (learn_vocab rnd sentences mvs dl false).1 = 1.
Proof.
  intros Hmvs. induction sentences as [|x l IH] using rev_ind; [done|].
  rewrite learn_vocab_snoc.
  destruct (learn_vocab rnd l mvs dl false) as [mr v]. simpl in IH. subst mr.
  unfold learn_sentence. simpl len. unfold CMS.len.
  destruct (Z.ltb_spec mvs 0); [lia | done].
Qed.

Lemma add_vocab_config rnd self sentences :
  config (add_vocab rnd self sentences) = config self.
Proof.
  destruct self as [mc th mvs e v mr dl]. unfold add_vocab, config.
  destruct (learn_vocab rnd sentences mvs dl e) as [mr' v'].
  destruct e; simpl; [|done]. by destruct (mvs <? _).
Qed.

Lemma getitem_sentence_config self sentence :
  config (getitem_sentence self sentence).1 = config self /\
  min_reduce (getitem_sentence self sentence).1 = min_reduce self.
Proof.
  destruct self as [mc th mvs e v mr dl]. unfold getitem_sentence.
  by destruct (transform mc th dl v sentence).
Qed.

(** The reads of [self[sentence]] leave the counter as it was. *)
Lemma getitem_sentence_self self sentence :
  (getitem_sentence self sentence).1 = self.
Proof.
  destruct self as [mc th mvs e v mr dl]. unfold getitem_sentence.
  unfold transform. simpl.
  pose proof (transform_loop_vocab mc th dl v (map any2utf8 sentence)) as Hv.
  destruct (transform_loop mc th dl v (map any2utf8 sentence)) as [[v' ns] lb].
  simpl in *. by subst v'.
Qed.

Lemma add_vocab_min_reduce_exact rnd self sentences :
  exact_count self = true ->
  let pass := (learn_vocab rnd sentences (max_vocab_size self)
                 (delimiter self) (exact_count self)).1 in
  min_reduce (add_vocab rnd self sentences) = Z.max (min_reduce self) pass \/
  min_reduce (add_vocab rnd self sentences) = Z.max (min_reduce self) pass + 1.
Proof.
  destruct self as [mc th mvs e v mr dl]. simpl. intros ->.
  unfold add_vocab.
  destruct (learn_vocab rnd sentences mvs dl true) as [mr' v']. simpl.
  destruct (mvs <? _); simpl; [by right | by left].
Qed.

Lemma add_vocab_min_reduce_approx rnd self sentences :
  exact_count self = false ->
  min_reduce (add_vocab rnd self sentences) = min_reduce self.
Proof.
  destruct self as [mc th mvs e v mr dl]. simpl. intros ->.
  unfold add_vocab. by destruct (learn_vocab rnd sentences mvs dl false).
Qed.

Lemma add_vocab_min_reduce_le rnd self sentences :
  min_reduce self <= min_reduce (add_vocab rnd self sentences).
Proof.
  destruct (exact_count self) eqn:E.
  - destruct (add_vocab_min_reduce_exact rnd self sentences E) as [-> | ->];
      lia.
  - rewrite add_vocab_min_reduce_approx by done. lia.
Qed.

Lemma init_inr rnd rnd' sentences mc th mvs dl e self :
  init rnd rnd' sentences mc th mvs dl e = inr self ->
  (mc <=? 0)%float = false /\ (th <=? 0)%float = false /\
  self = match sentences with
         | Some ss => add_vocab rnd'
                        (mkPhrases mc th mvs e (_get_counter_instance rnd e) 1 dl) ss
         | None => mkPhrases mc th mvs e (_get_counter_instance rnd e) 1 dl
         end.
Proof.
  unfold init. destruct (mc <=? 0)%float; [done|].
  destruct (th <=? 0)%float; [done|].
  destruct sentences; intros [= <-]; done.
Qed.

Lemma config_fields self self' :
  config self = config self' ->
  min_count self = min_count self' /\ threshold self = threshold self' /\
  exact_count self = exact_count self'.
Proof. unfold config. intros E. repeat split; congruence. Qed.

(** What holds of every model a program can hold. *)
Lemma reachable_valid self :
  reachable self ->
  (min_count self <=? 0)%float = false /\
  (threshold self <=? 0)%float = false /\
  1 <= min_reduce self /\
  (exact_count self = false -> min_reduce self = 1).
Proof.
  induction 1 as [rnd rnd' sentences mc th mvs dl e self Hinit
                 | rnd self sentences _ IH | self sentence _ IH].
  - apply init_inr in Hinit as (Hmc & Hth & ->).
    destruct sentences as [ss|]; [|simpl; repeat split; done || lia].
    set (self0 := mkPhrases mc th mvs e (_get_counter_instance rnd e) 1 dl).
    destruct (config_fields _ _ (add_vocab_config rnd' self0 ss))
      as (Emc & Eth & He).
    rewrite Emc, Eth, He. repeat split; [done | done | |].
    + pose proof (add_vocab_min_reduce_le rnd' self0 ss) as Hle.
      change (min_reduce self0) with 1 in Hle. lia.
    + intros E. by rewrite add_vocab_min_reduce_approx.
  - destruct (config_fields _ _ (add_vocab_config rnd self sentences))
      as (Emc & Eth & He).
    rewrite Emc, Eth, He.
    destruct IH as (? & ? & ? & Ha). repeat split; [done | done | |].
    + pose proof (add_vocab_min_reduce_le rnd self sentences). lia.
    + intros E. rewrite add_vocab_min_reduce_approx by done. auto.
  - by rewrite getitem_sentence_self.
Qed.

(** What [add_vocab] does in exact mode, lines 274-282: the maximum of
    the two values of [min_reduce] is kept, the counts are merged, and
    when the merged dictionary has more than [max_vocab_size] keys it is
    pruned at that maximum and [min_reduce] becomes the maximum plus
    [1]. *)
Lemma add_vocab_exact rnd mc th mvs (v : gmap string Z) mr dl sentences :
  let st := learn_vocab rnd sentences mvs dl true in
  let merged := merge_counts v st.2 in
  let top := Z.max mr st.1 in
  add_vocab rnd (mkPhrases mc th mvs true v mr dl) sentences =
  if mvs <? Dict.len merged
  then mkPhrases mc th mvs true (prune_vocab merged top) (top + 1) dl
  else mkPhrases mc th mvs true merged top dl.
Proof.
  simpl. unfold add_vocab.
  by destruct (learn_vocab rnd sentences mvs dl true) as [mr' v'].
Qed.

(** C9. [min_reduce] never decreases.  A model built without sentences
    has [min_reduce = 1].  In a pass of [learn_vocab], each sentence
    either leaves [min_reduce] as it is or, when the counter has more
    than [max_vocab_size] keys after the sentence and is pruned (exact
    mode), adds [1] to it; a pass starts from [1] and ends at [1] or
    above.  For a model a program can hold, [add_vocab] keeps in exact
    mode the maximum of the old value and the value of the pass, or that
    maximum plus [1], which is at least the old value; it is the maximum
    plus [1] exactly when the merged counter has more than
    [max_vocab_size] keys, and the counter is then pruned at the
    maximum; reading a sentence leaves [min_reduce] as it is; and in
    approximate mode [add_vocab] does not touch it and it is [1] (the
    pass itself also returns [1] there, unless [max_vocab_size] is
    negative). *)
Theorem min_reduce_non_decreasing (rnd : nat -> Z) (self : Phrases)
  (sentences : list (list text)) :
  reachable self ->
  let mvs := max_vocab_size self in
  let dl := delimiter self in
  let pass := (learn_vocab rnd sentences mvs dl (exact_count self)).1 in
  (forall r r' mc th m d e self0,
      init r r' None mc th m d e = inr self0 -> min_reduce self0 = 1) /\
  (forall pre x,
      let st := learn_vocab rnd pre mvs dl true in
      let v := count_sentence dl st.2 (map any2utf8 x) in
      learn_vocab rnd (pre ++ [x]) mvs dl true =
      if mvs <? Dict.len v then (st.1 + 1, prune_vocab v st.1)
      else (st.1, v)) /\
  1 <= pass /\
  1 <= min_reduce self /\
  min_reduce self <= min_reduce (add_vocab rnd self sentences) /\
  (exact_count self = true ->
   min_reduce (add_vocab rnd self sentences) = Z.max (min_reduce self) pass \/
   min_reduce (add_vocab rnd self sentences)
   = Z.max (min_reduce self) pass + 1) /\
  (forall mc th m (v : gmap string Z) mr d ss,
      let self0 := mkPhrases mc th m true v mr d in
      let st := learn_vocab rnd ss m d true in
      let merged := merge_counts v st.2 in
      let top := Z.max mr st.1 in
      (m < Dict.len merged ->
       min_reduce (add_vocab rnd self0 ss) = top + 1 /\
       add_vocab rnd self0 ss
       = mkPhrases mc th m true (prune_vocab merged top) (top + 1) d) /\
      (Dict.len merged <= m ->
       min_reduce (add_vocab rnd self0 ss) = top /\
       add_vocab rnd self0 ss = mkPhrases mc th m true merged top d)) /\
  (forall sentence,
      min_reduce (getitem_sentence self sentence).1 = min_reduce self) /\
  (exact_count self = false ->
   min_reduce self = 1 /\ min_reduce (add_vocab rnd self sentences) = 1 /\
   (0 <= mvs -> pass = 1)).
Proof.
  intros Hr mvs dl pass.
  destruct (reachable_valid self Hr) as (_ & _ & H1 & Ha).
  split; [|split; [|split; [|split; [|split; [|split; [|split; [|split]]]]]]].
  - intros r r' mc th m d e self0 Hi. by apply init_inr in Hi as (_ & _ & ->).
  - intros pre x. rewrite learn_vocab_snoc.
    by destruct (learn_vocab rnd pre mvs dl true) as [mr v].
  - apply learn_vocab_min_reduce.
  - done.
  - apply add_vocab_min_reduce_le.
  - apply add_vocab_min_reduce_exact.
  - intros mc th m v mr d ss self0 st merged top.
    unfold self0. rewrite add_vocab_exact. fold st merged top.
    split; intros Hlen.
    + destruct (Z.ltb_spec m (Dict.len merged)); [done | lia].
    + destruct (Z.ltb_spec m (Dict.len merged)); [lia | done].
  - intros sentence. apply getitem_sentence_config.
  - intros E. split; [auto|]. split.
    + rewrite add_vocab_min_reduce_approx; auto.
    + intros Hmvs. unfold pass. rewrite E.
      by apply learn_vocab_approx_min_reduce.
Qed.

Lemma is_infinity_spec x :
  is_infinity x = true -> exists s, Prim2SF x = S754_infinity s.
Proof.
  unfold is_infinity. rewrite FloatAxioms.eqb_spec, abs_spec.
  change (Prim2SF infinity) with (S754_infinity false).
  destruct (Prim2SF x) as [[]|s| |[] m e]; try done. by exists s.
Qed.

(** [int(np.ceil(x))] raises exactly on the infinities and NaN. *)
Lemma int_ceil_raises x :
  (is_infinity x = true ->
   int_ceil x = inl (OverflowError "cannot convert float infinity to integer")) /\
  (is_nan x = true ->
   int_ceil x = inl (ValueError "cannot convert float NaN to integer")) /\
  (is_finite x = true -> exists n, int_ceil x = inr n).
Proof.
  unfold int_ceil. split; [|split].
  - intros [s ->]%is_infinity_spec. done.
  - intros ->%is_nan_spec. done.
  - unfold is_finite. intros Hf%negb_true_iff.
    apply orb_false_iff in Hf as [Hn Hi].
    destruct (Prim2SF x) as [s|s| |s m e] eqn:E;
      [by eexists | | | by eexists]; exfalso.
    + unfold is_infinity in Hi. rewrite FloatAxioms.eqb_spec, abs_spec, E in Hi.
      change (Prim2SF infinity) with (S754_infinity false) in Hi.
      by destruct s.
    + apply is_nan_spec in E. congruence.
Qed.

(** What [CMSketchCounter(delta, epsilon, conservative)] does once the
    two checks are passed. *)
Lemma cms_init_checked rnd delta epsilon cons :
  (delta <=? 0)%float = false -> (1 <=? delta)%float = false ->
  (epsilon <=? 0)%float = false -> (1 <=? epsilon)%float = false ->
  CMS.init rnd delta epsilon cons =
  match int_ceil (2 / epsilon) with
  | inl x => inl x
  | inr w =>
      match int_ceil (np_log (1 / delta)) with
      | inl x => inl x
      | inr d =>
          match allocate d w with
          | Some x => inl x
          | None => inr (CMS.build rnd w d)
          end
      end
  end.
Proof. intros H1 H2 H3 H4. unfold CMS.init. by rewrite H1, H2, H3, H4. Qed.

(** C10, as the code has it.  [Phrases(...)] raises if and only if
    [min_count <= 0] or [threshold <= 0], and then a [ValueError] of
    one of its two messages; otherwise the object is returned, with the
    parameters in its attributes.  [CMSketchCounter(...)] raises its
    [ValueError] on [delta] when [delta <= 0] or [delta >= 1], and the
    one on [epsilon] when [delta] passes and [epsilon <= 0] or
    [epsilon >= 1].  With both parameters past the checks, construction
    still raises when [2 / epsilon] or [np.log(1 / delta)] is an
    infinity or NaN, which [int] refuses, or when the hash functions or
    the table cannot be made; it succeeds exactly when none of this
    happens, and then returns the sketch of width
    [int(np.ceil(2 / epsilon))] and depth
    [int(np.ceil(np.log(1 / delta)))].  [add_vocab] and
    [self[sentence]] leave the parameters of a model as they are. *)
Theorem construction_raises_on_invalid_parameters :
  (forall rnd rnd' sentences mc th mvs dl e,
      (exists x, init rnd rnd' sentences mc th mvs dl e = inl x)
      <-> ((mc <=? 0)%float = true \/ (th <=? 0)%float = true)) /\
  (forall rnd rnd' sentences mc th mvs dl e x,
      init rnd rnd' sentences mc th mvs dl e = inl x ->
      x = ValueError "min_count should be at least 1" \/
      x = ValueError "threshold should be positive") /\
  (forall rnd rnd' sentences mc th mvs dl e,
      (mc <=? 0)%float = false -> (th <=? 0)%float = false ->
      exists self, init rnd rnd' sentences mc th mvs dl e = inr self /\
                   config self = (mc, th, mvs, dl, e)) /\
  (forall rnd delta epsilon cons,
      (delta <=? 0)%float = true \/ (1 <=? delta)%float = true ->
      CMS.init rnd delta epsilon cons
      = inl (ValueError "delta must be between 0 and 1, exclusive")) /\
  (forall rnd delta epsilon cons,
      (delta <=? 0)%float = false -> (1 <=? delta)%float = false ->
      (epsilon <=? 0)%float = true \/ (1 <=? epsilon)%float = true ->
      CMS.init rnd delta epsilon cons
      = inl (ValueError "epsilon must be between 0 and 1, exclusive")) /\
  (forall rnd delta epsilon cons,
      (delta <=? 0)%float = false -> (1 <=? delta)%float = false ->
      (epsilon <=? 0)%float = false -> (1 <=? epsilon)%float = false ->
      (forall sk,
          CMS.init rnd delta epsilon cons = inr sk <->
          exists w d, int_ceil (2 / epsilon) = inr w /\
                      int_ceil (np_log (1 / delta)) = inr d /\
                      allocate d w = None /\ sk = CMS.build rnd w d) /\
      (forall x,
          CMS.init rnd delta epsilon cons = inl x <->
          int_ceil (2 / epsilon) = inl x \/
          exists w, int_ceil (2 / epsilon) = inr w /\
            (int_ceil (np_log (1 / delta)) = inl x \/
             exists d, int_ceil (np_log (1 / delta)) = inr d /\
                       allocate d w = Some x))) /\
  (forall x,
      (is_infinity x = true ->
       int_ceil x
       = inl (OverflowError "cannot convert float infinity to integer")) /\
      (is_nan x = true ->
       int_ceil x = inl (ValueError "cannot convert float NaN to integer")) /\
      (is_finite x = true -> exists n, int_ceil x = inr n)) /\
  (forall rnd self sentences,
      config (add_vocab rnd self sentences) = config self) /\
  (forall self sentence,
      config (getitem_sentence self sentence).1 = config self).
Proof.
  split; [|split; [|split; [|split; [|split; [|split; [|split; [|split]]]]]]].
  - intros rnd rnd' sentences mc th mvs dl e. unfold init. split.
    + intros [x E]. destruct (mc <=? 0)%float; [by left|].
      destruct (th <=? 0)%float; [by right|]. by destruct sentences.
    + intros [-> | Hth]; [by eexists|].
      rewrite Hth. destruct (mc <=? 0)%float; by eexists.
  - intros rnd rnd' sentences mc th mvs dl e x. unfold init.
    destruct (mc <=? 0)%float; [intros [= <-]; by left|].
    destruct (th <=? 0)%float; [intros [= <-]; by right|].
    by destruct sentences.
  - intros rnd rnd' sentences mc th mvs dl e Hmc Hth. unfold init.
    rewrite Hmc, Hth.
    destruct sentences as [ss|]; eexists; (split; [done|]); [|done].
    by rewrite add_vocab_config.
  - intros rnd delta epsilon cons H. unfold CMS.init.
    destruct H as [-> | ->]; [done | by rewrite orb_true_r].
  - intros rnd delta epsilon cons H1 H2 H. unfold CMS.init.
    rewrite H1, H2. simpl.
    destruct H as [-> | ->]; [done | by rewrite orb_true_r].
  - intros rnd delta epsilon cons H1 H2 H3 H4.
    rewrite (cms_init_checked rnd delta epsilon cons H1 H2 H3 H4).
    destruct (int_ceil (2 / epsilon)) as [x1|w];
      [|destruct (int_ceil (np_log (1 / delta))) as [x2|d];
        [|destruct (allocate d w) as [x3|] eqn:Ea]].
    + split.
      * intros sk. split; [done|]. by intros (w & d & ? & _).
      * intros x. split; [intros [= <-]; by left|].
        intros [[= <-] | (w & ? & _)]; done.
    + split.
      * intros sk. split; [done|]. by intros (w' & d & _ & ? & _).
      * intros x. split.
        -- intros [= <-]. right. exists w. split; [done | by left].
        -- intros [? | (w' & [= <-] & [[= <-] | (d & ? & _)])]; done.
    + split.
      * intros sk. split; [done|].
        intros (w' & d' & [= <-] & [= <-] & ? & _). congruence.
      * intros x. split.
        -- intros [= <-]. right. exists w. split; [done|]. right. by exists d.
        -- intros [? | (w' & [= <-] & [? | (d' & [= <-] & ?)])];
             [done | done | congruence].
    + split.
      * intros sk. split.
        -- intros [= <-]. by exists w, d.
        -- by intros (w' & d' & [= <-] & [= <-] & _ & ->).
      * intros x. split; [done|].
        intros [? | (w' & [= <-] & [? | (d' & [= <-] & ?)])];
          [done | done | congruence].
  - apply int_ceil_raises.
  - apply add_vocab_config.
  - intros self sentence. apply getitem_sentence_config.
Qed.

End Learning.

(** ** Learning in exact mode: the counts *)

Lemma occ_cons {A} `{EqDecision A} (x y : A) (l : list A) :
  occ x (y :: l) = (if decide (y = x) then 1 else 0) + occ x l.
Proof. unfold occ. simpl. case_decide; lia. Qed.

Lemma occ_app {A} `{EqDecision A} (x : A) (l k : list A) :
  occ x (l ++ k) = occ x l + occ x k.
Proof.
  induction l as [|y l IH]; [done|].
  change ((y :: l) ++ k) with (y :: (l ++ k)). rewrite !occ_cons, IH. lia.
Qed.

Lemma occ_not_elem_of {A} `{EqDecision A} (x : A) (l : list A) :
  x ∉ l -> occ x l = 0.
Proof.
  induction l as [|y l IH]; [done|].
  intros Hx. rewrite occ_cons, IH.
  - case_decide as E; [|done]. subst y. exfalso. apply Hx. left.
  - intros Hl. apply Hx. by right.
Qed.

(** Counting through an injective-enough renaming. *)
Lemma occ_map_inj {A B} `{EqDecision A} `{EqDecision B} (f : A -> B)
  (x : A) (l : list A) :
  (forall y, y ∈ l -> f y = f x -> y = x) ->
  occ (f x) (map f l) = occ x l.
Proof.
  induction l as [|y l IH]; [done|]. intros Hinj.
  change (map f (y :: l)) with (f y :: map f l). rewrite !occ_cons, IH.
  - destruct (decide (y = x)) as [->|Hne].
    + by rewrite decide_True.
    + rewrite decide_False; [done|].
      intros E. apply Hne. apply Hinj; [left | done].
  - intros z Hz. apply Hinj. by right.
Qed.

Lemma map_fst_bigrams {A} (s : list A) : map fst (bigrams s) = removelast s.
Proof.
  induction s as [|x s IH]; [done|].
  destruct s as [|y s]; [done|].
  rewrite bigrams_cons.
  change (removelast (x :: y :: s)) with (x :: removelast (y :: s)).
  simpl map. by rewrite IH.
Qed.

Lemma dict_update_counts_dom (v : gmap string Z) key inc :
  dom (Dict.update_counts v key inc) = {[key]} ∪ dom v.
Proof.
  unfold Dict.update_counts, Dict.getitem.
  destruct (v !! key); simpl; rewrite ?insert_insert_eq; apply dom_insert_L.
Qed.

Lemma append_String (x : ascii) (a b : string) :
  String x a +:+ b = String x (a +:+ b).
Proof. reflexivity. Qed.

Lemma append_EmptyString (b : string) : EmptyString +:+ b = b.
Proof. reflexivity. Qed.

(** Joining with a one-byte delimiter that occurs in neither word can be
    undone, and the joined word contains the delimiter. *)
Lemma join_char_inj (c : ascii) (a b a' b' : string) :
  occurs c a = false -> occurs c a' = false ->
  join (String c EmptyString) a b = join (String c EmptyString) a' b' ->
  a = a' /\ b = b'.
Proof.
  unfold join. rewrite !append_String, !append_EmptyString. revert a'.
  induction a as [|x a IH]; intros [|y a'];
    rewrite ?append_String, ?append_EmptyString; simpl.
  - intros _ _ [= ->]. done.
  - destruct (Ascii.eqb_spec y c) as [->|Hne]; [done|].
    intros _ _ [= E _]. congruence.
  - destruct (Ascii.eqb_spec x c) as [->|Hne]; [done|].
    intros _ _ [= E _]. congruence.
  - destruct (Ascii.eqb x c); [done|]. destruct (Ascii.eqb y c); [done|].
    intros Ha Ha' [= -> E]. destruct (IH a' Ha Ha' E) as [-> ->]. done.
Qed.

Lemma join_char_occurs (c : ascii) (a b : string) :
  occurs c (join (String c EmptyString) a b) = true.
Proof.
  unfold join. rewrite !append_String, !append_EmptyString.
  induction a as [|x a IH]; rewrite ?append_String, ?append_EmptyString; simpl.
  - by rewrite Ascii.eqb_refl.
  - by destruct (Ascii.eqb x c).
Qed.

Lemma elem_of_concat {A} (x : A) (ls : list (list A)) :
  x ∈ concat ls <-> exists l, x ∈ l /\ l ∈ ls.
Proof.
  rewrite list_elem_of_In, in_concat. split.
  - intros (l & Hl & Hx). exists l. by rewrite !list_elem_of_In.
  - intros (l & Hx & Hl). exists l. by rewrite <- !list_elem_of_In.
Qed.

Lemma stream_bigrams_tokens (ss : list (list string)) a b :
  (a, b) ∈ stream_bigrams ss -> a ∈ stream_tokens ss /\ b ∈ stream_tokens ss.
Proof.
  unfold stream_bigrams, stream_tokens.
  intros (bs & Hab & Hbs)%elem_of_concat.
  apply list_elem_of_fmap in Hbs as (s & -> & Hs).
  destruct (elem_of_bigrams_l a b s Hab).
  split; apply elem_of_concat; by exists s.
Qed.

Section ExactCounts.
Context {RT : Runtime}.
Variable dl : string.

Lemma count_bigram_fold bs : forall (v : gmap string Z),
  (forall k, Dict.count (foldl (count_bigram (e := true) dl) v bs) k =
             Dict.count v k + occ k (map fst bs) + occ k (map (joined dl) bs)) /\
  @dom (gmap string Z) (gset string) _
    (foldl (count_bigram (e := true) dl) v bs) =
  dom v ∪ list_to_set (map fst bs ++ map (joined dl) bs).
Proof.
  induction bs as [|[a b] bs IH]; intros v.
  - split; [intros k; simpl; lia|]. simpl.
    by rewrite union_empty_r_L.
  - rewrite foldl_cons. destruct (IH ((count_bigram (e := true) dl) v (a, b))) as [IHc IHd].
    split.
    + intros k. rewrite IHc. unfold count_bigram. simpl update_counts.
      rewrite !dict_update_counts_lookup. simpl map. rewrite !occ_cons.
      simpl fst.
      destruct (decide (joined dl (a, b) = k)), (decide (a = k)); lia.
    + rewrite IHd. unfold count_bigram. simpl update_counts.
      rewrite !dict_update_counts_dom.
      simpl map. rewrite !list_to_set_app_L. simpl list_to_set.
      simpl fst. set_solver.
Qed.

(** One sentence adds to each key the number of times it occurs as a
    token and the number of adjacent pairs whose joined word it is. *)
Lemma count_sentence_exact (v : gmap string Z) (s : list string) :
  (forall k, Dict.count (count_sentence (e := true) dl v s) k =
             Dict.count v k + occ k s + occ k (map (joined dl) (bigrams s))) /\
  @dom (gmap string Z) (gset string) _ (count_sentence (e := true) dl v s) =
  dom v ∪ list_to_set (s ++ map (joined dl) (bigrams s)).
Proof.
  destruct (snoc_or_nil s) as [->|(s' & t & ->)].
  - change (count_sentence (e := true) dl v []) with v.
    split; [intros k; simpl; lia|]. simpl. by rewrite union_empty_r_L.
  - unfold count_sentence. rewrite last_snoc.
    destruct (count_bigram_fold (bigrams (s' ++ [t])) v) as [Hc Hd].
    rewrite map_fst_bigrams, removelast_last in Hc, Hd.
    simpl update_counts. change (counter_type true) with (gmap string Z) in *.
    split.
    + intros k. rewrite dict_update_counts_lookup, Hc.
      rewrite occ_app, occ_cons. change (occ k []) with 0.
      case_decide; lia.
    + rewrite dict_update_counts_dom, Hd.
      rewrite !list_to_set_app_L. simpl list_to_set. set_solver.
Qed.

Lemma stream_keys_snoc ss s :
  stream_keys dl (ss ++ [s]) =
  stream_keys dl ss ∪ list_to_set (s ++ map (joined dl) (bigrams s)).
Proof.
  unfold stream_keys, stream_tokens, stream_bigrams.
  rewrite map_app, !concat_app. simpl. rewrite !app_nil_r, map_app.
  rewrite !list_to_set_app_L. set_solver.
Qed.

(** A pass that never finds more than [max_vocab_size] keys never
    prunes: the dictionary it returns has the keys of the stream, each
    with its number of occurrences as a token plus the number of adjacent
    pairs it joins. *)
Lemma learn_vocab_exact rnd (sentences : list (list text)) mvs :
  let ss := map (map any2utf8) sentences in
  Z.of_nat (size (stream_keys dl ss)) <= mvs ->
  let st := learn_vocab rnd sentences mvs dl true in
  st.1 = 1 /\
  dom st.2 = stream_keys dl ss /\
  forall k, Dict.count st.2 k =
            occ k (stream_tokens ss) + occ k (map (joined dl) (stream_bigrams ss)).
Proof.
  induction sentences as [|x l IH] using rev_ind; intros ss Hsize st.
  - repeat split.
  - unfold st, ss in *. clear st ss.
    rewrite map_app in Hsize |- *. simpl map in Hsize |- *.
    rewrite stream_keys_snoc in Hsize.
    destruct IH as (Hmr & Hdom & Hcount).
    { etrans; [|exact Hsize]. apply inj_le, subseteq_size. set_solver. }
    rewrite learn_vocab_snoc.
    destruct (learn_vocab rnd l mvs dl true) as [mr v]. simpl in Hmr, Hdom, Hcount.
    subst mr. unfold learn_sentence.
    destruct (count_sentence_exact v (map any2utf8 x)) as [Hc Hd].
    assert (Hlen : len (count_sentence (e := true) dl v (map any2utf8 x)) <= mvs).
    { simpl len. unfold Dict.len.
      rewrite <- (size_dom (D := gset string)), Hd, Hdom. exact Hsize. }
    destruct (Z.ltb_spec mvs
                (len (count_sentence (e := true) dl v (map any2utf8 x))));
      [lia|].
    simpl. split; [done|]. split.
    + by rewrite Hd, Hdom, stream_keys_snoc.
    + intros k. rewrite Hc, Hcount.
      unfold stream_tokens, stream_bigrams.
      rewrite map_app, !concat_app. simpl. rewrite !app_nil_r, map_app.
      rewrite !occ_app. lia.
Qed.

(** C8. In exact mode, when the stream has at most [max_vocab_size]
    distinct keys (so that pruning is never triggered), [learn_vocab]
    returns [min_reduce = 1] and a counter in which: every key has as
    count its number of occurrences as a token plus the number of
    adjacent pairs it joins; hence a word that is not the joined word of
    an adjacent pair of the stream has as count its number of occurrences
    (the final token of a sentence included), and the joined word of a
    pair, when it is no token of the stream and no other adjacent pair of
    the stream joins to it, has as count the number of adjacent
    occurrences of the pair.  Both conditions hold of every token and of
    every adjacent pair of the stream when the delimiter is one byte that
    occurs in no token. *)
Theorem learn_vocab_exact_counts rnd (sentences : list (list text)) mvs :
  let ss := map (map any2utf8) sentences in
  Z.of_nat (size (stream_keys dl ss)) <= mvs ->
  let st := learn_vocab rnd sentences mvs dl true in
  st.1 = 1 /\
  (forall k, Dict.count st.2 k =
             occ k (stream_tokens ss)
             + occ k (map (joined dl) (stream_bigrams ss))) /\
  (forall w,
      (forall a b, (a, b) ∈ stream_bigrams ss -> join dl a b <> w) ->
      Dict.count st.2 w = occ w (stream_tokens ss)) /\
  (forall a b,
      join dl a b ∉ stream_tokens ss ->
      (forall a' b', (a', b') ∈ stream_bigrams ss ->
                     join dl a' b' = join dl a b -> (a', b') = (a, b)) ->
      Dict.count st.2 (join dl a b) = occ (a, b) (stream_bigrams ss)) /\
  (forall c,
      dl = String c EmptyString ->
      (forall w, w ∈ stream_tokens ss -> occurs c w = false) ->
      (forall w, w ∈ stream_tokens ss ->
                 Dict.count st.2 w = occ w (stream_tokens ss)) /\
      (forall a b, (a, b) ∈ stream_bigrams ss ->
                   Dict.count st.2 (join dl a b)
                   = occ (a, b) (stream_bigrams ss))).
Proof.
  intros ss Hsize st.
  destruct (learn_vocab_exact rnd sentences mvs Hsize) as (Hmr & _ & Hcount).
  fold ss st in Hmr, Hcount.
  assert (Huni : forall w,
            (forall a b, (a, b) ∈ stream_bigrams ss -> join dl a b <> w) ->
            Dict.count st.2 w = occ w (stream_tokens ss)).
  { intros w Hw. rewrite Hcount, (occ_not_elem_of w (map _ _)); [lia|].
    intros [[a b] [-> Hab]]%list_elem_of_fmap. by apply (Hw a b). }
  assert (Hbi : forall a b,
            join dl a b ∉ stream_tokens ss ->
            (forall a' b', (a', b') ∈ stream_bigrams ss ->
                           join dl a' b' = join dl a b -> (a', b') = (a, b)) ->
            Dict.count st.2 (join dl a b) = occ (a, b) (stream_bigrams ss)).
  { intros a b Htok Hinj. rewrite Hcount, (occ_not_elem_of _ _ Htok).
    change (join dl a b) with (joined dl (a, b)).
    rewrite occ_map_inj; [lia|].
    intros [a' b'] Hin E. by apply Hinj. }
  split; [done|]. split; [exact Hcount|]. split; [exact Huni|].
  split; [exact Hbi|].
  intros c -> Hfree. split.
  - intros w Hw. apply Huni. intros a b _ E.
    pose proof (join_char_occurs c a b) as Ho. rewrite E in Ho.
    rewrite (Hfree w Hw) in Ho. discriminate.
  - intros a b Hab. destruct (stream_bigrams_tokens ss a b Hab) as [Ha Hb].
    apply Hbi.
    + intros Htok. pose proof (join_char_occurs c a b) as Ho.
      rewrite (Hfree _ Htok) in Ho. discriminate.
    + intros a' b' Hab' E.
      destruct (stream_bigrams_tokens ss a' b' Hab') as [Ha' Hb'].
      destruct (join_char_inj c a' b' a b (Hfree _ Ha') (Hfree _ Ha) E)
        as [-> ->].
      done.
Qed.

End ExactCounts.

(** ** The sketch *)

Section SketchProperties.
Context {RT : Runtime}.

Lemma cell_set_cell self r col value r' col' :
  CMS.cell (CMS.set_cell self r col value) r' col' =
  if decide ((r, col) = (r', col')) then CMS.int32 value
  else CMS.cell self r' col'.
Proof.
  unfold CMS.cell, CMS.set_cell. simpl.
  case_decide as E; [rewrite E; by rewrite lookup_insert_eq|].
  by rewrite lookup_insert_ne.
Qed.

Lemma column_set_cell self r col value hf key :
  CMS.column (CMS.set_cell self r col value) hf key = CMS.column self hf key.
Proof. reflexivity. Qed.

Lemma NoDup_fst_functional {A B} (l : list (A * B)) x y1 y2 :
  NoDup l.*1 -> (x, y1) ∈ l -> (x, y2) ∈ l -> y1 = y2.
Proof.
  induction l as [|[a b] l IH]; [by intros _ ?%elem_of_nil|].
  intros [Hn Hnd]%NoDup_cons [E1|H1]%elem_of_cons [E2|H2]%elem_of_cons.
  - congruence.
  - injection E1 as -> ->. exfalso. apply Hn.
    apply list_elem_of_fmap. by exists (a, y2).
  - injection E2 as -> ->. exfalso. apply Hn.
    apply list_elem_of_fmap. by exists (a, y1).
  - by apply IH.
Qed.

Lemma enumerate_rows_NoDup {A} (l : list A) : NoDup (enumerate l).*1.
Proof.
  unfold enumerate. rewrite fst_zip by (by rewrite length_seq).
  apply NoDup_seq.
Qed.

(** What the loop of [update_counts] does to the cells, for any value of
    [chat]: in each row the cell the key addresses becomes the maximum of
    its value and [c + chat] (stored as [int32]); no other cell changes. *)
Lemma update_rows_cells key c chat (l : list (nat * (Z * Z))) :
  forall self,
  CMS.conservative self = true ->
  NoDup l.*1 ->
  let self' := foldl (CMS.update_row key c chat) self l in
  (CMS.conservative self' = true /\ CMS.w self' = CMS.w self /\
   CMS.hash_functions self' = CMS.hash_functions self) /\
  (forall r hf, (r, hf) ∈ l ->
     CMS.cell self' r (CMS.column self hf key) =
     CMS.int32 (Z.max (CMS.cell self r (CMS.column self hf key)) (c + chat))) /\
  (forall r col, (forall hf, (r, hf) ∈ l -> CMS.column self hf key <> col) ->
     CMS.cell self' r col = CMS.cell self r col) /\
  (forall r col,
     CMS.cell self' r col = CMS.cell self r col \/
     CMS.cell self' r col =
     CMS.int32 (Z.max (CMS.cell self r col) (c + chat))).
Proof.
  induction l as [|[r0 hf0] l IH]; intros self Hcons Hnd.
  - simpl. split; [done|]. split; [by intros r hf ?%elem_of_nil |].
    split; [done | by left].
  - rewrite foldl_cons. apply NoDup_cons in Hnd as [Hr0 Hnd].
    set (self1 := CMS.update_row key c chat self (r0, hf0)).
    assert (E1 : self1 = CMS.set_cell self r0 (CMS.column self hf0 key)
                   (Z.max (CMS.cell self r0 (CMS.column self hf0 key))
                      (c + chat))).
    { unfold self1, CMS.update_row. by rewrite Hcons. }
    assert (Hcol : forall hf, CMS.column self1 hf key = CMS.column self hf key)
      by (intros hf; by rewrite E1).
    destruct (IH self1) as ((Hc' & Hw' & Hh') & Hin & Hout & Hany);
      [by rewrite E1 | done |].
    simpl. split; [by rewrite Hc', Hw', Hh', E1|]. split; [|split].
    + intros r hf [E|Hl]%elem_of_cons.
      * injection E as -> ->. rewrite Hout.
        -- rewrite E1, cell_set_cell. by rewrite decide_True.
        -- intros hf Hl _. apply Hr0. apply list_elem_of_fmap.
           by exists (r0, hf).
      * rewrite <- Hcol, (Hin r hf Hl), Hcol. rewrite E1, cell_set_cell.
        rewrite decide_False; [done|].
        intros [= -> _]. apply Hr0. apply list_elem_of_fmap. by exists (r, hf).
    + intros r col Hne. rewrite Hout.
      * rewrite E1, cell_set_cell. rewrite decide_False; [done|].
        intros [= -> E]. by apply (Hne hf0); [left|].
      * intros hf Hl. rewrite Hcol. apply Hne. by right.
    + intros r col.
      destruct (decide ((r0, CMS.column self hf0 key) = (r, col))) as [E|E].
      * right. injection E as <- <-. rewrite Hout.
        -- rewrite E1, cell_set_cell. by rewrite decide_True.
        -- intros hf Hl _. apply Hr0. apply list_elem_of_fmap.
           by exists (r0, hf).
      * assert (E2 : CMS.cell self1 r col = CMS.cell self r col)
          by (by rewrite E1, cell_set_cell, decide_False).
        destruct (Hany r col) as [-> | ->]; rewrite E2; [by left | by right].
Qed.

(** In a row, the cell of [key'] after the loop has run for [key]. *)
Lemma update_rows_cell_of self key c chat key' r hf :
  CMS.conservative self = true ->
  (r, hf) ∈ enumerate (CMS.hash_functions self) ->
  CMS.cell (foldl (CMS.update_row key c chat) self
              (enumerate (CMS.hash_functions self)))
           r (CMS.column self hf key') =
  if decide (CMS.column self hf key = CMS.column self hf key') then
    CMS.int32 (Z.max (CMS.cell self r (CMS.column self hf key')) (c + chat))
  else CMS.cell self r (CMS.column self hf key').
Proof.
  intros Hcons Hin.
  destruct (update_rows_cells key c chat _ self Hcons
              (enumerate_rows_NoDup (CMS.hash_functions self)))
    as (_ & Hcell & Hframe & _).
  case_decide as E.
  - rewrite <- E. by apply Hcell.
  - apply Hframe. intros hf' Hin'.
    by rewrite (NoDup_fst_functional _ r hf' hf (enumerate_rows_NoDup _) Hin' Hin).
Qed.

(** [update_counts] as the code has it: the rule above with
    [chat = self["key"]], the estimate of the word ["key"], whatever key
    is being updated. *)
Lemma update_counts_cells self key c :
  CMS.conservative self = true ->
  let chat := CMS.getitem self "key" in
  let self' := CMS.update_counts self key c in
  (CMS.conservative self' = true /\ CMS.w self' = CMS.w self /\
   CMS.hash_functions self' = CMS.hash_functions self) /\
  (forall r hf, (r, hf) ∈ enumerate (CMS.hash_functions self) ->
     CMS.cell self' r (CMS.column self hf key) =
     CMS.int32 (Z.max (CMS.cell self r (CMS.column self hf key)) (c + chat))) /\
  (forall r col,
     (forall hf, (r, hf) ∈ enumerate (CMS.hash_functions self) ->
                 CMS.column self hf key <> col) ->
     CMS.cell self' r col = CMS.cell self r col).
Proof.
  intros Hcons. unfold CMS.update_counts.
  destruct (update_rows_cells key c (CMS.getitem self "key")
              (enumerate (CMS.hash_functions self)) self Hcons
              (enumerate_rows_NoDup _)) as (? & ? & ? & _).
  done.
Qed.

(** The code and the specified update agree on the key ["key"]. *)
Lemma update_counts_spec_on_key self c :
  CMS.conservative self = true ->
  CMS.update_counts self "key" c = CMS.update_counts_spec self "key" c.
Proof.
  intros Hcons. unfold CMS.update_counts, CMS.update_counts_spec.
  generalize (CMS.getitem self "key"). intros chat.
  generalize (enumerate (CMS.hash_functions self)). intros l.
  revert self Hcons. induction l as [|[r hf] l IH]; intros self Hcons; [done|].
  rewrite !foldl_cons. unfold CMS.update_row at 2. rewrite Hcons.
  apply IH. done.
Qed.

Lemma getitem_fold_bounds self key (l : list (nat * (Z * Z))) : forall init,
  let m := foldl (fun value '(row, hash_function) =>
                    Z.min (CMS.cell self row (CMS.column self hash_function key))
                          value) init l in
  m <= init /\
  (forall r hf, (r, hf) ∈ l -> m <= CMS.cell self r (CMS.column self hf key)) /\
  (forall lo, lo <= init ->
     (forall r hf, (r, hf) ∈ l ->
                   lo <= CMS.cell self r (CMS.column self hf key)) ->
     lo <= m).
Proof.
  induction l as [|[r0 hf0] l IH]; intros init.
  - simpl. split; [lia|]. split; [by intros r hf ?%elem_of_nil | auto].
  - rewrite foldl_cons.
    destruct (IH (Z.min (CMS.cell self r0 (CMS.column self hf0 key)) init))
      as (H1 & H2 & H3).
    simpl. split; [lia|]. split.
    + intros r hf [E|Hl]%elem_of_cons; [injection E as -> ->; lia | by apply H2].
    + intros lo Hlo Hall. apply H3.
      * apply Z.min_glb; [apply Hall; left | done].
      * intros r hf Hl. apply Hall. by right.
Qed.

(** A read is at most each cell the key addresses, and at least any bound
    below all of them (and below [sys.maxint]). *)
Lemma getitem_le_cell self key r hf :
  (r, hf) ∈ enumerate (CMS.hash_functions self) ->
  CMS.getitem self key <= CMS.cell self r (CMS.column self hf key).
Proof.
  intros Hin. unfold CMS.getitem.
  by apply (getitem_fold_bounds self key _ CMS.sys_maxint).
Qed.

Lemma getitem_ge self key lo :
  lo <= CMS.sys_maxint ->
  (forall r hf, (r, hf) ∈ enumerate (CMS.hash_functions self) ->
                lo <= CMS.cell self r (CMS.column self hf key)) ->
  lo <= CMS.getitem self key.
Proof.
  intros Hlo Hall. unfold CMS.getitem.
  by apply (getitem_fold_bounds self key _ CMS.sys_maxint).
Qed.

Lemma column_same_w self self' hf key :
  CMS.w self' = CMS.w self ->
  CMS.column self' hf key = CMS.column self hf key.
Proof. unfold CMS.column, CMS.apply_hash. by intros ->. Qed.

Lemma int32_small z : - 2 ^ 31 <= z < 2 ^ 31 -> CMS.int32 z = z.
Proof. intros Hz. unfold CMS.int32. rewrite Z.mod_small; lia. Qed.

(** In a row, the cell of [key'] after an update of [key]. *)
Lemma update_counts_cell_of self key c key' r hf :
  CMS.conservative self = true ->
  (r, hf) ∈ enumerate (CMS.hash_functions self) ->
  CMS.cell (CMS.update_counts self key c) r (CMS.column self hf key') =
  if decide (CMS.column self hf key = CMS.column self hf key') then
    CMS.int32 (Z.max (CMS.cell self r (CMS.column self hf key'))
                 (c + CMS.getitem self "key"))
  else CMS.cell self r (CMS.column self hf key').
Proof. apply update_rows_cell_of. Qed.

(** The slip of line 108 for any hash function and any sketch that has
    just been built: if some row separates [k] from the word ["key"], two
    calls [update_counts(k, 1)] leave the estimate of [k] at [1]. *)
Lemma literal_key_loses_increment (self : CMS.CMSketchCounter) (k : string) :
  CMS.conservative self = true ->
  CMS.count self = ∅ ->
  (exists r hf, (r, hf) ∈ enumerate (CMS.hash_functions self) /\
                CMS.column self hf k <> CMS.column self hf "key") ->
  CMS.getitem (CMS.update_counts (CMS.update_counts self k 1) k 1) k = 1.
Proof.
  intros Hcons Hcount (r0 & hf0 & Hin0 & Hsep).
  assert (Hzero : forall r col, CMS.cell self r col = 0).
  { intros r col. unfold CMS.cell. by rewrite Hcount, lookup_empty. }
  assert (Hchat0 : CMS.getitem self "key" = 0).
  { apply Z.le_antisymm.
    - rewrite <- (Hzero r0 (CMS.column self hf0 "key")).
      by apply getitem_le_cell.
    - apply getitem_ge; [done|]. intros r hf _. by rewrite Hzero. }
  set (sk1 := CMS.update_counts self k 1).
  destruct (update_counts_cells self k 1 Hcons) as ((Hcons1 & Hw1 & Hh1) & _).
  fold sk1 in Hcons1, Hw1, Hh1.
  assert (Hcell1 : forall key' r hf,
            (r, hf) ∈ enumerate (CMS.hash_functions self) ->
            CMS.cell sk1 r (CMS.column sk1 hf key') =
            if decide (CMS.column self hf k = CMS.column self hf key')
            then 1 else 0).
  { intros key' r hf Hin. rewrite (column_same_w self sk1) by done.
    unfold sk1. rewrite update_counts_cell_of by done.
    rewrite Hchat0, !Hzero. by case_decide. }
  assert (Hchat1 : CMS.getitem sk1 "key" = 0).
  { apply Z.le_antisymm.
    - etrans; [apply (getitem_le_cell sk1 "key" r0 hf0); by rewrite Hh1|].
      rewrite Hcell1 by done. by rewrite decide_False.
    - apply getitem_ge; [done|]. intros r hf Hin. rewrite Hh1 in Hin.
      rewrite Hcell1 by done. case_decide; lia. }
  set (sk2 := CMS.update_counts sk1 k 1).
  destruct (update_counts_cells sk1 k 1 Hcons1) as ((_ & Hw2 & Hh2) & _).
  fold sk2 in Hw2, Hh2.
  assert (Hcell2 : forall r hf,
            (r, hf) ∈ enumerate (CMS.hash_functions self) ->
            CMS.cell sk2 r (CMS.column sk2 hf k) = 1).
  { intros r hf Hin. rewrite (column_same_w sk1 sk2) by done.
    unfold sk2. rewrite update_counts_cell_of by (done || by rewrite Hh1).
    rewrite decide_True by done. rewrite Hchat1, Hcell1 by done.
    by rewrite decide_True. }
  apply Z.le_antisymm.
  - etrans; [apply (getitem_le_cell sk2 k r0 hf0); by rewrite Hh2, Hh1|].
    by rewrite Hcell2.
  - apply getitem_ge; [done|]. intros r hf Hin. rewrite Hh2, Hh1 in Hin.
    by rewrite Hcell2.
Qed.

(** The specified update is the loop of the code, run with the estimate
    of the key itself. *)
Lemma update_counts_spec_fold self k c :
  CMS.conservative self = true ->
  CMS.update_counts_spec self k c =
  foldl (CMS.update_row k c (CMS.getitem self k)) self
        (enumerate (CMS.hash_functions self)).
Proof.
  intros Hcons. unfold CMS.update_counts_spec.
  generalize (CMS.getitem self k). intros chat.
  generalize (enumerate (CMS.hash_functions self)). intros l.
  revert self Hcons. induction l as [|[r hf] l IH]; intros self Hcons; [done|].
  rewrite !foldl_cons. unfold CMS.update_row at 2. rewrite Hcons.
  by apply IH.
Qed.

Lemma true_count_app calls calls' k :
  true_count (calls ++ calls') k = true_count calls k + true_count calls' k.
Proof.
  induction calls as [|[k0 c] calls IH]; [done|].
  simpl. rewrite IH. case_decide; lia.
Qed.

Lemma total_count_app calls calls' :
  total_count (calls ++ calls') = total_count calls + total_count calls'.
Proof.
  induction calls as [|[k0 c] calls IH]; [done|]. simpl. rewrite IH. lia.
Qed.

Lemma true_count_bounds calls k :
  (forall k0 c, (k0, c) ∈ calls -> 0 <= c) ->
  0 <= true_count calls k <= total_count calls.
Proof.
  induction calls as [|[k0 c] calls IH]; intros Hpos; [done|].
  assert (0 <= c) by (apply (Hpos k0); left).
  destruct IH as [? ?]; [intros k1 c1 ?; apply (Hpos k1); by right|].
  simpl. case_decide; lia.
Qed.

(** With the update as specified, a sketch that starts empty never
    underestimates, as long as the total it has counted fits in [int32]. *)
Lemma specified_update_never_underestimates (self0 : CMS.CMSketchCounter)
  (calls : list (string * Z)) :
  CMS.conservative self0 = true ->
  CMS.count self0 = ∅ ->
  (forall k c, (k, c) ∈ calls -> 0 <= c) ->
  total_count calls < 2 ^ 31 ->
  forall k, true_count calls k <= CMS.getitem (run_updates_spec self0 calls) k.
Proof.
  intros Hcons0 Hcount0.
  enough (Hinv :
    (forall k c, (k, c) ∈ calls -> 0 <= c) ->
    total_count calls < 2 ^ 31 ->
    let self := run_updates_spec self0 calls in
    CMS.conservative self = true /\
    (forall r col, 0 <= CMS.cell self r col <= total_count calls) /\
    (forall k, true_count calls k <= CMS.getitem self k)).
  { intros Hpos Htot. by apply Hinv. }
  induction calls as [|[k0 c] calls IH] using rev_ind; intros Hpos Htot.
  - simpl. split; [done|].
    assert (Hzero : forall r col, CMS.cell self0 r col = 0).
    { intros r col. unfold CMS.cell. by rewrite Hcount0, lookup_empty. }
    split; [intros r col; rewrite Hzero; simpl; lia|].
    intros k. apply getitem_ge; [done|]. intros r hf _. by rewrite Hzero.
  - assert (Hc : 0 <= c).
    { apply (Hpos k0). apply elem_of_app. right. left. }
    assert (Hpos' : forall k1 c1, (k1, c1) ∈ calls -> 0 <= c1).
    { intros k1 c1 Hin. apply (Hpos k1). apply elem_of_app. by left. }
    rewrite total_count_app in Htot |- *. simpl in Htot |- *.
    destruct IH as (Hcons & Hcells & Hest); [done | lia |].
    unfold run_updates_spec in *. rewrite foldl_snoc.
    set (self := foldl _ self0 calls) in *.
    rewrite update_counts_spec_fold by done.
    set (chat := CMS.getitem self k0).
    destruct (update_rows_cells k0 c chat _ self Hcons
                (enumerate_rows_NoDup (CMS.hash_functions self)))
      as ((Hcons' & Hw' & Hh') & _ & _ & Hany).
    set (self' := foldl _ self _) in *.
    pose proof (true_count_bounds calls k0 Hpos') as [Ht0 Ht1].
    assert (Hchat0 : true_count calls k0 <= chat) by apply Hest.
    assert (Hrows : enumerate (CMS.hash_functions self) = [] \/
                    exists r1 hf1,
                      (r1, hf1) ∈ enumerate (CMS.hash_functions self)).
    { destruct (enumerate (CMS.hash_functions self)) as [|[r1 hf1] rows];
        [by left | right]. exists r1, hf1. left. }
    destruct Hrows as [Erows | (r1 & hf1 & Hin1)].
    + (* no rows: nothing is stored and every read is [sys.maxint] *)
      split; [done|]. split.
      * intros r col. specialize (Hcells r col). unfold self'.
        rewrite Erows. simpl. lia.
      * intros k. apply getitem_ge.
        -- pose proof (true_count_bounds (calls ++ [(k0, c)]) k Hpos) as [_ Hle].
           rewrite total_count_app in Hle. simpl in Hle.
           unfold CMS.sys_maxint. lia.
        -- intros r hf. rewrite Hh', Erows. by intros ?%elem_of_nil.
    + assert (Hchat1 : chat <= total_count calls).
      { etrans; [by apply (getitem_le_cell self k0 r1 hf1)|]. apply Hcells. }
      assert (Hstore : forall old, 0 <= old <= total_count calls ->
                CMS.int32 (Z.max old (c + chat)) = Z.max old (c + chat)).
      { intros old Hold. apply int32_small. lia. }
      split; [done|]. split.
      * intros r col. specialize (Hcells r col).
        destruct (Hany r col) as [-> | ->]; [lia|].
        rewrite Hstore by done. lia.
      * intros k. rewrite true_count_app. simpl.
        pose proof (true_count_bounds calls k Hpos') as [Hk0 Hk1].
        apply getitem_ge; [unfold CMS.sys_maxint; case_decide; lia|].
        intros r hf Hin. rewrite Hh' in Hin.
        rewrite (column_same_w self self') by done.
        unfold self'. rewrite update_rows_cell_of by done.
        pose proof (getitem_le_cell self k r hf Hin) as Hle.
        specialize (Hest k). specialize (Hcells r (CMS.column self hf k)).
        destruct (decide (CMS.column self hf k0 = CMS.column self hf k))
          as [Ecol|Ecol].
        -- rewrite Hstore by done. case_decide as Ek; [subst k0|]; lia.
        -- rewrite decide_False; [lia|]. intros ->. by apply Ecol.
Qed.

End SketchProperties.

(** ** The model run on concrete inputs *)

Section Runs.
Local Open Scope string_scope.
Local Abbreviation R := Py27.runtime.

(** C2, the code at a concrete input.  On
    [CMSketchCounter(delta=0.5, epsilon=0.5)] with first hash function
    [x % _PRIME % w], after [update_counts("a", 1)] the estimate of ["a"]
    is [1] and that of ["key"] is [0].  A second [update_counts("a", 1)]
    reads [chat = self["key"] = 0] and stores [max(1, 1 + 0) = 1]: the
    sketch does not change.  The specified update reads
    [chat = get("a") = 1] and stores [max(1, 1 + 1) = 2]. *)
Theorem update_counts_reads_literal_key :
  let sk0 := Py27.small_sketch in
  let sk1 := CMS.update_counts (RT := R) sk0 "a" 1 in
  CMS.init (RT := R) Py27.rnd_one 0.5 0.5 true = inr sk0 /\
  CMS.column (RT := R) sk0 (1, 0) "a" = 0 /\
  CMS.column (RT := R) sk0 (1, 0) "key" = 2 /\
  CMS.getitem (RT := R) sk1 "a" = 1 /\
  CMS.getitem (RT := R) sk1 "key" = 0 /\
  CMS.update_counts (RT := R) sk1 "a" 1 = sk1 /\
  CMS.cell (CMS.update_counts (RT := R) sk1 "a" 1) 0 0 = 1 /\
  CMS.cell (CMS.update_counts_spec (RT := R) sk1 "a" 1) 0 0 = 2.
Proof. vm_compute. repeat split. Qed.

(** C3, the code at a concrete input.  On the same sketch, two calls
    [update_counts("a", 1)] add a total of [2] to ["a"], and the sketch
    then answers [1] for ["a"]: an underestimate. *)
Theorem sketch_underestimates :
  let calls := [("a", 1); ("a", 1)] in
  CMS.init (RT := R) Py27.rnd_one 0.5 0.5 true
  = inr Py27.small_sketch /\
  true_count calls "a" = 2 /\
  CMS.getitem (RT := R) (run_updates (RT := R) Py27.small_sketch calls) "a" = 1 /\
  CMS.getitem (RT := R) (run_updates (RT := R) Py27.small_sketch calls) "a"
  < true_count calls "a".
Proof. vm_compute. repeat split. Qed.

(** On a sketch a sentence comes back as it is. *)
Lemma approx_transform_unchanged_run :
  (getitem_sentence (RT := R) Py27.approx_model ["new"; "york"]).2
  = ["new"; "york"].
Proof.
  exact (proj2 (proj2 (proj2
    (approx_transform_unchanged (RT := R) Py27.approx_model ["new"; "york"]
       eq_refl eq_refl)))).
Defined.

(** C1 as stated fails in its account of the score.  The model is
    [Phrases([["a", "b"]], threshold=float("inf"), exact_count=False)]:
    the sketch answers [1] for ["a"], for ["b"] and for ["a_b"], the
    product of line 328 is [(1 - 5) / 1 / 1 * inf * 0], and the score of
    the pair is NaN, not [0].  The sentence still comes back as it
    is. *)
Lemma approx_score_is_nan :
  exists self,
    init (RT := R) Py27.rnd_one Py27.rnd_one (Some [["a"; "b"]])
      5 infinity 40000000 "_" false = inr self /\
    exact_count self = false /\
    (threshold self <=? 0)%float = false /\
    count (RT := R) (vocab self) "a" = 1 /\
    count (RT := R) (vocab self) "b" = 1 /\
    count (RT := R) (vocab self) "a_b" = 1 /\
    (let s := (score (RT := R) (min_count self) (threshold self) (vocab self)
                 "a" "b" "a_b").1 in
     is_nan s = true /\ (s =? 0)%float = false) /\
    (getitem_sentence (RT := R) self ["a"; "b"]).2 = ["a"; "b"].
Proof.
  eexists. split; [reflexivity|]. vm_compute. repeat split.
Qed.

(** A last word consumed by the last merge is not emitted again. *)
Lemma last_token_emitted_only_if_free_run :
  (getitem_sentence (RT := R) (Py27.exact_model 1) ["new"; "york"]).2
  = ["new_york"].
Proof.
  pose proof (last_token_emitted_only_if_free (RT := R) (Py27.exact_model 1)
                ["new"; "york"] ["new"] "york" eq_refl eq_refl) as W.
  cbv zeta in W. destruct W as (_ & _ & _ & W).
  destruct W as [W _]; [vm_compute; reflexivity|].
  rewrite W. vm_compute. reflexivity.
Defined.

(** The score is rounded as the code rounds it.  In a dictionary of 70
    keys with counts [10] for [a], [7] for [b] and [6] for [a_b], and
    the default [min_count=5] and [threshold=10.0], the score of the
    pair is [(6 - 5) / 10 / 7 * 10 * 70 = 10.000000000000002] in
    doubles, above the threshold, and the pair is joined; in exact
    arithmetic the product is [10]. *)
Lemma merge_decision_by_score_run :
  Dict.len (vocab Py27.rounding_model) = 70 /\
  score_spec (RT := R) Py27.rounding_model "a" "b"
  = 10.000000000000002%float /\
  (merges (RT := R) 5 10 "_" (vocab Py27.rounding_model) false "a" "b").1
  = true /\
  (getitem_sentence (RT := R) Py27.rounding_model ["a"; "b"]).2 = ["a_b"].
Proof.
  pose proof (merge_decision_by_score (RT := R) Py27.rounding_model
                "a" "b" eq_refl eq_refl) as W.
  cbv zeta in W. destruct W as (_ & _ & _ & _ & W & _).
  split; [vm_compute; reflexivity|]. split; [vm_compute; reflexivity|].
  split; [|vm_compute; reflexivity].
  etrans; [exact (W false)|]. vm_compute. reflexivity.
Defined.

(** C5 as stated fails.  In [Phrases(corpus, min_count=1,
    exact_count=True)] the pair [(york, is)] has a score of
    [15.555555555555557], above the threshold [10.0]; in the sentence
    [new york is big] the word [york] is consumed by the merge of
    [(new, york)], and [(york, is)] is not joined. *)
Lemma consumed_word_is_not_merged :
  exists self,
    init (RT := R) Py27.rnd_one Py27.rnd_one (Some Py27.corpus)
      1 10 40000000 "_" true = inr self /\
    score_spec (RT := R) self "york" "is" = 15.555555555555557%float /\
    fgtb (score_spec (RT := R) self "york" "is") (threshold self) = true /\
    (transform_loop (RT := R) (min_count self) (threshold self)
       (delimiter self) (vocab self) ["new"; "york"]).2 = true /\
    (merges (RT := R) (min_count self) (threshold self) (delimiter self)
       (vocab self) true "york" "is").1 = false /\
    (getitem_sentence (RT := R) self ["new"; "york"; "is"; "big"]).2
    = ["new_york"; "is_big"].
Proof.
  eexists. split; [reflexivity|]. vm_compute. repeat split.
Qed.

(** With [min_count = 5] no pair of the corpus qualifies: a sentence of
    known words comes back whole, one with an unknown last word loses
    it. *)
Lemma transform_without_qualifying_pair_run :
  (getitem_sentence (RT := R) (Py27.exact_model 5) ["new"; "york"]).2
  = ["new"; "york"] /\
  (getitem_sentence (RT := R) (Py27.exact_model 5) ["new"; "car"]).2
  = ["new"].
Proof.
  split.
  - rewrite (transform_without_qualifying_pair (RT := R) (Py27.exact_model 5)
               ["new"; "york"]).
    + vm_compute. reflexivity.
    + intros a b Hin _. apply list_elem_of_singleton in Hin.
      injection Hin as -> ->. vm_compute. reflexivity.
  - rewrite (transform_without_qualifying_pair (RT := R) (Py27.exact_model 5)
               ["new"; "car"]).
    + vm_compute. reflexivity.
    + intros a b Hin Hs. apply list_elem_of_singleton in Hin.
      injection Hin as -> ->. vm_compute in Hs. discriminate Hs.
Defined.

(** C7 as stated fails.  The model is
    [Phrases(corpus, min_count=5, exact_count=True)]; the one adjacent
    pair of [["new", "car"]] is not scored, and its specified score is
    [0]; and the sentence comes back as [["new"]]: ["car"] is not a key
    of the counter and is dropped. *)
Lemma unknown_last_word_dropped :
  exists self,
    init (RT := R) Py27.rnd_one Py27.rnd_one (Some Py27.corpus)
      5 10 40000000 "_" true = inr self /\
    (forall a b,
        (a, b) ∈ bigrams (map (any2utf8 (Runtime := R)) ["new"; "car"]) ->
        scored "_" (vocab self) a b = false /\
        (score_spec (RT := R) self a b <=? threshold self)%float = true) /\
    (getitem_sentence (RT := R) self ["new"; "car"]).2 = ["new"] /\
    (getitem_sentence (RT := R) self ["new"; "car"]).2
    <> map (to_unicode (Runtime := R))
         (map (any2utf8 (Runtime := R)) ["new"; "car"]).
Proof.
  exists (Py27.exact_model 5). split; [reflexivity|]. split; [|split].
  - intros a b Hin. apply list_elem_of_singleton in Hin.
    injection Hin as -> ->. vm_compute. split; reflexivity.
  - vm_compute. reflexivity.
  - vm_compute. discriminate.
Qed.

(** The corpus has seven keys; [big] ends three sentences. *)
Lemma learn_vocab_exact_counts_run :
  (learn_vocab (RT := R) Py27.rnd_one Py27.corpus 40000000 "_" true).1 = 1 /\
  Dict.count (learn_vocab (RT := R) Py27.rnd_one Py27.corpus 40000000 "_"
                true).2 "big" = 3.
Proof.
  pose proof (learn_vocab_exact_counts (RT := R) "_" Py27.rnd_one Py27.corpus
                40000000) as W.
  cbv zeta in W. destruct W as (W1 & W2 & _).
  - vm_compute. discriminate.
  - split; [exact W1|]. rewrite W2. vm_compute. reflexivity.
Defined.

(** [Phrases(corpus, min_count=1, exact_count=True)] is a model a program
    can hold. *)
Lemma exact_model_reachable : reachable (RT := R) (Py27.exact_model 1).
Proof.
  apply (reachable_init (RT := R) Py27.rnd_one Py27.rnd_one (Some Py27.corpus)
           1 10 40000000 "_" true).
  reflexivity.
Defined.

(** Learning the corpus a second time does not lower [min_reduce]. *)
Lemma min_reduce_non_decreasing_run :
  1 <= min_reduce (Py27.exact_model 1)
    <= min_reduce (add_vocab (RT := R) Py27.rnd_one (Py27.exact_model 1)
                     Py27.corpus).
Proof.
  pose proof (min_reduce_non_decreasing (RT := R) Py27.rnd_one
                (Py27.exact_model 1) Py27.corpus exact_model_reachable) as W.
  cbv zeta in W. destruct W as (_ & _ & _ & W1 & W2 & _).
  split; [exact W1 | exact W2].
Defined.

(** C8 as stated fails.  With the delimiter ["__"], which occurs in no
    token, the pairs [(a_, b)] and [(a, _b)] join to the same word
    [a___b]: each pair occurs once in the stream, nothing is pruned, and
    the counter maps the joined word to [2]. *)
Lemma joined_pairs_collide :
  let sentences := [["a_"; "b"]; ["a"; "_b"]] in
  let st := learn_vocab (RT := R) Py27.rnd_one sentences 40000000 "__" true in
  join "__" "a_" "b" = "a___b" /\
  join "__" "a" "_b" = "a___b" /\
  st.1 = 1 /\
  Z.of_nat (size (stream_keys "__" sentences)) <= 40000000 /\
  occ ("a_", "b") (stream_bigrams sentences) = 1 /\
  occ ("a", "_b") (stream_bigrams sentences) = 1 /\
  Dict.count st.2 "a___b" = 2.
Proof. vm_compute. repeat split; discriminate. Qed.

(** [min_count = 0] raises; the defaults build a model that stores them. *)
Lemma construction_raises_on_invalid_parameters_run :
  (exists x, init (RT := R) Py27.rnd_one Py27.rnd_one None 0 10 40000000
               "_" false = inl x) /\
  (exists self, init (RT := R) Py27.rnd_one Py27.rnd_one None 5 10 40000000
                  "_" false = inr self /\
                config self = (5%float, 10%float, 40000000, "_", false)).
Proof.
  destruct (construction_raises_on_invalid_parameters (RT := R))
    as (W1 & _ & W3 & _).
  split.
  - apply W1. left. reflexivity.
  - apply W3; reflexivity.
Defined.

(** C10 as stated fails.  [epsilon = 5e-324], the smallest positive
    double, is strictly between [0] and [1] and passes the check; then
    [2 / epsilon] is [inf], and [int(np.ceil(inf))] raises
    [OverflowError]. *)
Lemma tiny_epsilon_raises :
  (0 <? 5e-324)%float = true /\ (5e-324 <? 1)%float = true /\
  (0 <? 0.01)%float = true /\ (0.01 <? 1)%float = true /\
  (2 / 5e-324)%float = infinity /\
  CMS.init (RT := R) Py27.rnd_one 0.01 5e-324 true
  = inl (OverflowError "cannot convert float infinity to integer").
Proof. vm_compute. repeat split. Qed.

(** The width is [int(np.ceil(2 / epsilon))] as doubles give it:
    [2 / 0.6666666666666666] is [3.0] exactly, and the sketch is [3]
    wide. *)
Lemma width_is_rounded :
  (2 / 0.6666666666666666)%float = 3%float /\
  exists sk, CMS.init (RT := R) Py27.rnd_one 0.01 0.6666666666666666 true
             = inr sk /\ CMS.w sk = 3 /\ CMS.d sk = 5.
Proof. split; [reflexivity|]. eexists. vm_compute. repeat split. Qed.

(** Pruning at [1] removes a key of count [1] and keeps one of count [3]. *)
Lemma prune_vocab_exact_run :
  prune_vocab {[ "new" := 3; "rare" := 1 ]} 1 !! "rare" = None /\
  prune_vocab {[ "new" := 3; "rare" := 1 ]} 1 !! "new" = Some 3.
Proof.
  destruct (prune_vocab_exact {[ "new" := 3; "rare" := 1 ]} 1)
    as (_ & W2 & _ & W4).
  split.
  - apply (W4 "rare" 1); [vm_compute; reflexivity | lia].
  - apply (W2 "new" 3); [vm_compute; reflexivity | lia].
Defined.

End Runs.

(** * Further properties *)

(** ** The exact counter *)

Lemma dict_updates_count calls : forall (v : gmap string Z) k,
  Dict.count (dict_updates v calls) k = Dict.count v k + true_count calls k.
Proof.
  induction calls as [|[k0 c] calls IH]; intros v k; [simpl; lia|].
  unfold dict_updates in *. rewrite foldl_cons, IH.
  rewrite dict_update_counts_lookup. simpl. case_decide; lia.
Qed.

Lemma dict_updates_dom calls : forall (v : gmap string Z),
  dom (dict_updates v calls) = dom v ∪ list_to_set calls.*1.
Proof.
  induction calls as [|[k0 c] calls IH]; intros v.
  - simpl. by rewrite union_empty_r_L.
  - unfold dict_updates in *. rewrite foldl_cons, IH.
    rewrite dict_update_counts_dom. simpl. set_solver.
Qed.

Lemma true_count_not_elem_of (l : list (string * Z)) k :
  k ∉ l.*1 -> true_count l k = 0.
Proof.
  induction l as [|[k0 c] l IH]; [done|]. simpl. intros Hk.
  rewrite decide_False by (intros ->; apply Hk; left).
  apply IH. intros Hl. apply Hk. by right.
Qed.

Lemma true_count_NoDup (l : list (string * Z)) k :
  NoDup l.*1 ->
  true_count l k = default 0 ((list_to_map l : gmap string Z) !! k).
Proof.
  induction l as [|[k0 c] l IH]; [done|].
  intros [Hk0 Hnd]%NoDup_cons. simpl.
  destruct (decide (k0 = k)) as [->|Hne].
  - rewrite lookup_insert_eq. simpl.
    rewrite true_count_not_elem_of by done. lia.
  - rewrite lookup_insert_ne by done. by apply IH.
Qed.

Lemma true_count_map_to_list (m : gmap string Z) k :
  true_count (map_to_list m) k = Dict.count m k.
Proof.
  rewrite true_count_NoDup by apply NoDup_fst_map_to_list.
  by rewrite list_to_map_to_list.
Qed.

Lemma merge_counts_count (v v' : gmap string Z) k :
  Dict.count (merge_counts v v') k = Dict.count v k + Dict.count v' k.
Proof.
  change (merge_counts v v') with (dict_updates v (map_to_list v')).
  by rewrite dict_updates_count, true_count_map_to_list.
Qed.

Lemma merge_counts_dom (v v' : gmap string Z) :
  dom (merge_counts v v') = dom v ∪ dom v'.
Proof.
  change (merge_counts v v') with (dict_updates v (map_to_list v')).
  rewrite dict_updates_dom. f_equal.
  apply set_eq. intros k. rewrite elem_of_list_to_set, elem_of_dom.
  rewrite list_elem_of_fmap. split.
  - intros [[k' c] [-> Hin]]. apply elem_of_map_to_list in Hin. by exists c.
  - intros [c Hc]. exists (k, c). split; [done|]. by apply elem_of_map_to_list.
Qed.

(** X1. The exact counter is exact: after any sequence of
    [update_counts] calls the count of a key is its count before plus the
    total amount the calls add to it, and the keys are the keys before
    together with every key that was updated (also by [0]). *)
Theorem exact_counter_sums_increments (v : gmap string Z)
  (calls : list (string * Z)) :
  (forall k, Dict.count (dict_updates v calls) k
             = Dict.count v k + true_count calls k) /\
  dom (dict_updates v calls) = dom v ∪ list_to_set calls.*1.
Proof. split; [intros k; apply dict_updates_count | apply dict_updates_dom]. Qed.

(** X2. The merge of [add_vocab] in exact mode adds the two dictionaries
    key by key, on the union of their keys. *)
Theorem merge_adds_counts (self_vocab vocab : gmap string Z) :
  (forall k, Dict.count (merge_counts self_vocab vocab) k
             = Dict.count self_vocab k + Dict.count vocab k) /\
  dom (merge_counts self_vocab vocab) = dom self_vocab ∪ dom vocab.
Proof. split; [intros k; apply merge_counts_count | apply merge_counts_dom]. Qed.

Lemma prune_vocab_subseteq (v : gmap string Z) m : prune_vocab v m ⊆ v.
Proof.
  apply map_subseteq_spec. intros k c. rewrite prune_vocab_lookup.
  destruct (v !! k) as [c'|]; [|done]. by destruct (c' <=? m).
Qed.

(** X3. Pruning composes and never adds: pruning at [m] and then at [m']
    is pruning once at the larger of the two; pruning twice at [m] is
    pruning once; a dictionary whose counts all exceed [m] is left as it
    is; and the result never has more keys than the dictionary had. *)
Theorem prune_vocab_composes (v : gmap string Z) (m m' : Z) :
  prune_vocab (prune_vocab v m) m' = prune_vocab v (Z.max m m') /\
  prune_vocab (prune_vocab v m) m = prune_vocab v m /\
  ((forall k c, v !! k = Some c -> m < c) -> prune_vocab v m = v) /\
  Dict.len (prune_vocab v m) <= Dict.len v.
Proof.
  assert (Hcomp : forall a b,
            prune_vocab (prune_vocab v a) b = prune_vocab v (Z.max a b)).
  { intros a b. apply map_eq. intros k. rewrite !prune_vocab_lookup.
    destruct (v !! k) as [c|]; [|done].
    destruct (Z.leb_spec c a); simpl;
      destruct (Z.leb_spec c (Z.max a b));
      try destruct (Z.leb_spec c b); done || lia. }
  split; [apply Hcomp|]. split; [by rewrite Hcomp, Z.max_id|]. split.
  - intros Hall. apply map_eq. intros k. rewrite prune_vocab_lookup.
    destruct (v !! k) as [c|] eqn:E; [|done].
    specialize (Hall k c E). destruct (Z.leb_spec c m); [lia | done].
  - unfold Dict.len. apply inj_le, map_subseteq_size, prune_vocab_subseteq.
Qed.

(** ** Learning in exact mode, with and without pruning *)

Lemma occ_nonneg {A} `{EqDecision A} (x : A) (l : list A) : 0 <= occ x l.
Proof.
  induction l as [|y l IH]; [done|]. rewrite occ_cons. case_decide; lia.
Qed.

Lemma occ_elem_of {A} `{EqDecision A} (x : A) (l : list A) :
  x ∈ l -> 1 <= occ x l.
Proof.
  induction l as [|y l IH]; [by intros ?%elem_of_nil|].
  rewrite occ_cons. pose proof (occ_nonneg x l).
  intros [->|Hl]%elem_of_cons.
  - rewrite decide_True by done. lia.
  - specialize (IH Hl). case_decide; lia.
Qed.

Lemma dict_count_lookup (v : gmap string Z) k c :
  v !! k = Some c -> Dict.count v k = c.
Proof. unfold Dict.count. by intros ->. Qed.

Lemma dict_count_nonneg (v : gmap string Z) k :
  (forall k c, v !! k = Some c -> 1 <= c) -> 0 <= Dict.count v k.
Proof.
  intros Hpos. unfold Dict.count.
  destruct (v !! k) as [c|] eqn:E; [|done]. specialize (Hpos k c E). simpl. lia.
Qed.

Section ExactLearning.
Context {RT : Runtime}.
Variable dl : string.

(** The number of times a key is counted by a stream: its occurrences as
    a token plus the adjacent pairs that join to it. *)
Local Abbreviation counted ss k :=
  (occ k (stream_tokens ss) + occ k (map (joined dl) (stream_bigrams ss))).

Lemma counted_snoc ss s k :
  counted (ss ++ [s]) k =
  counted ss k + (occ k s + occ k (map (joined dl) (bigrams s))).
Proof.
  unfold stream_tokens, stream_bigrams.
  rewrite map_app, !concat_app. simpl. rewrite !app_nil_r, map_app.
  rewrite !occ_app. lia.
Qed.

(** One sentence keeps the stored counts at [1] or above. *)
Lemma count_sentence_positive (v : gmap string Z) (s : list string) :
  (forall k c, v !! k = Some c -> 1 <= c) ->
  forall k c, (count_sentence (e := true) dl v s : gmap string Z) !! k = Some c ->
              1 <= c.
Proof.
  intros Hpos k c Hc.
  destruct (count_sentence_exact dl v s) as [Hcount Hdom].
  apply dict_count_lookup in Hc as Hc'. rewrite Hcount in Hc'.
  pose proof (occ_nonneg k s). pose proof (occ_nonneg k (map (joined dl) (bigrams s))).
  destruct (v !! k) as [c0|] eqn:E.
  - specialize (Hpos k c0 E). rewrite (dict_count_lookup v k c0 E) in Hc'. lia.
  - assert (Hin : k ∈ dom v ∪ list_to_set (C := gset string)
                                 (s ++ map (joined dl) (bigrams s))).
    { rewrite <- Hdom. apply elem_of_dom. by eexists. }
    apply elem_of_union in Hin as [Hin|Hin].
    { apply elem_of_dom in Hin as [? ?]. congruence. }
    apply elem_of_list_to_set, occ_elem_of in Hin. rewrite occ_app in Hin.
    unfold Dict.count in Hc'. rewrite E in Hc'. simpl in Hc'. lia.
Qed.

Lemma learn_vocab_bounds rnd (sentences : list (list text)) mvs :
  let ss := map (map any2utf8) sentences in
  let v : gmap string Z := (learn_vocab rnd sentences mvs dl true).2 in
  (forall k c, v !! k = Some c -> 1 <= c) /\
  (forall k, Dict.count v k <= counted ss k).
Proof.
  induction sentences as [|x l IH] using rev_ind.
  - simpl. split; [|done].
    intros k c Hc. unfold Dict.empty in Hc. by rewrite lookup_empty in Hc.
  - simpl in *. rewrite map_app, learn_vocab_snoc. simpl map.
    destruct (learn_vocab rnd l mvs dl true) as [mr v]. simpl in IH.
    destruct IH as [Hpos Hle].
    unfold learn_sentence.
    set (v' := count_sentence (e := true) dl v (map any2utf8 x)).
    assert (Hpos' : forall k c, (v' : gmap string Z) !! k = Some c -> 1 <= c)
      by (by apply count_sentence_positive).
    assert (Hle' : forall k, Dict.count v' k
                             <= counted (map (map any2utf8) l ++ [map any2utf8 x]) k).
    { intros k. rewrite counted_snoc.
      destruct (count_sentence_exact dl v (map any2utf8 x)) as [Hcount _].
      unfold v'. rewrite Hcount. specialize (Hle k). lia. }
    destruct (mvs <? len v'); simpl; [|done].
    split.
    + intros k c Hc. rewrite prune_vocab_lookup in Hc.
      destruct ((v' : gmap string Z) !! k) as [c'|] eqn:E; [|done].
      destruct (c' <=? mr); [done|]. injection Hc as <-. by apply (Hpos' k).
    + intros k. etrans; [|apply Hle']. unfold Dict.count.
      rewrite prune_vocab_lookup.
      pose proof (dict_count_nonneg v' k Hpos') as Hnn. unfold Dict.count in Hnn.
      destruct ((v' : gmap string Z) !! k) as [c'|] eqn:E; [|done].
      destruct (c' <=? mr); simpl in *; lia.
Qed.

(** X4. In exact mode, pruned or not, [learn_vocab] never overcounts and
    never stores a count below [1]: the count of every key of the
    dictionary it returns is at least [1] and at most the number of times
    the stream counts that key (its occurrences as a token plus the
    adjacent pairs that join to it). *)
Theorem learn_vocab_never_overcounts rnd (sentences : list (list text))
  (mvs : Z) (k : string) (c : Z) :
  let ss := map (map any2utf8) sentences in
  let v : gmap string Z := (learn_vocab rnd sentences mvs dl true).2 in
  v !! k = Some c ->
  1 <= c <= occ k (stream_tokens ss)
            + occ k (map (joined dl) (stream_bigrams ss)).
Proof.
  intros ss v Hc.
  destruct (learn_vocab_bounds rnd sentences mvs) as [Hpos Hle].
  split; [by apply (Hpos k)|].
  specialize (Hle k). fold ss v in Hle.
  by rewrite (dict_count_lookup v k c Hc) in Hle.
Qed.

Lemma add_vocab_counts_exact rnd mc th mvs (v : gmap string Z) mr
  (sentences : list (list text)) :
  let ss := map (map any2utf8) sentences in
  let self := mkPhrases mc th mvs true v mr dl in
  Z.of_nat (size (dom v ∪ stream_keys dl ss)) <= mvs ->
  let self' := add_vocab rnd self sentences in
  exact_count self' = true /\
  min_reduce self' = Z.max mr 1 /\
  forall k, count (vocab self') k
            = Dict.count v k + occ k (stream_tokens ss)
              + occ k (map (joined dl) (stream_bigrams ss)).
Proof.
  intros ss self Hsize self'.
  assert (Hsize' : Z.of_nat (size (stream_keys dl ss)) <= mvs).
  { etrans; [|exact Hsize]. apply inj_le, subseteq_size. set_solver. }
  destruct (learn_vocab_exact dl rnd sentences mvs Hsize')
    as (Hmr & Hdom & Hcount).
  fold ss in Hdom, Hcount.
  unfold self', self, add_vocab.
  destruct (learn_vocab rnd sentences mvs dl true) as [mr' v'].
  simpl in Hmr, Hdom, Hcount. subst mr'.
  assert (Hlen : Dict.len (merge_counts v v') <= mvs).
  { unfold Dict.len. rewrite <- (size_dom (D := gset string)).
    by rewrite merge_counts_dom, Hdom. }
  destruct (Z.ltb_spec mvs (Dict.len (merge_counts v v'))); [lia|].
  simpl. split; [done|]. split; [done|].
  intros k. rewrite merge_counts_count, Hcount. lia.
Qed.

(** X5. [add_vocab] in exact mode, when the keys of the model and of the
    new sentences together number at most [max_vocab_size] (so that
    nothing is pruned): the model stays exact, [min_reduce] becomes the
    larger of its old value and [1], and the count of every key grows by
    the number of times the new sentences count it.  Learning a corpus in
    several calls thus gives the counts of learning it at once. *)
Theorem add_vocab_adds_counts rnd mc th mvs (v : gmap string Z) mr
  (sentences : list (list text)) :
  let ss := map (map any2utf8) sentences in
  let self := mkPhrases mc th mvs true v mr dl in
  Z.of_nat (size (dom v ∪ stream_keys dl ss)) <= mvs ->
  let self' := add_vocab rnd self sentences in
  exact_count self' = true /\
  min_reduce self' = Z.max mr 1 /\
  forall k, count (vocab self') k
            = Dict.count v k + occ k (stream_tokens ss)
              + occ k (map (joined dl) (stream_bigrams ss)).
Proof. apply add_vocab_counts_exact. Qed.

(** X19. [Phrases(sentences, exact_count=True)] with valid parameters
    and a corpus of at most [max_vocab_size] distinct keys: construction
    succeeds, [min_reduce] is [1], and the count of every key is the
    number of times the corpus counts it (its occurrences as a token plus
    the adjacent pairs that join to it); a key the corpus never counts is
    not in the counter. *)
Theorem construction_counts_the_corpus rnd rnd' mc th mvs
  (sentences : list (list text)) :
  let ss := map (map any2utf8) sentences in
  (mc <=? 0)%float = false -> (th <=? 0)%float = false ->
  Z.of_nat (size (stream_keys dl ss)) <= mvs ->
  exists self,
    init rnd rnd' (Some sentences) mc th mvs dl true = inr self /\
    min_reduce self = 1 /\
    (forall k, count (vocab self) k
               = occ k (stream_tokens ss)
                 + occ k (map (joined dl) (stream_bigrams ss))) /\
    (forall k, approx_or (vocab self) (fun d => Dict.contains d k) = true
               <-> k ∈ stream_keys dl ss).
Proof.
  intros ss Hmc Hth Hsize. unfold init.
  rewrite Hmc, Hth. eexists. split; [done|]. simpl _get_counter_instance.
  destruct (add_vocab_counts_exact rnd' mc th mvs Dict.empty 1 sentences)
    as (He & Hmr & Hcount).
  { unfold Dict.empty. rewrite dom_empty_L, union_empty_l_L. exact Hsize. }
  split; [exact Hmr|]. split.
  - intros k. rewrite Hcount. unfold Dict.count, Dict.empty.
    rewrite lookup_empty. simpl. fold ss. lia.
  - intros k. unfold add_vocab.
    destruct (learn_vocab_exact dl rnd' sentences mvs Hsize)
      as (_ & Hdom & _). fold ss in Hdom.
    destruct (learn_vocab rnd' sentences mvs dl true) as [mr' v'].
    simpl in Hdom.
    assert (Hlen : Dict.len (merge_counts Dict.empty v') <= mvs).
    { unfold Dict.len. rewrite <- (size_dom (D := gset string)).
      rewrite merge_counts_dom, Hdom. unfold Dict.empty.
      by rewrite dom_empty_L, union_empty_l_L. }
    destruct (Z.ltb_spec mvs (Dict.len (merge_counts Dict.empty v'))); [lia|].
    simpl. unfold Dict.contains. rewrite bool_decide_eq_true.
    rewrite <- elem_of_dom, merge_counts_dom, Hdom. unfold Dict.empty.
    by rewrite dom_empty_L, union_empty_l_L.
Qed.

End ExactLearning.

(** ** The rewriting of a sentence, token by token *)

Lemma words_length (segs : list segment) :
  (length segs <= length (concat (map words segs)) <= 2 * length segs)%nat.
Proof.
  induction segs as [|[a|a b] segs IH]; simpl; lia.
Qed.

Section Segments.
Context {RT : Runtime}.
Variables (mc th : float) (dl : string).
Context {e : bool}.

(** The loop emits, in order, the words it is given: each as itself or as
    the first half of a joined pair; only a last word that no pair
    consumed is left for the lines after the loop. *)
Lemma transform_fold_segments (v : counter_type e) (s : list string) :
  forall ns lb, s <> [] ->
  exists segs lb',
    foldl (transform_step mc th dl) (v, ns, lb) (bigrams s)
    = (v, ns ++ map (render dl) segs, lb') /\
    (if lb then tail s else s)
    = concat (map words segs) ++ (if lb' then [] else option_list (last s)) /\
    (forall a b, Joined a b ∈ segs -> (merges mc th dl v false a b).1 = true).
Proof.
  induction s as [|x s IH]; intros ns lb Hne; [done|].
  destruct s as [|y s].
  - exists [], lb. simpl. rewrite app_nil_r. split; [done|]. split.
    + by destruct lb.
    + by intros a b ?%elem_of_nil.
  - rewrite bigrams_cons, foldl_cons. unfold transform_step at 2.
    pose proof (merges_vocab mc th dl e v lb x y) as Hv.
    destruct (merges mc th dl v lb x y) as [m v'] eqn:Em. simpl in Hv. subst v'.
    rewrite last_cons_cons. destruct m.
    + assert (lb = false) as ->.
      { destruct lb; [|done].
        pose proof (merges_after_merge mc th dl e v x y) as Hf.
        rewrite Em in Hf. discriminate. }
      destruct (IH (ns ++ [join dl x y]) true) as (segs & lb' & Hf & Hw & Hj);
        [done|].
      exists (Joined x y :: segs), lb'. split; [|split].
      * rewrite Hf. simpl. by rewrite <- app_assoc.
      * simpl in Hw |- *. by rewrite <- Hw.
      * intros a b [E|Hin]%elem_of_cons; [|by apply Hj].
        injection E as -> ->. by rewrite Em.
    + destruct (IH (if lb then ns else ns ++ [x]) false)
        as (segs & lb' & Hf & Hw & Hj); [done|].
      destruct lb.
      * exists segs, lb'. by split; [|split].
      * exists (Single x :: segs), lb'. split; [|split].
        -- rewrite Hf. simpl. by rewrite <- app_assoc.
        -- simpl in Hw |- *. by rewrite <- Hw.
        -- intros a b [E|Hin]%elem_of_cons; [done | by apply Hj].
Qed.

End Segments.

Section TransformSegments.
Context {RT : Runtime}.

(** The output of [self[sentence]] as a list of segments. *)
Lemma transform_segments (self : Phrases) (sentence : list text) :
  (threshold self <=? 0)%float = false ->
  let s := map any2utf8 sentence in
  exists segs,
    (getitem_sentence self sentence).2
    = map to_unicode (map (render (delimiter self)) segs) /\
    (forall a b, Joined a b ∈ segs ->
       (merges (min_count self) (threshold self) (delimiter self)
          (vocab self) false a b).1 = true) /\
    (concat (map words segs) = s \/
     exact_count self = true /\
     exists t, last s = Some t /\
               approx_or (vocab self) (fun d => Dict.contains d t) = false /\
               concat (map words segs) = removelast s).
Proof.
  intros Hth s. rewrite getitem_sentence_out, transform_out.
  destruct self as [mc th mvs e v mr dl]. simpl in *. fold s.
  destruct (snoc_or_nil s) as [Es|(s0 & t & Es)].
  { rewrite Es. exists []. split; [done|]. split; [|by left].
    by intros a b ?%elem_of_nil. }
  destruct (transform_fold_segments mc th dl v s [] false)
    as (segs & lb' & Hf & Hw & Hj); [rewrite Es; by destruct s0|].
  unfold transform_loop. rewrite Hf. simpl.
  rewrite Es in Hw |- *. rewrite transform_last_snoc. rewrite last_snoc in Hw.
  simpl in Hw.
  destruct e; simpl.
  - destruct lb'; simpl.
    + rewrite andb_false_r. exists segs. split; [done|]. split; [done|].
      left. by rewrite app_nil_r in Hw.
    + rewrite andb_true_r. destruct (Dict.contains v t) eqn:Ct.
      * exists (segs ++ [Single t]). split; [f_equal; by rewrite map_app|]. split.
        -- intros a b [Hin|Hin]%elem_of_app; [by apply Hj|].
           apply list_elem_of_singleton in Hin. discriminate.
        -- left. rewrite map_app, concat_app. simpl. done.
      * exists segs. split; [done|]. split; [done|]. right.
        split; [done|]. exists t. rewrite last_snoc, removelast_last.
        split; [done|]. split; [done|].
        by apply app_inj_tail in Hw as [-> _].
  - assert (lb' = false) as ->.
    { unfold s in Hf.
      pose proof (approx_transform_loop mc th dl v (map any2utf8 sentence) Hth)
        as Ha.
      unfold transform_loop in Ha. rewrite Ha in Hf. by injection Hf as _ <-. }
    exists (segs ++ [Single t]). split; [f_equal; by rewrite map_app|]. split.
    + intros a b [Hin|Hin]%elem_of_app; [by apply Hj|].
      apply list_elem_of_singleton in Hin. discriminate.
    + left. rewrite map_app, concat_app. simpl. done.
Qed.

(** A pair the code joins was scored, and its score is above the
    threshold. *)
Lemma merges_true_scored mc th mvs e (v : counter_type e) mr dl a b :
  (merges mc th dl v false a b).1 = true ->
  scored dl v a b = true /\
  fgtb (score_spec (mkPhrases mc th mvs e v mr dl) a b) th = true.
Proof.
  intros Hm. destruct (scored dl v a b) eqn:Hs.
  - split; [done|]. by rewrite <- (merges_scored mc th mvs e v mr dl a b Hs).
  - by rewrite (merges_unscored mc th e v dl false a b Hs) in Hm.
Qed.

(** X6. [self[sentence]] neither loses, repeats nor reorders words and
    joins only pairs that qualify.  For a model whose [threshold] passed
    the test of [__init__], the output is a list of tokens, each a word
    or two adjacent words joined, such that: every joined pair was
    scored by the code and has a score above the threshold; and the
    words the tokens stand for, in order, are exactly the words of the
    sentence, except that exact mode leaves out the last word when it is
    not a key of the counter. *)
Theorem transform_keeps_the_words (self : Phrases) (sentence : list text) :
  (threshold self <=? 0)%float = false ->
  let s := map any2utf8 sentence in
  exists segs,
    (getitem_sentence self sentence).2
    = map to_unicode (map (render (delimiter self)) segs) /\
    (forall a b, Joined a b ∈ segs ->
                 scored (delimiter self) (vocab self) a b = true /\
                 fgtb (score_spec self a b) (threshold self) = true) /\
    (concat (map words segs) = s \/
     exact_count self = true /\
     exists t, last s = Some t /\
               approx_or (vocab self) (fun d => Dict.contains d t) = false /\
               concat (map words segs) = removelast s).
Proof.
  intros Hth s.
  destruct (transform_segments self sentence Hth) as (segs & Hout & Hj & Hw).
  exists segs. split; [done|]. split; [|done].
  intros a b Hin. specialize (Hj a b Hin).
  destruct self as [mc th mvs e v mr dl]. simpl in *.
  by apply merges_true_scored.
Qed.

(** X7. The output of [self[sentence]] is never longer than the sentence
    and never shorter than half of it (rounded down): a merge turns two
    words into one token, and at most the last word is dropped. *)
Theorem transform_length_bounds (self : Phrases) (sentence : list text) :
  (threshold self <=? 0)%float = false ->
  (length (getitem_sentence self sentence).2 <= length sentence
   <= 2 * length (getitem_sentence self sentence).2 + 1)%nat.
Proof.
  intros Hth.
  destruct (transform_segments self sentence Hth) as (segs & -> & _ & Hw).
  rewrite !length_map. pose proof (words_length segs) as Hl.
  destruct Hw as [Hw | (_ & t & Hlast & _ & Hw)]; rewrite Hw in Hl.
  - rewrite length_map in Hl. lia.
  - apply last_Some in Hlast as [s' Es].
    assert (El : length sentence = S (length s')).
    { rewrite <- (length_map any2utf8), Es, length_app. simpl. lia. }
    rewrite Es, removelast_last in Hl. lia.
Qed.

(** X8. [self[sentence]] only reads: it returns the model it was called
    on, unchanged.  In exact mode every read of the [defaultdict] is
    guarded by a membership test, so no read inserts a key. *)
Theorem transform_leaves_the_model_unchanged (self : Phrases)
  (sentence : list text) :
  (getitem_sentence self sentence).1 = self.
Proof. apply getitem_sentence_self. Qed.

End TransformSegments.

(** ** The sketch: reads, stores and construction *)

Lemma int32_range z : - 2 ^ 31 <= CMS.int32 z < 2 ^ 31.
Proof.
  unfold CMS.int32. pose proof (Z.mod_pos_bound (z + 2 ^ 31) (2 ^ 32)). lia.
Qed.

Section SketchReads.
Context {RT : Runtime}.

Lemma getitem_fold_attained self key (l : list (nat * (Z * Z))) : forall init,
  let m := foldl (fun value '(row, hash_function) =>
                    Z.min (CMS.cell self row (CMS.column self hash_function key))
                          value) init l in
  m = init \/
  exists r hf, (r, hf) ∈ l /\ m = CMS.cell self r (CMS.column self hf key).
Proof.
  induction l as [|[r0 hf0] l IH]; intros init; [by left|].
  rewrite foldl_cons. simpl.
  destruct (IH (Z.min (CMS.cell self r0 (CMS.column self hf0 key)) init))
    as [E | (r & hf & Hin & E)].
  - rewrite E.
    destruct (Z.min_spec (CMS.cell self r0 (CMS.column self hf0 key)) init)
      as [[_ ->] | [_ ->]]; [right | by left].
    exists r0, hf0. split; [left | done].
  - right. exists r, hf. split; [by right | done].
Qed.

(** X9. A read of the sketch is the minimum of the cells the key
    addresses, one per row, capped by [sys.maxint]: it is at most each of
    these cells and at most [sys.maxint]; it is one of these cells or
    [sys.maxint]; and with no rows at all it is [sys.maxint]. *)
Theorem read_is_minimum_of_addressed_cells (self : CMS.CMSketchCounter)
  (key : string) :
  CMS.getitem self key <= CMS.sys_maxint /\
  (forall r hf, (r, hf) ∈ enumerate (CMS.hash_functions self) ->
     CMS.getitem self key <= CMS.cell self r (CMS.column self hf key)) /\
  (CMS.getitem self key = CMS.sys_maxint \/
   exists r hf, (r, hf) ∈ enumerate (CMS.hash_functions self) /\
     CMS.getitem self key = CMS.cell self r (CMS.column self hf key)) /\
  (CMS.hash_functions self = [] -> CMS.getitem self key = CMS.sys_maxint).
Proof.
  split; [|split; [|split]].
  - unfold CMS.getitem.
    apply (getitem_fold_bounds self key _ CMS.sys_maxint).
  - intros r hf. apply getitem_le_cell.
  - unfold CMS.getitem. apply getitem_fold_attained.
  - unfold CMS.getitem. by intros ->.
Qed.

(** What the loop of [__setitem__] does to the cells. *)
Lemma setitem_rows_cells key value (l : list (nat * (Z * Z))) :
  forall self,
  NoDup l.*1 ->
  let self' := foldl (fun self '(row, hash_function) =>
                        CMS.set_cell self row
                          (CMS.column self hash_function key) value) self l in
  (CMS.conservative self' = CMS.conservative self /\
   CMS.w self' = CMS.w self /\
   CMS.hash_functions self' = CMS.hash_functions self) /\
  (forall r hf, (r, hf) ∈ l ->
     CMS.cell self' r (CMS.column self hf key) = CMS.int32 value) /\
  (forall r col, (forall hf, (r, hf) ∈ l -> CMS.column self hf key <> col) ->
     CMS.cell self' r col = CMS.cell self r col).
Proof.
  induction l as [|[r0 hf0] l IH]; intros self Hnd.
  - simpl. split; [done|]. split; [by intros r hf ?%elem_of_nil | done].
  - rewrite foldl_cons. apply NoDup_cons in Hnd as [Hr0 Hnd].
    set (self1 := CMS.set_cell self r0 (CMS.column self hf0 key) value).
    assert (Hcol : forall hf, CMS.column self1 hf key = CMS.column self hf key)
      by done.
    destruct (IH self1 Hnd) as ((Hc' & Hw' & Hh') & Hin & Hout).
    simpl. split; [by rewrite Hc', Hw', Hh'|]. split.
    + intros r hf [E|Hl]%elem_of_cons.
      * injection E as -> ->. rewrite Hout.
        -- unfold self1. rewrite cell_set_cell. by rewrite decide_True.
        -- intros hf Hl _. apply Hr0. apply list_elem_of_fmap.
           by exists (r0, hf).
      * rewrite <- Hcol, (Hin r hf Hl). done.
    + intros r col Hne. rewrite Hout.
      * unfold self1. rewrite cell_set_cell. rewrite decide_False; [done|].
        intros [= -> E]. by apply (Hne hf0); [left|].
      * intros hf Hl. rewrite Hcol. apply Hne. by right.
Qed.

(** X10. Store, then read: on a sketch with at least one row,
    [self[key] = value] followed by [self[key]] gives back [value] as an
    [int32], that is [value] itself when it fits; cells the key does not
    address keep their value, and the dimensions and hash functions stay
    as they were. *)
Theorem setitem_then_getitem (self : CMS.CMSketchCounter) (key : string)
  (value : Z) :
  CMS.hash_functions self <> [] ->
  CMS.getitem (CMS.setitem self key value) key = CMS.int32 value /\
  (- 2 ^ 31 <= value < 2 ^ 31 ->
   CMS.getitem (CMS.setitem self key value) key = value) /\
  (forall r col,
     (forall hf, (r, hf) ∈ enumerate (CMS.hash_functions self) ->
                 CMS.column self hf key <> col) ->
     CMS.cell (CMS.setitem self key value) r col = CMS.cell self r col) /\
  CMS.w (CMS.setitem self key value) = CMS.w self /\
  CMS.hash_functions (CMS.setitem self key value) = CMS.hash_functions self.
Proof.
  intros Hrows.
  destruct (setitem_rows_cells key value (enumerate (CMS.hash_functions self))
              self (enumerate_rows_NoDup _)) as ((_ & Hw & Hh) & Hin & Hout).
  fold (CMS.setitem self key value) in Hw, Hh, Hin, Hout.
  assert (Hread : CMS.getitem (CMS.setitem self key value) key
                  = CMS.int32 value).
  { pose proof (int32_range value) as Hr.
    assert (Hcell : forall r hf,
              (r, hf) ∈ enumerate (CMS.hash_functions self) ->
              CMS.cell (CMS.setitem self key value) r
                (CMS.column (CMS.setitem self key value) hf key)
              = CMS.int32 value).
    { intros r hf Hl. rewrite (column_same_w self) by done. by apply Hin. }
    apply Z.le_antisymm.
    - destruct (CMS.hash_functions self) as [|hf0 hs] eqn:E; [done|].
      rewrite <- (Hcell 0%nat hf0) by left.
      apply getitem_le_cell. rewrite Hh. left.
    - apply getitem_ge; [unfold CMS.sys_maxint; lia|].
      intros r hf Hl. rewrite Hh in Hl. by rewrite Hcell. }
  split; [done|]. split; [|done].
  intros Hv. rewrite Hread. by apply int32_small.
Qed.

(** X11. What [CMSketchCounter(delta, epsilon, conservative)] returns when
    it does not raise: a table at least [3] wide; the conservative policy
    whatever the argument [conservative]; hash coefficients between [0]
    and [_PRIME - 2]; hash functions that map every key to a column of
    the table; a table of zeros; and so, with at least one row, a read of
    [0] for every key. *)
Theorem built_sketch_is_well_formed rnd (delta epsilon : float) (cons : bool)
  (sk : CMS.CMSketchCounter) :
  CMS.init rnd delta epsilon cons = inr sk ->
  3 <= CMS.w sk /\
  CMS.conservative sk = true /\
  (forall a b, (a, b) ∈ CMS.hash_functions sk ->
               0 <= a <= CMS._PRIME - 2 /\ 0 <= b <= CMS._PRIME - 2) /\
  (forall hf key, 0 <= CMS.column sk hf key < CMS.w sk) /\
  (forall r col, CMS.cell sk r col = 0) /\
  (CMS.hash_functions sk <> [] -> forall key, CMS.getitem sk key = 0).
Proof.
  unfold CMS.init.
  destruct ((delta <=? 0)%float || (1 <=? delta)%float); [done|].
  destruct ((epsilon <=? 0)%float || (1 <=? epsilon)%float) eqn:Ee; [done|].
  apply orb_false_iff in Ee as [Ee0 Ee1].
  destruct (int_ceil (2 / epsilon)) as [|w] eqn:Ew; [done|].
  destruct (int_ceil (np_log (1 / delta))) as [|d]; [done|].
  destruct (allocate d w); [done|].
  intros [= <-].
  assert (Hw : 3 <= w) by (by apply (width_at_least_3 epsilon)).
  assert (Hzero : forall r col, CMS.cell (CMS.build rnd w d) r col = 0).
  { intros r col. unfold CMS.cell, CMS.build. simpl. by rewrite lookup_empty. }
  split; [exact Hw|]. split; [done|]. split; [|split; [|split; [done|]]].
  - intros a b Hin. unfold CMS.build in Hin. simpl in Hin.
    apply list_elem_of_fmap in Hin as (i & E & _).
    unfold CMS.generate_hash_function, CMS.randrange in E.
    injection E as -> ->.
    assert (Hb : forall z, 0 <= z mod (CMS._PRIME - 1) <= CMS._PRIME - 2).
    { intros z. pose proof (Z.mod_pos_bound z (CMS._PRIME - 1)) as Hz.
      unfold CMS._PRIME in *. lia. }
    split; apply Hb.
  - intros hf key. unfold CMS.column, CMS.apply_hash.
    apply Z.mod_pos_bound. change (CMS.w (CMS.build rnd w d)) with w. lia.
  - intros Hrows key. apply Z.le_antisymm.
    + destruct (CMS.hash_functions (CMS.build rnd w d))
        as [|hf0 hs] eqn:E; [done|].
      rewrite <- (Hzero 0%nat (CMS.column (CMS.build rnd w d) hf0 key)).
      apply getitem_le_cell. rewrite E. left.
    + apply getitem_ge; [done|]. intros r hf _. by rewrite Hzero.
Qed.

(** X12. [update_counts] on a conservative sketch, as the code has it:
    with [chat] the estimate of the word ["key"] (line 108), in each row
    the cell the updated key addresses becomes the larger of its value
    and [c + chat], stored as an [int32]; no other cell changes; the
    policy, the width and the hash functions stay as they were. *)
Theorem update_counts_rule (self : CMS.CMSketchCounter) (key : string)
  (c : Z) :
  CMS.conservative self = true ->
  let chat := CMS.getitem self "key" in
  let self' := CMS.update_counts self key c in
  (CMS.conservative self' = true /\ CMS.w self' = CMS.w self /\
   CMS.hash_functions self' = CMS.hash_functions self) /\
  (forall r hf, (r, hf) ∈ enumerate (CMS.hash_functions self) ->
     CMS.cell self' r (CMS.column self hf key) =
     CMS.int32 (Z.max (CMS.cell self r (CMS.column self hf key)) (c + chat))) /\
  (forall r col,
     (forall hf, (r, hf) ∈ enumerate (CMS.hash_functions self) ->
                 CMS.column self hf key <> col) ->
     CMS.cell self' r col = CMS.cell self r col).
Proof. apply update_counts_cells. Qed.

End SketchReads.

(** ** The sketch along a run of updates *)

Section SketchRuns.
Context {RT : Runtime}.

(** One update of a conservative sketch whose cells lie between [0] and
    [S], by an amount [c >= 0] with [S + c] an [int32]: no cell
    decreases, and none passes [S + c]. *)
Lemma update_counts_step_bounds self k c S :
  CMS.conservative self = true ->
  (forall r col, 0 <= CMS.cell self r col <= S) ->
  0 <= c -> S + c < 2 ^ 31 ->
  let self' := CMS.update_counts self k c in
  CMS.conservative self' = true /\
  CMS.w self' = CMS.w self /\
  CMS.hash_functions self' = CMS.hash_functions self /\
  (forall r col, CMS.cell self r col <= CMS.cell self' r col <= S + c).
Proof.
  intros Hcons Hcells Hc Hfit.
  destruct (update_rows_cells k c (CMS.getitem self "key") _ self Hcons
              (enumerate_rows_NoDup (CMS.hash_functions self)))
    as ((Hcons' & Hw' & Hh') & _ & _ & Hany).
  fold (CMS.update_counts self k c) in Hcons', Hw', Hh', Hany.
  simpl. split; [done|]. split; [done|]. split; [done|].
  assert (Hrows : enumerate (CMS.hash_functions self) = [] \/
                  exists r1 hf1,
                    (r1, hf1) ∈ enumerate (CMS.hash_functions self)).
  { destruct (enumerate (CMS.hash_functions self)) as [|[r1 hf1] rows];
      [by left | right]. exists r1, hf1. left. }
  destruct Hrows as [Erows | (r1 & hf1 & Hin1)].
  - intros r col. unfold CMS.update_counts. rewrite Erows. simpl.
    specialize (Hcells r col). lia.
  - assert (Hchat : 0 <= CMS.getitem self "key" <= S).
    { split.
      - apply getitem_ge; [done|]. intros r hf _. apply Hcells.
      - etrans; [by apply (getitem_le_cell self "key" r1 hf1)|]. apply Hcells. }
    intros r col. specialize (Hcells r col).
    destruct (Hany r col) as [-> | ->]; [lia|].
    rewrite int32_small by lia. lia.
Qed.

Lemma total_count_nonneg calls :
  (forall k c, (k, c) ∈ calls -> 0 <= c) -> 0 <= total_count calls.
Proof.
  intros Hpos. pose proof (true_count_bounds calls "" Hpos). lia.
Qed.

(** Along a run from an empty table the cells stay between [0] and the
    total counted so far. *)
Lemma run_updates_invariant (self0 : CMS.CMSketchCounter) calls :
  CMS.conservative self0 = true ->
  CMS.count self0 = ∅ ->
  (forall k c, (k, c) ∈ calls -> 0 <= c) ->
  total_count calls < 2 ^ 31 ->
  let self := run_updates self0 calls in
  CMS.conservative self = true /\
  CMS.w self = CMS.w self0 /\
  CMS.hash_functions self = CMS.hash_functions self0 /\
  (forall r col, 0 <= CMS.cell self r col <= total_count calls).
Proof.
  intros Hcons0 Hcount0.
  induction calls as [|[k0 c] calls IH] using rev_ind; intros Hpos Htot.
  - simpl. split; [done|]. split; [done|]. split; [done|].
    intros r col. unfold CMS.cell. rewrite Hcount0, lookup_empty. simpl. lia.
  - assert (Hc : 0 <= c).
    { apply (Hpos k0). apply elem_of_app. right. left. }
    assert (Hpos' : forall k1 c1, (k1, c1) ∈ calls -> 0 <= c1).
    { intros k1 c1 Hin. apply (Hpos k1). apply elem_of_app. by left. }
    rewrite total_count_app in Htot |- *. simpl in Htot |- *.
    destruct IH as (Hcons & Hw & Hh & Hcells); [done | lia |].
    unfold run_updates in *. rewrite foldl_snoc.
    destruct (update_counts_step_bounds _ k0 c (total_count calls) Hcons Hcells)
      as (Hcons' & Hw' & Hh' & Hstep); [lia | lia |].
    split; [done|]. split; [congruence|]. split; [congruence|].
    intros r col. specialize (Hstep r col). specialize (Hcells r col). lia.
Qed.

Lemma getitem_mono self self' k :
  CMS.w self' = CMS.w self ->
  CMS.hash_functions self' = CMS.hash_functions self ->
  (forall r col, CMS.cell self r col <= CMS.cell self' r col) ->
  CMS.getitem self k <= CMS.getitem self' k.
Proof.
  intros Hw Hh Hle. apply getitem_ge.
  - unfold CMS.getitem. apply (getitem_fold_bounds self k _ CMS.sys_maxint).
  - intros r hf Hin. rewrite Hh in Hin.
    rewrite (column_same_w self self') by done.
    etrans; [by apply (getitem_le_cell self k r hf)|]. apply Hle.
Qed.

(** X13. The sketch under the code's [update_counts], from an empty
    table, with non-negative increments whose total fits an [int32]:
    every cell lies between [0] and the total counted so far; hence no
    read is negative and, with at least one row, no read exceeds that
    total; the policy, the width and the hash functions never change. *)
Theorem sketch_reads_are_bounded (self0 : CMS.CMSketchCounter)
  (calls : list (string * Z)) :
  CMS.conservative self0 = true ->
  CMS.count self0 = ∅ ->
  (forall k c, (k, c) ∈ calls -> 0 <= c) ->
  total_count calls < 2 ^ 31 ->
  let self := run_updates self0 calls in
  (CMS.conservative self = true /\ CMS.w self = CMS.w self0 /\
   CMS.hash_functions self = CMS.hash_functions self0) /\
  (forall r col, 0 <= CMS.cell self r col <= total_count calls) /\
  (forall k, 0 <= CMS.getitem self k) /\
  (CMS.hash_functions self0 <> [] ->
   forall k, CMS.getitem self k <= total_count calls).
Proof.
  intros Hcons0 Hcount0 Hpos Htot.
  destruct (run_updates_invariant self0 calls Hcons0 Hcount0 Hpos Htot)
    as (Hcons & Hw & Hh & Hcells).
  simpl. split; [done|]. split; [done|]. split.
  - intros k. apply getitem_ge; [done|]. intros r hf _. apply Hcells.
  - intros Hrows k.
    destruct (CMS.hash_functions self0) as [|hf0 hs] eqn:E; [done|].
    etrans; [apply (getitem_le_cell _ k 0%nat hf0); rewrite Hh; left|].
    apply Hcells.
Qed.

(** X14. Under the same conditions, counting more never lowers an
    estimate: the read of any key after a run is at most its read after
    any longer run. *)
Theorem sketch_reads_never_decrease (self0 : CMS.CMSketchCounter)
  (calls calls' : list (string * Z)) (k : string) :
  CMS.conservative self0 = true ->
  CMS.count self0 = ∅ ->
  (forall k c, (k, c) ∈ calls ++ calls' -> 0 <= c) ->
  total_count (calls ++ calls') < 2 ^ 31 ->
  CMS.getitem (run_updates self0 calls) k
  <= CMS.getitem (run_updates self0 (calls ++ calls')) k.
Proof.
  intros Hcons0 Hcount0.
  induction calls' as [|[k0 c] calls' IH] using rev_ind; intros Hpos Htot.
  - by rewrite app_nil_r.
  - rewrite app_assoc in Hpos, Htot |- *.
    assert (Hc : 0 <= c).
    { apply (Hpos k0). apply elem_of_app. right. left. }
    assert (Hpos' : forall k1 c1, (k1, c1) ∈ calls ++ calls' -> 0 <= c1).
    { intros k1 c1 Hin. apply (Hpos k1). apply elem_of_app. by left. }
    rewrite total_count_app in Htot. simpl in Htot.
    destruct (run_updates_invariant self0 (calls ++ calls') Hcons0 Hcount0 Hpos')
      as (Hcons & Hw & Hh & Hcells); [lia|].
    etrans; [apply IH; [done | lia]|].
    unfold run_updates at 2. rewrite foldl_snoc.
    fold (run_updates self0 (calls ++ calls')).
    destruct (update_counts_step_bounds _ k0 c (total_count (calls ++ calls'))
                Hcons Hcells) as (_ & Hw' & Hh' & Hstep); [lia | lia |].
    apply getitem_mono; [done | done |]. intros r col. apply Hstep.
Qed.

End SketchRuns.

Section SketchRepeats.
Context {RT : Runtime}.

(** The cells along repeated unit updates of [k] on a table that starts
    empty, when some row separates [k] from the word ["key"]: after the
    first update the cells [k] addresses hold [1], all others [0], and
    nothing changes any more. *)
Lemma repeat_update_cells (self : CMS.CMSketchCounter) (k : string) r0 hf0 :
  CMS.conservative self = true ->
  CMS.count self = ∅ ->
  (r0, hf0) ∈ enumerate (CMS.hash_functions self) ->
  CMS.column self hf0 k <> CMS.column self hf0 "key" ->
  forall n,
  let s := repeat_update self k 1 n in
  CMS.conservative s = true /\
  CMS.w s = CMS.w self /\
  CMS.hash_functions s = CMS.hash_functions self /\
  forall key' r hf, (r, hf) ∈ enumerate (CMS.hash_functions self) ->
    CMS.cell s r (CMS.column self hf key') =
    if decide (CMS.column self hf k = CMS.column self hf key')
    then (match n with O => 0 | S _ => 1 end) else 0.
Proof.
  intros Hcons Hcount Hin0 Hsep n. induction n as [|n IH].
  - simpl. split; [done|]. split; [done|]. split; [done|].
    intros key' r hf _. unfold CMS.cell. rewrite Hcount, lookup_empty. simpl.
    by case_decide.
  - destruct IH as (Hcs & Hws & Hhs & Hcells).
    set (s := repeat_update self k 1 n) in *.
    set (v := match n with O => 0 | S _ => 1 end) in *.
    assert (Hv : 0 <= v <= 1) by (unfold v; destruct n; lia).
    change (repeat_update self k 1 (S n)) with (CMS.update_counts s k 1).
    destruct (update_counts_cells s k 1 Hcs) as ((Hc' & Hw' & Hh') & _).
    assert (Hchat : CMS.getitem s "key" = 0).
    { apply Z.le_antisymm.
      - etrans; [apply (getitem_le_cell s "key" r0 hf0); by rewrite Hhs|].
        rewrite (column_same_w self s) by done.
        rewrite Hcells by done. by rewrite decide_False.
      - apply getitem_ge; [done|]. intros r hf Hin. rewrite Hhs in Hin.
        rewrite (column_same_w self s) by done.
        rewrite Hcells by done. case_decide; lia. }
    simpl. split; [done|]. split; [congruence|]. split; [congruence|].
    intros key' r hf Hin.
    rewrite <- (column_same_w self s hf key') by done.
    rewrite update_counts_cell_of by (done || by rewrite Hhs).
    rewrite !(column_same_w self s) by done.
    rewrite Hchat, Hcells by done.
    case_decide; [|done]. rewrite int32_small; lia.
Qed.

(** X15. The effect of reading the estimate of the word ["key"] in
    [update_counts] (line 108), for any hash function: on a conservative
    sketch that starts empty and in which some row separates [k] from
    ["key"], the estimate of [k] is [1] after one call
    [update_counts(k, 1)] and stays [1] however often the call is
    repeated. *)
Theorem repeated_updates_stay_at_one (self : CMS.CMSketchCounter)
  (k : string) (n : nat) :
  CMS.conservative self = true ->
  CMS.count self = ∅ ->
  (exists r hf, (r, hf) ∈ enumerate (CMS.hash_functions self) /\
                CMS.column self hf k <> CMS.column self hf "key") ->
  CMS.getitem (repeat_update self k 1 (S n)) k = 1.
Proof.
  intros Hcons Hcount (r0 & hf0 & Hin0 & Hsep).
  destruct (repeat_update_cells self k r0 hf0 Hcons Hcount Hin0 Hsep (S n))
    as (_ & Hw & Hh & Hcells).
  set (s := repeat_update self k 1 (S n)) in *.
  assert (Hone : forall r hf, (r, hf) ∈ enumerate (CMS.hash_functions self) ->
            CMS.cell s r (CMS.column s hf k) = 1).
  { intros r hf Hin. rewrite (column_same_w self s) by done.
    rewrite Hcells by done. by rewrite decide_True. }
  apply Z.le_antisymm.
  - etrans; [apply (getitem_le_cell s k r0 hf0); by rewrite Hh|].
    by rewrite Hone.
  - apply getitem_ge; [done|]. intros r hf Hin. rewrite Hh in Hin.
    by rewrite Hone.
Qed.

End SketchRepeats.

(** ** Merging sketches and what every model keeps *)

Lemma iadd_count_cell (a b : CMS.CMSketchCounter) r col :
  cells_int32 a -> cells_int32 b ->
  CMS.cell (CMS.iadd_count a b) r col
  = CMS.int32 (CMS.cell a r col + CMS.cell b r col).
Proof.
  intros Ha Hb. specialize (Ha r col). specialize (Hb r col).
  unfold CMS.cell, CMS.iadd_count in *. simpl. rewrite lookup_union_with.
  destruct (CMS.count a !! (r, col)) as [x|],
           (CMS.count b !! (r, col)) as [y|]; simpl in *;
    try done; rewrite ?Z.add_0_r, ?Z.add_0_l; by rewrite int32_small.
Qed.

(** X16. The merge of [add_vocab] in approximate mode,
    [self.vocab.count += vocab.count], on two tables of [int32] cells:
    each cell becomes the sum of the two cells as an [int32] (the plain
    sum when it fits); the result still has [int32] cells; the model's
    own policy, width and hash functions are kept and those of the other
    sketch play no part. *)
Theorem sketch_tables_add_cell_by_cell (a b : CMS.CMSketchCounter) :
  cells_int32 a -> cells_int32 b ->
  (forall r col, CMS.cell (CMS.iadd_count a b) r col
                 = CMS.int32 (CMS.cell a r col + CMS.cell b r col)) /\
  (forall r col, - 2 ^ 31 <= CMS.cell a r col + CMS.cell b r col < 2 ^ 31 ->
                 CMS.cell (CMS.iadd_count a b) r col
                 = CMS.cell a r col + CMS.cell b r col) /\
  cells_int32 (CMS.iadd_count a b) /\
  CMS.conservative (CMS.iadd_count a b) = CMS.conservative a /\
  CMS.w (CMS.iadd_count a b) = CMS.w a /\
  CMS.hash_functions (CMS.iadd_count a b) = CMS.hash_functions a.
Proof.
  intros Ha Hb. split; [|split; [|split; [|done]]].
  - intros r col. by apply iadd_count_cell.
  - intros r col Hfit. rewrite iadd_count_cell by done. by apply int32_small.
  - intros r col. rewrite iadd_count_cell by done. apply int32_range.
Qed.

Section Invariants.
Context {RT : Runtime}.

Lemma update_counts_sketch_ok (sk : CMS.CMSketchCounter) k c :
  counter_ok (e := false) sk ->
  counter_ok (e := false) (CMS.update_counts sk k c).
Proof.
  intros [Hcons Hcells].
  destruct (update_rows_cells k c (CMS.getitem sk "key") _ sk Hcons
              (enumerate_rows_NoDup (CMS.hash_functions sk)))
    as ((Hcons' & _) & _ & _ & Hany).
  fold (CMS.update_counts sk k c) in Hcons', Hany.
  split; [done|]. intros r col.
  destruct (Hany r col) as [-> | ->]; [apply Hcells | apply int32_range].
Qed.

Lemma count_sentence_sketch_ok dl (sk : CMS.CMSketchCounter) s :
  counter_ok (e := false) sk ->
  counter_ok (e := false) (count_sentence (e := false) dl sk s).
Proof.
  intros Hok. unfold count_sentence.
  assert (Hfold : forall bs sk0, counter_ok (e := false) sk0 ->
            counter_ok (e := false)
              (foldl (count_bigram (e := false) dl) sk0 bs)).
  { induction bs as [|bg bs IH]; intros sk0 Hok0; [done|].
    rewrite foldl_cons. apply IH. unfold count_bigram.
    by do 2 apply update_counts_sketch_ok. }
  destruct (last s); [apply update_counts_sketch_ok|]; by apply Hfold.
Qed.

Lemma learn_vocab_sketch_ok rnd (sentences : list (list text)) mvs dl :
  counter_ok (e := false) (learn_vocab rnd sentences mvs dl false).2.
Proof.
  induction sentences as [|x l IH] using rev_ind.
  - simpl. rewrite default_eq. split; [done|]. intros r col.
    unfold CMS.cell. simpl. rewrite lookup_empty. simpl. lia.
  - rewrite learn_vocab_snoc.
    destruct (learn_vocab rnd l mvs dl false) as [mr sk]. simpl in IH.
    unfold learn_sentence.
    destruct (mvs <? _); simpl; by apply count_sentence_sketch_ok.
Qed.

Lemma add_vocab_counter_ok rnd self (sentences : list (list text)) :
  counter_ok (vocab self) ->
  counter_ok (vocab (add_vocab rnd self sentences)).
Proof.
  destruct self as [mc th mvs e v mr dl]. simpl. intros Hok.
  unfold add_vocab.
  pose proof (learn_vocab_sketch_ok rnd sentences mvs dl) as Hsk.
  pose proof (learn_vocab_bounds dl rnd sentences mvs) as [Hpos _].
  destruct e.
  - destruct (learn_vocab rnd sentences mvs dl true) as [mr' v']. simpl in Hpos.
    change (counter_type true) with (gmap string Z) in *.
    assert (Hmerged : forall k c,
              merge_counts v v' !! k = Some c -> 1 <= c).
    { intros k c Hc. apply dict_count_lookup in Hc as Hc'.
      rewrite merge_counts_count in Hc'.
      pose proof (dict_count_nonneg v k Hok).
      pose proof (dict_count_nonneg v' k Hpos).
      assert (Hin : k ∈ dom v ∪ dom v').
      { rewrite <- merge_counts_dom. apply elem_of_dom. by eexists. }
      apply elem_of_union in Hin as [[c0 E]%elem_of_dom | [c0 E]%elem_of_dom].
      - specialize (Hok k c0 E). rewrite (dict_count_lookup v k c0 E) in *. lia.
      - specialize (Hpos k c0 E). rewrite (dict_count_lookup v' k c0 E) in *.
        lia. }
    destruct (mvs <? _); simpl; [|done].
    intros k c Hc. rewrite prune_vocab_lookup in Hc.
    destruct (merge_counts v v' !! k) as [c'|] eqn:E; [|done].
    destruct (c' <=? _); [done|]. injection Hc as <-. by apply (Hmerged k).
  - destruct (learn_vocab rnd sentences mvs dl false) as [mr' sk']. simpl in *.
    destruct Hok as [Hcons Hcells], Hsk as [_ Hcells'].
    split; [done|]. intros r col. rewrite iadd_count_cell by done.
    apply int32_range.
Qed.

Lemma reachable_counter_ok self : reachable self -> counter_ok (vocab self).
Proof.
  induction 1 as [rnd rnd' sentences mc th mvs dl e self Hinit
                 | rnd self sentences _ IH | self sentence _ IH].
  - apply init_inr in Hinit as (_ & _ & ->).
    assert (H0 : counter_ok (_get_counter_instance rnd e)).
    { destruct e; simpl.
      - intros k c Hc. unfold Dict.empty in Hc. by rewrite lookup_empty in Hc.
      - rewrite default_eq. split; [done|]. intros r col.
        unfold CMS.cell. simpl. rewrite lookup_empty. simpl. lia. }
    destruct sentences as [ss|]; [|done]. by apply add_vocab_counter_ok.
  - by apply add_vocab_counter_ok.
  - by rewrite getitem_sentence_self.
Qed.

(** X17. What the counter of every model a program can hold keeps true.
    In exact mode every stored count is at least [1]: a key is in the
    dictionary exactly when its count is positive, so a pair the code
    scores never takes the branch [score = 0].  In approximate mode the
    sketch updates conservatively and every cell is an [int32]. *)
Theorem reachable_counter_invariant (self : Phrases) :
  reachable self ->
  counter_ok (vocab self) /\
  (exact_count self = true ->
   forall k, approx_or (vocab self) (fun d => Dict.contains d k) = true
             <-> 1 <= count (vocab self) k).
Proof.
  intros Hr. pose proof (reachable_counter_ok self Hr) as Hok.
  split; [done|].
  destruct self as [mc th mvs e v mr dl]. simpl in *. intros ->. simpl in *.
  intros k. unfold Dict.contains, Dict.count.
  rewrite bool_decide_eq_true. split.
  - intros [c Hc]. rewrite Hc. simpl. by apply (Hok k).
  - destruct (v !! k) as [c|]; [by eexists | simpl; lia].
Qed.

(** X18. A pass of [learn_vocab] over a sketch: [len] of a sketch is [0],
    so the test [len(vocab) > max_vocab_size] of line 252 holds exactly
    when [max_vocab_size] is negative.  The pass returns [min_reduce = 1]
    when [max_vocab_size >= 0] and [1] plus the number of sentences when
    it is negative ([min_reduce += 1] is not under [if exact_count]);
    the sketch it returns is never pruned. *)
Theorem approx_pass_min_reduce rnd (sentences : list (list text)) (mvs : Z)
  (dl : string) :
  learn_vocab rnd sentences mvs dl false =
  (if mvs <? 0 then 1 + Z.of_nat (length sentences) else 1,
   foldl (fun sk sentence =>
            count_sentence (e := false) dl sk (map any2utf8 sentence))
         (_get_counter_instance rnd false) sentences).
Proof.
  induction sentences as [|x l IH] using rev_ind.
  - simpl. by destruct (mvs <? 0).
  - rewrite learn_vocab_snoc, IH, foldl_snoc, length_app. simpl.
    unfold learn_sentence. simpl len. unfold CMS.len.
    destruct (mvs <? 0); [f_equal; lia | done].
Qed.

End Invariants.

Section Untrained.
Context {RT : Runtime}.

(** X20. A model built in exact mode without sentences has an empty
    counter: no pair is scored and the last word is never a key, so
    [self[sentence]] returns every sentence without its last word (and
    the empty sentence as it is). *)
Theorem untrained_exact_model_drops_last_word rnd rnd' mc th mvs dl
  (self : Phrases) (sentence : list text) :
  init rnd rnd' None mc th mvs dl true = inr self ->
  (getitem_sentence self sentence).2
  = map to_unicode (removelast (map any2utf8 sentence)).
Proof.
  intros Hinit. apply init_inr in Hinit as (_ & _ & ->).
  rewrite getitem_sentence_out.
  rewrite transform_no_merge.
  - simpl. destruct (last (map any2utf8 sentence)) as [t|] eqn:El.
    + unfold Dict.contains, Dict.empty. by rewrite lookup_empty.
    + apply last_None in El. by rewrite El.
  - intros a b _. unfold merges. simpl.
    unfold Dict.contains, Dict.empty. by rewrite lookup_empty.
Qed.

End Untrained.

(** ** Further runs on concrete inputs *)

Section MoreRuns.
Local Open Scope string_scope.
Local Abbreviation R := Py27.runtime.

(** With room for two keys, the second sentence triggers pruning; the
    count of [a] that survives is its true count. *)
Lemma learn_vocab_never_overcounts_run :
  1 <= 4 <= occ "a" (stream_tokens [["a"; "a"; "a"]; ["a"; "b"]])
            + occ "a" (map (joined "_")
                         (stream_bigrams [["a"; "a"; "a"]; ["a"; "b"]])).
Proof.
  apply (learn_vocab_never_overcounts (RT := R) "_" Py27.rnd_one
           [["a"; "a"; "a"]; ["a"; "b"]] 2 "a" 4).
  vm_compute. reflexivity.
Defined.

(** Adding the corpus to a model that has counted [new] twice. *)
Lemma add_vocab_adds_counts_run :
  count (RT := R) (vocab (add_vocab (RT := R) Py27.rnd_one
                  (mkPhrases 1 10 40000000 true {[ "new" := 2 ]} 1 "_")
                  Py27.corpus)) "new" = 5.
Proof.
  destruct (add_vocab_adds_counts (RT := R) "_" Py27.rnd_one 1 10 40000000
              {[ "new" := 2 ]} 1 Py27.corpus) as (_ & _ & W).
  - vm_compute. discriminate.
  - rewrite W. vm_compute. reflexivity.
Defined.

Lemma transform_keeps_the_words_run :
  exists segs,
    (getitem_sentence (RT := R) (Py27.exact_model 1)
       ["new"; "york"; "is"; "big"]).2
    = map (render "_") segs /\
    forall a b, Joined a b ∈ segs ->
                fgtb (score_spec (RT := R) (Py27.exact_model 1) a b) 10 = true.
Proof.
  destruct (transform_keeps_the_words (RT := R) (Py27.exact_model 1)
              ["new"; "york"; "is"; "big"]) as (segs & W1 & W2 & _).
  - vm_compute. reflexivity.
  - exists segs. split.
    + rewrite W1. simpl. by rewrite map_id.
    + intros a b Hin. by destruct (W2 a b Hin).
Defined.

Lemma transform_length_bounds_run :
  (length (getitem_sentence (RT := R) (Py27.exact_model 1)
             ["new"; "york"; "is"; "big"]).2 <= 4
   <= 2 * length (getitem_sentence (RT := R) (Py27.exact_model 1)
                    ["new"; "york"; "is"; "big"]).2 + 1)%nat.
Proof.
  apply (transform_length_bounds (RT := R) (Py27.exact_model 1)
           ["new"; "york"; "is"; "big"]).
  vm_compute. reflexivity.
Defined.

Lemma setitem_then_getitem_run :
  CMS.getitem (RT := R) (CMS.setitem (RT := R) Py27.small_sketch "a" 7) "a" = 7.
Proof.
  destruct (setitem_then_getitem (RT := R) Py27.small_sketch "a" 7)
    as (_ & W & _).
  - vm_compute. discriminate.
  - apply W. lia.
Defined.

(** The argument [conservative=False] is not read. *)
Lemma built_sketch_is_well_formed_run :
  CMS.init (RT := R) Py27.rnd_one 0.5 0.5 false = inr Py27.small_sketch /\
  3 <= CMS.w Py27.small_sketch /\
  CMS.conservative Py27.small_sketch = true.
Proof.
  destruct (built_sketch_is_well_formed (RT := R) Py27.rnd_one 0.5 0.5
              false Py27.small_sketch eq_refl) as (W1 & W2 & _).
  split; [reflexivity|]. split; [exact W1 | exact W2].
Defined.

Lemma small_sketch_row : (0%nat, (1, 0)) ∈ enumerate (CMS.hash_functions Py27.small_sketch).
Proof. vm_compute. left. Defined.

Lemma update_counts_rule_run :
  CMS.cell (CMS.update_counts (RT := R) Py27.small_sketch "a" 5) 0 0 = 5.
Proof.
  destruct (update_counts_rule (RT := R) Py27.small_sketch "a" 5 eq_refl)
    as (_ & W & _).
  etrans; [exact (W 0%nat (1, 0) small_sketch_row)|].
  vm_compute. reflexivity.
Defined.

Lemma sketch_reads_are_bounded_run :
  0 <= CMS.getitem (RT := R)
         (run_updates (RT := R) Py27.small_sketch [("a", 1); ("b", 2)]) "a"
    <= 3.
Proof.
  destruct (sketch_reads_are_bounded (RT := R) Py27.small_sketch
              [("a", 1); ("b", 2)]) as (_ & _ & W1 & W2).
  - reflexivity.
  - reflexivity.
  - intros k c [E|[E|E%elem_of_nil]%elem_of_cons]%elem_of_cons;
      [injection E as -> -> | injection E as -> -> | done]; lia.
  - vm_compute. reflexivity.
  - split; [apply W1 | apply W2]. vm_compute. discriminate.
Defined.

Lemma sketch_reads_never_decrease_run :
  CMS.getitem (RT := R) (run_updates (RT := R) Py27.small_sketch [("a", 1)]) "a"
  <= CMS.getitem (RT := R)
       (run_updates (RT := R) Py27.small_sketch ([("a", 1)] ++ [("b", 2)])) "a".
Proof.
  apply (sketch_reads_never_decrease (RT := R) Py27.small_sketch
           [("a", 1)] [("b", 2)] "a").
  - reflexivity.
  - reflexivity.
  - intros k c [E|[E|E%elem_of_nil]%elem_of_cons]%elem_of_cons;
      [injection E as -> -> | injection E as -> -> | done]; lia.
  - vm_compute. reflexivity.
Defined.

Lemma repeated_updates_stay_at_one_run :
  CMS.getitem (RT := R) (repeat_update (RT := R) Py27.small_sketch "a" 1 5) "a"
  = 1.
Proof.
  apply (repeated_updates_stay_at_one (RT := R) Py27.small_sketch "a" 4).
  - reflexivity.
  - reflexivity.
  - exists 0%nat, (1, 0). split; [exact small_sketch_row|].
    vm_compute. discriminate.
Defined.

Lemma small_sketch_cells : cells_int32 Py27.small_sketch.
Proof.
  intros r col. unfold CMS.cell. simpl. rewrite lookup_empty. simpl. lia.
Defined.

Lemma sketch_tables_add_cell_by_cell_run :
  CMS.cell (CMS.iadd_count
              (CMS.update_counts (RT := R) Py27.small_sketch "a" 1)
              (CMS.update_counts (RT := R) Py27.small_sketch "a" 2)) 0 0 = 3.
Proof.
  destruct (sketch_tables_add_cell_by_cell
              (CMS.update_counts (RT := R) Py27.small_sketch "a" 1)
              (CMS.update_counts (RT := R) Py27.small_sketch "a" 2))
    as (_ & W & _).
  - apply (update_counts_sketch_ok (RT := R) Py27.small_sketch "a" 1).
    split; [reflexivity | exact small_sketch_cells].
  - apply (update_counts_sketch_ok (RT := R) Py27.small_sketch "a" 2).
    split; [reflexivity | exact small_sketch_cells].
  - rewrite (W 0%nat 0).
    + vm_compute. reflexivity.
    + vm_compute. split; [intros E; discriminate E | reflexivity].
Defined.

Lemma reachable_counter_invariant_run :
  counter_ok (vocab (Py27.exact_model 1)).
Proof.
  exact (proj1 (reachable_counter_invariant (RT := R) (Py27.exact_model 1)
                  exact_model_reachable)).
Defined.

Lemma construction_counts_the_corpus_run :
  exists self,
    init (RT := R) Py27.rnd_one Py27.rnd_one (Some Py27.corpus)
      1 10 40000000 "_" true = inr self /\
    min_reduce self = 1.
Proof.
  destruct (construction_counts_the_corpus (RT := R) "_" Py27.rnd_one
              Py27.rnd_one 1 10 40000000 Py27.corpus)
    as (self & W1 & W2 & _).
  - reflexivity.
  - reflexivity.
  - vm_compute. discriminate.
  - exists self. split; [exact W1 | exact W2].
Defined.

Lemma untrained_exact_model_drops_last_word_run :
  (getitem_sentence (RT := R)
     (mkPhrases 5 10 40000000 true Dict.empty 1 "_") ["new"; "york"]).2
  = ["new"].
Proof.
  exact (untrained_exact_model_drops_last_word (RT := R) Py27.rnd_one
           Py27.rnd_one 5 10 40000000 "_" _ ["new"; "york"] eq_refl).
Defined.

End MoreRuns.
